(** * The mesh boolean engine of [bmesh_boolean.c]

    A shallow embedding of the parts of
    [source/blender/bmesh/tools/bmesh_boolean.c] that the specification
    talks about: the index containers, the change buffer ([MeshAdd],
    [MeshDelete], [MeshChange]), part-set construction, the part-pair
    intersector, and the winding classifier with the boolean operator.

    C [int] values are [Z]; C [double] and [float] are IEEE-754 binary64 and
    binary32 numbers, computed with the executable operations of
    [SpecFloat]; linked lists are [list]; arrays indexed by element number
    are lists read with [!!] and written with [<[_:=_]>]; the edge hash is a
    [gmap] keyed by the ordered endpoint pair. *)

From Stdlib Require Import ZArith List Bool Lia Permutation Sorted.
From Stdlib Require Import Floats.
From stdpp Require Import base option list gmap sorting.

Local Open Scope Z_scope.

(** ** Floating point *)

Module FP.

Definition double := spec_float.
Definition float := spec_float.

Definition dprec : Z := 53.
Definition demax : Z := 1024.
Definition fprec : Z := 24.
Definition femax : Z := 128.

(** The number [m * 2^e] rounded to the format. *)
Definition dbl (m e : Z) : double := binary_normalize dprec demax m e false.
Definition flt (m e : Z) : float := binary_normalize fprec femax m e false.

Definition round_to (prec emax : Z) (x : spec_float) : spec_float :=
  match x with
  | S754_finite s m e => binary_round prec emax s m e
  | _ => x
  end.

(** [(double)x] and [(float)x]. *)
Definition db_of_fl (x : float) : double := round_to dprec demax x.
Definition fl_of_db (x : double) : float := round_to fprec femax x.

Definition dadd : double -> double -> double := SFadd dprec demax.
Definition dsub : double -> double -> double := SFsub dprec demax.
Definition dmul : double -> double -> double := SFmul dprec demax.
Definition ddiv : double -> double -> double := SFdiv dprec demax.
Definition dsqrt : double -> double := SFsqrt dprec demax.

Definition fadd : float -> float -> float := SFadd fprec femax.
Definition fsub : float -> float -> float := SFsub fprec femax.
Definition fmul : float -> float -> float := SFmul fprec femax.

Definition d0 : double := S754_zero false.
Definition d1 : double := dbl 1 0.
Definition d2 : double := dbl 2 0.
Definition d4 : double := dbl 4 0.
Definition dhalf : double := dbl 1 (-1).
Definition f0 : float := S754_zero false.
Definition f1 : float := flt 1 0.
Definition f10 : float := flt 10 0.
Definition f20 : float := flt 20 0.

(** [M_PI], [M_2_PI] and the literal [10e-10], as the compiler reads
    them. *)
Definition M_PI : double := dbl 0x1921fb54442d18 (-51).
Definition M_2_PI : double := dbl 0x145f306dc9c883 (-53).
Definition d10e_10 : double := dbl 0x112e0be826d695 (-82).
Definition DBL_MAX : double := dbl 0x1fffffffffffff 971.

(** [min_dd], [max_dd]. *)
Definition min_dd (a b : double) : double := if SFltb a b then a else b.
Definition max_dd (a b : double) : double := if SFltb b a then a else b.

End FP.
Import FP.

Arguments dbl : simpl never.
Arguments flt : simpl never.
Arguments db_of_fl : simpl never.
Arguments fl_of_db : simpl never.
Arguments dadd : simpl never.
Arguments dsub : simpl never.
Arguments dmul : simpl never.
Arguments ddiv : simpl never.
Arguments dsqrt : simpl never.
Arguments fadd : simpl never.
Arguments fsub : simpl never.
Arguments fmul : simpl never.
Arguments min_dd : simpl never.
Arguments max_dd : simpl never.

(** ** Vectors *)

Record v3 := V3 { x3 : spec_float; y3 : spec_float; z3 : spec_float }.
Record v4 := V4 { x4 : spec_float; y4 : spec_float; z4 : spec_float; w4 : spec_float }.

Definition zero_v3 : v3 := V3 f0 f0 f0.
Definition zero_v3_db : v3 := V3 d0 d0 d0.
Definition zero_v4 : v4 := V4 f0 f0 f0 f0.

Definition copy_v3db_v3fl (a : v3) : v3 := V3 (db_of_fl (x3 a)) (db_of_fl (y3 a)) (db_of_fl (z3 a)).
Definition copy_v3fl_v3db (a : v3) : v3 := V3 (fl_of_db (x3 a)) (fl_of_db (y3 a)) (fl_of_db (z3 a)).
Definition copy_v4db_v4fl (a : v4) : v4 :=
  V4 (db_of_fl (x4 a)) (db_of_fl (y4 a)) (db_of_fl (z4 a)) (db_of_fl (w4 a)).

Definition add_v3_v3v3_db (a b : v3) : v3 := V3 (dadd (x3 a) (x3 b)) (dadd (y3 a) (y3 b)) (dadd (z3 a) (z3 b)).
Definition sub_v3_v3v3_db (a b : v3) : v3 := V3 (dsub (x3 a) (x3 b)) (dsub (y3 a) (y3 b)) (dsub (z3 a) (z3 b)).
Definition dot_v3v3_db (a b : v3) : double :=
  dadd (dadd (dmul (x3 a) (x3 b)) (dmul (y3 a) (y3 b))) (dmul (z3 a) (z3 b)).
Definition dot_v3v3 (a b : v3) : float :=
  fadd (fadd (fmul (x3 a) (x3 b)) (fmul (y3 a) (y3 b))) (fmul (z3 a) (z3 b)).
Definition cross_v3_v3v3_db (a b : v3) : v3 :=
  V3 (dsub (dmul (y3 a) (z3 b)) (dmul (z3 a) (y3 b)))
     (dsub (dmul (z3 a) (x3 b)) (dmul (x3 a) (z3 b)))
     (dsub (dmul (x3 a) (y3 b)) (dmul (y3 a) (x3 b))).
Definition len_v3_db (a : v3) : double := dsqrt (dot_v3v3_db a a).
Definition len_squared_v3v3_db (a b : v3) : double :=
  let d := sub_v3_v3v3_db b a in dot_v3v3_db d d.

(** The normal part of a plane, used where the C code passes a [double[4]]
    to a function reading three components. *)
Definition plane_no (p : v4) : v3 := V3 (x4 p) (y4 p) (z4 p).

(** [compare_v3v3] and [compare_v3v3_db]: every component within [limit]. *)
Definition compare_v3v3 (a b : v3) (limit : float) : bool :=
  SFleb (SFabs (fsub (x3 a) (x3 b))) limit &&
  SFleb (SFabs (fsub (y3 a) (y3 b))) limit &&
  SFleb (SFabs (fsub (z3 a) (z3 b))) limit.
Definition compare_v3v3_db (a b : v3) (limit : double) : bool :=
  SFleb (SFabs (dsub (x3 a) (x3 b))) limit &&
  SFleb (SFabs (dsub (y3 a) (y3 b))) limit &&
  SFleb (SFabs (dsub (z3 a) (z3 b))) limit.

(** ** Index containers *)

(** [IntSet]: a linked list of ints without repetition. *)
Definition IntSet := list Z.

Definition init_intset : IntSet := [].

Fixpoint find_in_intset (set : IntSet) (value : Z) : bool :=
  match set with
  | [] => false
  | link :: next => if link =? value then true else find_in_intset next value
  end.

Definition add_to_intset (set : IntSet) (value : Z) : IntSet :=
  if find_in_intset set value then set else value :: set.

(** [IntIntMap]: a linked list of [IntPair], appended at the end and searched
    from the front. *)
Record IntPair := mkIntPair { first : Z; second : Z }.

Definition IntIntMap := list IntPair.

Definition init_intintmap : IntIntMap := [].

Definition add_to_intintmap (map : IntIntMap) (key val : Z) : IntIntMap :=
  map ++ [mkIntPair key val].

Fixpoint find_in_intintmap (map : IntIntMap) (key : Z) : option Z :=
  match map with
  | [] => None
  | keyval :: next => if first keyval =? key then Some (second keyval) else find_in_intintmap next key
  end.

(** [resolve_merge]: the [while] loop runs as long as the current vertex has
    an entry.  [fuel] bounds the number of loop tests; [None] means the loop
    was still running when the fuel ran out. *)
Fixpoint resolve_merge (fuel : nat) (v : Z) (vert_merge_map : IntIntMap) : option Z :=
  match fuel with
  | O => None
  | S fuel' =>
      match find_in_intintmap vert_merge_map v with
      | Some target => resolve_merge fuel' target vert_merge_map
      | None => Some v
      end
  end.

(** [chase k v m]: the vertex reached from [v] after exactly [k] successful
    lookups, if there are that many. *)
Fixpoint chase (k : nat) (v : Z) (m : IntIntMap) : option Z :=
  match k with
  | O => Some v
  | S k' =>
      match find_in_intintmap m v with
      | Some target => chase k' target m
      | None => None
      end
  end.

(** The vertices at which the first [k] lookups from [v] are made. *)
Fixpoint trail (k : nat) (v : Z) (m : IntIntMap) : list Z :=
  match k with
  | O => []
  | S k' =>
      v :: match find_in_intintmap m v with
           | Some target => trail k' target m
           | None => []
           end
  end.

(** A map is acyclic when no vertex comes back to itself after one or more
    lookups. *)
Definition acyclic (m : IntIntMap) : Prop :=
  forall (v : Z) (k : nat), (0 < k)%nat -> chase k v m <> Some v.

(** [v] runs into a cycle: after [i] lookups it is at [u], and [u] comes back
    to itself after [k >= 1] more. *)
Definition reaches_cycle (v : Z) (m : IntIntMap) : Prop :=
  exists (i k : nat) (u : Z), (0 < k)%nat /\ chase i v m = Some u /\ chase k u m = Some u.

(** ** The mesh abstraction [IMesh] *)

(** Reading an array at a C [int] index. *)
Definition at_index {A : Type} (l : list A) (i : Z) : option A :=
  if i <? 0 then None else l !! Z.to_nat i.

(** The host mesh as the engine reads it: vertex coordinates ([float]),
    edges as vertex pairs and faces as a vertex cycle with a normal, each
    addressed by its index in the element table. *)
Record BMFace := mkBMFace { f_verts : list Z; f_no : v3 }.

Record IMesh := mkIMesh {
  im_verts : list v3;
  im_edges : list (Z * Z);
  im_faces : list BMFace
}.

Definition imesh_totvert (im : IMesh) : Z := Z.of_nat (length (im_verts im)).
Definition imesh_totedge (im : IMesh) : Z := Z.of_nat (length (im_edges im)).
Definition imesh_totface (im : IMesh) : Z := Z.of_nat (length (im_faces im)).

Definition imesh_facelen (im : IMesh) (f : Z) : Z :=
  match at_index (im_faces im) f with
  | Some bmf => Z.of_nat (length (f_verts bmf))
  | None => 0
  end.

(** [imesh_get_face_no] reads [bmf->no] without testing [bmf]: [None]
    stands for the read through an index that has no face. *)
Definition imesh_get_face_no (im : IMesh) (f : Z) : option v3 :=
  match at_index (im_faces im) f with
  | Some bmf => Some (copy_v3db_v3fl (f_no bmf))
  | None => None
  end.

(** The loop cycle is walked [index] times from the first loop. *)
Definition imesh_face_vert (im : IMesh) (f : Z) (index : Z) : Z :=
  match at_index (im_faces im) f with
  | Some bmf =>
      match f_verts bmf !! (Z.to_nat index mod length (f_verts bmf))%nat with
      | Some v => v
      | None => -1
      end
  | None => -1
  end.

Definition imesh_get_vert_co (im : IMesh) (v : Z) : v3 :=
  match at_index (im_verts im) v with
  | Some co => co
  | None => zero_v3
  end.

Definition imesh_get_vert_co_db (im : IMesh) (v : Z) : v3 :=
  match at_index (im_verts im) v with
  | Some co => copy_v3db_v3fl co
  | None => zero_v3_db
  end.

(** Modelled from the spec: the coordinate k-d tree of [BLI_kdtree], which
    is not under src/ ("range search by radius with callback"): the callback
    is run on every inserted node whose squared distance to the query point
    is at most the squared range.  Nodes are visited in insertion order; the
    callbacks of this file keep a minimum, which no visiting order changes. *)
Definition len_squared_v3v3 (a b : v3) : float :=
  let d := V3 (fsub (x3 b) (x3 a)) (fsub (y3 b) (y3 a)) (fsub (z3 b) (z3 a)) in
  dot_v3v3 d d.

Definition BLI_kdtree_3d_range_search (tree : list (Z * v3)) (co : v3) (range : float)
  : list (Z * v3) :=
  filter (fun node => SFleb (len_squared_v3v3 (snd node) co) (fmul range range) = true) tree.

Definition make_im_co_tree (im : IMesh) : list (Z * v3) :=
  imap (fun v co => (Z.of_nat v, co)) (im_verts im).

(** [find_co_cb]: keep the lowest index seen. *)
Definition find_co_cb (v : Z) (index : Z) : Z :=
  if v =? -1 then index else Z.min v index.

Definition imesh_find_co_db (im : IMesh) (co : v3) (eps : double) : Z :=
  let feps := fl_of_db eps in
  let fco := copy_v3fl_v3db co in
  fold_left (fun v node => find_co_cb v (fst node))
            (BLI_kdtree_3d_range_search (make_im_co_tree im) fco feps) (-1).

(** The first edge between the two vertices, in either order. *)
Fixpoint find_edge_from (es : list (Z * Z)) (e : Z) (v1 v2 : Z) : Z :=
  match es with
  | [] => -1
  | (a, b) :: es' =>
      if ((a =? v1) && (b =? v2)) || ((a =? v2) && (b =? v1)) then e
      else find_edge_from es' (e + 1) v1 v2
  end.

Definition imesh_find_edge (im : IMesh) (v1 v2 : Z) : Z :=
  if (imesh_totvert im <=? v1) || (imesh_totvert im <=? v2) then -1
  else find_edge_from (im_edges im) 0 v1 v2.

Definition imesh_get_edge_verts (im : IMesh) (e : Z) : Z * Z :=
  match at_index (im_edges im) e with
  | Some (a, b) => (a, b)
  | None => (-1, -1)
  end.

Definition imesh_get_edge_cos_db (im : IMesh) (e : Z) : v3 * v3 :=
  match at_index (im_edges im) e with
  | Some (a, b) => (imesh_get_vert_co_db im a, imesh_get_vert_co_db im b)
  | None => (zero_v3_db, zero_v3_db)
  end.

(** The plane of a face in single precision: its normal and minus the dot
    product of the normal with the first vertex of the face. *)
Definition imesh_get_face_plane (im : IMesh) (f : Z) : v4 :=
  match at_index (im_faces im) f with
  | Some bmf =>
      let no := f_no bmf in
      let plane_co := imesh_get_vert_co im (imesh_face_vert im f 0) in
      V4 (x3 no) (y3 no) (z3 no) (SFopp (dot_v3v3 no plane_co))
  | None => zero_v4
  end.

(** ** The change buffer *)

Record NewVert := mkNewVert { nv_co : v3; nv_example : Z }.
Record NewEdge := mkNewEdge { ne_v1 : Z; ne_v2 : Z; ne_example : Z }.
Record NewFace := mkNewFace {
  vert_edge_pairs : list IntPair;
  nf_len : Z;
  nf_example : Z;
  other_examples : option IntSet
}.

(** Modelled from the spec: the edge hash of [BLI_edgehash], which is not
    under src/ ("a hash from unordered endpoint pairs to positions"): the key
    is the pair of the two [uint] endpoints with the lower one first. *)
Definition to_uint (v : Z) : Z := v mod 2 ^ 32.

Definition edge_key (v0 v1 : Z) : Z * Z :=
  if v0 <? v1 then (v0, v1) else (v1, v0).

Definition BLI_edgehash_lookup_default (eh : gmap (Z * Z) Z) (v0 v1 : Z) (default : Z) : Z :=
  match eh !! edge_key v0 v1 with
  | Some val => val
  | None => default
  end.

Definition BLI_edgehash_insert (eh : gmap (Z * Z) Z) (v0 v1 : Z) (val : Z) : gmap (Z * Z) Z :=
  <[edge_key v0 v1 := val]> eh.

Record MeshAdd := mkMeshAdd {
  ma_verts : list NewVert;
  ma_edges : list NewEdge;
  ma_faces : list NewFace;
  edge_hash : gmap (Z * Z) Z;
  vindex_start : Z;
  eindex_start : Z;
  findex_start : Z
}.

Definition meshadd_totvert (meshadd : MeshAdd) : Z := Z.of_nat (length (ma_verts meshadd)).
Definition meshadd_totedge (meshadd : MeshAdd) : Z := Z.of_nat (length (ma_edges meshadd)).
Definition meshadd_totface (meshadd : MeshAdd) : Z := Z.of_nat (length (ma_faces meshadd)).

Definition init_meshadd (im : IMesh) : MeshAdd :=
  {| ma_verts := []; ma_edges := []; ma_faces := []; edge_hash := ∅;
     vindex_start := imesh_totvert im;
     eindex_start := imesh_totedge im;
     findex_start := imesh_totface im |}.

(** The position of the first staged vertex within [eps] of [co], if any. *)
Fixpoint find_dup_vert (vs : list NewVert) (i : Z) (co : v3) (feps : float) : option Z :=
  match vs with
  | [] => None
  | newv :: vs' =>
      if compare_v3v3 (nv_co newv) co feps then Some i
      else find_dup_vert vs' (i + 1) co feps
  end.

Definition meshadd_push_vert (meshadd : MeshAdd) (co : v3) (example : Z) : MeshAdd * Z :=
  ({| ma_verts := ma_verts meshadd ++ [mkNewVert co example];
      ma_edges := ma_edges meshadd; ma_faces := ma_faces meshadd;
      edge_hash := edge_hash meshadd;
      vindex_start := vindex_start meshadd;
      eindex_start := eindex_start meshadd;
      findex_start := findex_start meshadd |},
   vindex_start meshadd + (meshadd_totvert meshadd + 1) - 1).

Definition meshadd_add_vert (eps : double) (meshadd : MeshAdd) (co : v3) (example : Z)
    (checkdup : bool) : MeshAdd * Z :=
  if checkdup then
    match find_dup_vert (ma_verts meshadd) 0 co (fl_of_db eps) with
    | Some i => (meshadd, vindex_start meshadd + i)
    | None => meshadd_push_vert meshadd co example
    end
  else meshadd_push_vert meshadd co example.

Definition meshadd_add_vert_db (eps : double) (meshadd : MeshAdd) (co : v3) (example : Z)
    (checkdup : bool) : MeshAdd * Z :=
  meshadd_add_vert eps meshadd (copy_v3fl_v3db co) example checkdup.

Definition meshadd_push_edge (meshadd : MeshAdd) (v1 v2 example : Z) : MeshAdd * Z :=
  ({| ma_verts := ma_verts meshadd;
      ma_edges := ma_edges meshadd ++ [mkNewEdge v1 v2 example];
      ma_faces := ma_faces meshadd;
      edge_hash := BLI_edgehash_insert (edge_hash meshadd) (to_uint v1) (to_uint v2)
                     (meshadd_totedge meshadd);
      vindex_start := vindex_start meshadd;
      eindex_start := eindex_start meshadd;
      findex_start := findex_start meshadd |},
   eindex_start meshadd + (meshadd_totedge meshadd + 1) - 1).

(** With [checkdup], a hit in the edge hash returns the stored value [i]
    as it is. *)
Definition meshadd_add_edge (meshadd : MeshAdd) (v1 v2 example : Z) (checkdup : bool)
  : MeshAdd * Z :=
  if checkdup then
    let i := BLI_edgehash_lookup_default (edge_hash meshadd) (to_uint v1) (to_uint v2) (-1) in
    if negb (i =? -1) then (meshadd, i)
    else meshadd_push_edge meshadd v1 v2 example
  else meshadd_push_edge meshadd v1 v2 example.

Definition meshadd_add_face (meshadd : MeshAdd) (vert_edge : list IntPair) (len example : Z)
    (other : option IntSet) : MeshAdd * Z :=
  ({| ma_verts := ma_verts meshadd; ma_edges := ma_edges meshadd;
      ma_faces := ma_faces meshadd ++ [mkNewFace vert_edge len example other];
      edge_hash := edge_hash meshadd;
      vindex_start := vindex_start meshadd;
      eindex_start := eindex_start meshadd;
      findex_start := findex_start meshadd |},
   findex_start meshadd + (meshadd_totface meshadd + 1) - 1).

Definition meshadd_get_newedge (meshadd : MeshAdd) (e : Z) : option NewEdge :=
  let i := e - eindex_start meshadd in
  if (0 <=? i) && (i <? meshadd_totedge meshadd) then ma_edges meshadd !! Z.to_nat i else None.

Definition meshadd_get_newvert (meshadd : MeshAdd) (v : Z) : option NewVert :=
  let i := v - vindex_start meshadd in
  if (0 <=? i) && (i <? meshadd_totvert meshadd) then ma_verts meshadd !! Z.to_nat i else None.

Definition find_edge_by_verts_in_meshadd (meshadd : MeshAdd) (v1 v2 : Z) : Z :=
  let i := BLI_edgehash_lookup_default (edge_hash meshadd) (to_uint v1) (to_uint v2) (-1) in
  if negb (i =? -1) then eindex_start meshadd + i else -1.

(** [MeshDelete]: three bitmaps over the original element indices. *)
Record MeshDelete := mkMeshDelete {
  vert_bmap : list bool;
  edge_bmap : list bool;
  face_bmap : list bool
}.

Definition init_meshdelete (im : IMesh) : MeshDelete :=
  {| vert_bmap := replicate (length (im_verts im)) false;
     edge_bmap := replicate (length (im_edges im)) false;
     face_bmap := replicate (length (im_faces im)) false |}.

Definition meshdelete_add_face (meshdelete : MeshDelete) (f : Z) : MeshDelete :=
  {| vert_bmap := vert_bmap meshdelete;
     edge_bmap := edge_bmap meshdelete;
     face_bmap := if f <? 0 then face_bmap meshdelete
                  else <[Z.to_nat f := true]> (face_bmap meshdelete) |}.

Definition meshdelete_find_face (meshdelete : MeshDelete) (f : Z) : bool :=
  match at_index (face_bmap meshdelete) f with
  | Some b => b
  | None => false
  end.

Record MeshChange := mkMeshChange {
  add : MeshAdd;
  delete : MeshDelete;
  vert_merge_map : IntIntMap;
  intersection_edges : IntSet;
  face_flip : IntSet;
  use_face_kill_loose : bool
}.

Definition init_meshchange (im : IMesh) : MeshChange :=
  {| add := init_meshadd im;
     delete := init_meshdelete im;
     vert_merge_map := init_intintmap;
     intersection_edges := init_intset;
     face_flip := init_intset;
     use_face_kill_loose := false |}.

Definition set_add (change : MeshChange) (meshadd : MeshAdd) : MeshChange :=
  {| add := meshadd; delete := delete change; vert_merge_map := vert_merge_map change;
     intersection_edges := intersection_edges change; face_flip := face_flip change;
     use_face_kill_loose := use_face_kill_loose change |}.

Definition set_delete (change : MeshChange) (meshdelete : MeshDelete) : MeshChange :=
  {| add := add change; delete := meshdelete; vert_merge_map := vert_merge_map change;
     intersection_edges := intersection_edges change; face_flip := face_flip change;
     use_face_kill_loose := use_face_kill_loose change |}.

Definition set_intersection_edges (change : MeshChange) (s : IntSet) : MeshChange :=
  {| add := add change; delete := delete change; vert_merge_map := vert_merge_map change;
     intersection_edges := s; face_flip := face_flip change;
     use_face_kill_loose := use_face_kill_loose change |}.

Definition set_face_flip (change : MeshChange) (s : IntSet) : MeshChange :=
  {| add := add change; delete := delete change; vert_merge_map := vert_merge_map change;
     intersection_edges := intersection_edges change; face_flip := s;
     use_face_kill_loose := use_face_kill_loose change |}.

Definition set_use_face_kill_loose (change : MeshChange) (b : bool) : MeshChange :=
  {| add := add change; delete := delete change; vert_merge_map := vert_merge_map change;
     intersection_edges := intersection_edges change; face_flip := face_flip change;
     use_face_kill_loose := b |}.

(** The per-face side flags. *)
Definition SIDE_A : Z := 1.
Definition SIDE_B : Z := 2.
Definition BOTH_SIDES_OPP_NORMALS : Z := 4.

Record BoolState := mkBoolState {
  im : IMesh;
  eps : double;
  face_side : list Z
}.

Definition face_side_at (bs : BoolState) (f : Z) : Z :=
  match at_index (face_side bs) f with
  | Some s => s
  | None => 0
  end.

(** ** Parts and part sets *)

Record MeshPart := mkMeshPart {
  mp_plane : v4;
  mp_bbmin : v3;
  mp_bbmax : v3;
  mp_verts : list Z;
  mp_edges : list Z;
  mp_faces : list Z
}.

Record MeshPartSet := mkMeshPartSet {
  ps_bbmin : v3;
  ps_bbmax : v3;
  meshparts : list MeshPart
}.

Definition init_meshpart : MeshPart :=
  mkMeshPart (V4 d0 d0 d0 d0) zero_v3_db zero_v3_db [] [] [].

Definition init_meshpartset : MeshPartSet := mkMeshPartSet zero_v3_db zero_v3_db [].

Definition add_part_to_partset (partset : MeshPartSet) (part : MeshPart) : MeshPartSet :=
  mkMeshPartSet (ps_bbmin partset) (ps_bbmax partset) (meshparts partset ++ [part]).

Definition add_face_to_part (part : MeshPart) (f : Z) : MeshPart :=
  mkMeshPart (mp_plane part) (mp_bbmin part) (mp_bbmax part)
             (mp_verts part) (mp_edges part) (f :: mp_faces part).

Definition part_totvert (part : MeshPart) : Z := Z.of_nat (length (mp_verts part)).
Definition part_totedge (part : MeshPart) : Z := Z.of_nat (length (mp_edges part)).
Definition part_totface (part : MeshPart) : Z := Z.of_nat (length (mp_faces part)).

Definition bb_update (bb : v3 * v3) (v : Z) (im : IMesh) : v3 * v3 :=
  let vcod := copy_v3db_v3fl (imesh_get_vert_co im v) in
  let '(bbmin, bbmax) := bb in
  (V3 (min_dd (x3 vcod) (x3 bbmin)) (min_dd (y3 vcod) (y3 bbmin)) (min_dd (z3 vcod) (z3 bbmin)),
   V3 (max_dd (x3 vcod) (x3 bbmax)) (max_dd (y3 vcod) (y3 bbmax)) (max_dd (z3 vcod) (z3 bbmax))).

Definition face_vert_list (im : IMesh) (f : Z) : list Z :=
  map (fun j => imesh_face_vert im f (Z.of_nat j)) (seq 0 (Z.to_nat (imesh_facelen im f))).

(** The loose edges of a part are not added to the box (the C code only
    prints a reminder there). *)
Definition calc_part_bb_eps (bs : BoolState) (part : MeshPart) (eps : double) : MeshPart :=
  let bb0 := (V3 DBL_MAX DBL_MAX DBL_MAX, V3 (SFopp DBL_MAX) (SFopp DBL_MAX) (SFopp DBL_MAX)) in
  let bb1 := fold_left (fun bb v => bb_update bb v (im bs)) (mp_verts part) bb0 in
  let bb2 := fold_left (fun bb f =>
                 fold_left (fun bb' v => bb_update bb' v (im bs)) (face_vert_list (im bs) f) bb)
               (mp_faces part) bb1 in
  let '(bbmin, bbmax) := bb2 in
  if SFeqb (x3 bbmin) DBL_MAX then
    mkMeshPart (mp_plane part) zero_v3_db zero_v3_db (mp_verts part) (mp_edges part) (mp_faces part)
  else
    mkMeshPart (mp_plane part)
      (V3 (dsub (x3 bbmin) eps) (dsub (y3 bbmin) eps) (dsub (z3 bbmin) eps))
      (V3 (dadd (x3 bbmax) eps) (dadd (y3 bbmax) eps) (dadd (z3 bbmax) eps))
      (mp_verts part) (mp_edges part) (mp_faces part).

Definition calc_partset_bb_eps (bs : BoolState) (partset : MeshPartSet) (eps : double)
  : MeshPartSet :=
  let parts := map (fun part => calc_part_bb_eps bs part eps) (meshparts partset) in
  let bb := fold_left (fun (bb : v3 * v3) part =>
              (V3 (min_dd (x3 (fst bb)) (x3 (mp_bbmin part)))
                  (min_dd (y3 (fst bb)) (y3 (mp_bbmin part)))
                  (min_dd (z3 (fst bb)) (z3 (mp_bbmin part))),
               V3 (max_dd (x3 (snd bb)) (x3 (mp_bbmax part)))
                  (max_dd (y3 (snd bb)) (y3 (mp_bbmax part)))
                  (max_dd (z3 (snd bb)) (z3 (mp_bbmax part)))))
            parts
            (V3 DBL_MAX DBL_MAX DBL_MAX, V3 (SFopp DBL_MAX) (SFopp DBL_MAX) (SFopp DBL_MAX)) in
  mkMeshPartSet (fst bb) (snd bb) parts.

(** [planes_are_coplanar], on [double] planes. *)
Definition planes_are_coplanar (a_plane b_plane : v4) (eps : double) : bool :=
  let norms_dot := dot_v3v3_db (plane_no a_plane) (plane_no b_plane) in
  if SFltb d0 norms_dot then
    SFleb (SFabs (dsub norms_dot d1)) eps && SFleb (SFabs (dsub (w4 a_plane) (w4 b_plane))) eps
  else
    SFleb (SFabs (dadd norms_dot d1)) eps && SFleb (SFabs (dadd (w4 a_plane) (w4 b_plane))) eps.

(** [canonicalize_plane], on a [float] plane. *)
Definition canonicalize_plane (plane : v4) : v4 :=
  let do_negate :=
    if negb (SFeqb (w4 plane) f0) then SFltb f0 (w4 plane)
    else if negb (SFeqb (z4 plane) f0) then SFltb f0 (z4 plane)
    else if negb (SFeqb (y4 plane) f0) then SFltb f0 (y4 plane)
    else SFltb f0 (x4 plane) in
  if do_negate then V4 (SFopp (x4 plane)) (SFopp (y4 plane)) (SFopp (z4 plane)) (SFopp (w4 plane))
  else plane.

(** Modelled from the spec: the 4-D k-d tree of [BLI_kdtree], not under
    src/ ("4-D k-d tree (range search for plane lookup)"), with the same
    squared-distance test as the 3-D one. *)
Definition len_squared_v4v4 (a b : v4) : float :=
  let dx := fsub (x4 b) (x4 a) in
  let dy := fsub (y4 b) (y4 a) in
  let dz := fsub (z4 b) (z4 a) in
  let dw := fsub (w4 b) (w4 a) in
  fadd (fadd (fadd (fmul dx dx) (fmul dy dy)) (fmul dz dz)) (fmul dw dw).

Definition BLI_kdtree_4d_range_search (tree : list (Z * v4)) (co : v4) (range : float)
  : list (Z * v4) :=
  filter (fun node => SFleb (len_squared_v4v4 (snd node) co) (fmul range range) = true) tree.

(** [face_part]: for each face, the part it was put in, as the position of
    that part in the part set (the C array holds pointers to the parts). *)
Record FindCoplanarCBData := mkCBData {
  near_f_with_part : Z;
  cb_eps : float;
  test_plane : v4;
  face_part : list (option nat)
}.

(** The test [find_coplanar_cb] makes on a candidate plane [co]. *)
Definition find_coplanar_cb_test (cb_eps : float) (test_plane co : v4) : bool :=
  SFleb (SFabs (fsub (w4 test_plane) (w4 co))) cb_eps &&
  SFleb (db_of_fl (SFabs (fsub (dot_v3v3 (plane_no test_plane) (plane_no co)) f1)))
        (dmul (db_of_fl cb_eps) M_2_PI).

Definition has_part (face_part : list (option nat)) (index : Z) : bool :=
  match at_index face_part index with
  | Some (Some _) => true
  | _ => false
  end.

Definition find_coplanar_cb (cb_data : FindCoplanarCBData) (index : Z) (co : v4)
  : FindCoplanarCBData :=
  if has_part (face_part cb_data) index then
    if find_coplanar_cb_test (cb_eps cb_data) (test_plane cb_data) co then
      if (near_f_with_part cb_data =? -1) || (index <? near_f_with_part cb_data) then
        mkCBData index (cb_eps cb_data) (test_plane cb_data) (face_part cb_data)
      else cb_data
    else cb_data
  else cb_data.

Definition on_sides (bs : BoolState) (sides : Z) (f : Z) : bool :=
  negb (Z.land (face_side_at bs f) sides =? 0).

Definition face_indices (im : IMesh) : list Z :=
  map Z.of_nat (seq 0 (length (im_faces im))).

(** The 4-D tree filled by the first loop of [find_coplanar_parts]. *)
Definition coplanar_tree (bs : BoolState) (sides : Z) : list (Z * v4) :=
  map (fun f => (f, canonicalize_plane (imesh_get_face_plane (im bs) f)))
      (filter (fun f => on_sides bs sides f = true) (face_indices (im bs))).

(** The face chosen for [f] by the range search, or -1. *)
Definition find_near_f (bs : BoolState) (sides : Z) (face_part : list (option nat)) (f : Z) : Z :=
  let feps := fl_of_db (eps bs) in
  let plane := canonicalize_plane (imesh_get_face_plane (im bs) f) in
  near_f_with_part
    (fold_left (fun cb node => find_coplanar_cb cb (fst node) (snd node))
       (BLI_kdtree_4d_range_search (coplanar_tree bs sides) plane (fmul feps f10))
       (mkCBData (-1) feps plane face_part)).

(** One round of the second loop of [find_coplanar_parts]. *)
Definition find_coplanar_step (bs : BoolState) (sides : Z)
    (st : MeshPartSet * list (option nat)) (f : Z) : MeshPartSet * list (option nat) :=
  let '(partset, face_part) := st in
  if negb (on_sides bs sides f) then st
  else
    let plane := canonicalize_plane (imesh_get_face_plane (im bs) f) in
    let near_f := find_near_f bs sides face_part f in
    if near_f =? -1 then
      let part := add_face_to_part
                    (mkMeshPart (copy_v4db_v4fl plane) zero_v3_db zero_v3_db [] [] []) f in
      (add_part_to_partset partset part,
       <[Z.to_nat f := Some (length (meshparts partset))]> face_part)
    else
      match at_index face_part near_f with
      | Some (Some p) =>
          (mkMeshPartSet (ps_bbmin partset) (ps_bbmax partset)
             (alter (fun part => add_face_to_part part f) p (meshparts partset)),
           <[Z.to_nat f := Some p]> face_part)
      | _ => st
      end.

Definition find_coplanar_parts (bs : BoolState) (sides : Z) : MeshPartSet :=
  let face_part0 := replicate (length (im_faces (im bs))) None in
  let st := fold_left (find_coplanar_step bs sides) (face_indices (im bs))
                      (init_meshpartset, face_part0) in
  calc_partset_bb_eps bs (fst st) (eps bs).

(** The part-set and the [face_part] table after the faces below [n]. *)
Definition find_coplanar_prefix (bs : BoolState) (sides : Z) (n : nat)
  : MeshPartSet * list (option nat) :=
  fold_left (find_coplanar_step bs sides) (take n (face_indices (im bs)))
            (init_meshpartset, replicate (length (im_faces (im bs))) None).

(** ** External collaborators *)

(** Functions of the host ([BMesh], [BLI_math], libm) that the engine calls
    and that are not under src/.  The simple vector arithmetic is written
    out above; what remains is taken as a parameter. *)
Record Extern := mkExtern {
  closest_to_line_v3_db : v3 -> v3 -> v3 -> v3;
  isect_plane_plane_v3_db : v4 -> v4 -> option (v3 * v3);
  isect_line_line_epsilon_v3_db : v3 -> v3 -> v3 -> v3 -> double -> Z * v3 * v3;
  isect_aabb_aabb_v3_db : v3 -> v3 -> v3 -> v3 -> bool;
  atan2 : double -> double -> double;
  normal_tri_v3 : v3 -> v3 -> v3 -> v3;
  BM_face_calc_point_in_face : IMesh -> Z -> v3;
  BM_face_calc_tessellation : IMesh -> Z -> list (Z * Z * Z);
  BM_mesh_calc_face_groups : IMesh -> list Z -> list Z * list (Z * Z)
}.

(** ** The part-pair intersector *)

Record PartPartIntersect := mkPPI {
  ppi_verts : list Z;
  ppi_edges : list Z;
  ppi_faces : list Z;
  a_index : Z;
  b_index : Z
}.

Definition init_partpartintersect : PartPartIntersect := mkPPI [] [] [] 0 0.

Definition add_vert_to_partpartintersect (ppi : PartPartIntersect) (v : Z) : PartPartIntersect :=
  mkPPI (ppi_verts ppi ++ [v]) (ppi_edges ppi) (ppi_faces ppi) (a_index ppi) (b_index ppi).
Definition add_edge_to_partpartintersect (ppi : PartPartIntersect) (e : Z) : PartPartIntersect :=
  mkPPI (ppi_verts ppi) (ppi_edges ppi ++ [e]) (ppi_faces ppi) (a_index ppi) (b_index ppi).
Definition add_face_to_partpartintersect (ppi : PartPartIntersect) (f : Z) : PartPartIntersect :=
  mkPPI (ppi_verts ppi) (ppi_edges ppi) (ppi_faces ppi ++ [f]) (a_index ppi) (b_index ppi).

(** The indices are stored before the record is cleared, as in the C
    code. *)
Definition coplanar_part_part_intersect (part_a : MeshPart) (a_idx : Z) (part_b : MeshPart)
    (b_idx : Z) : PartPartIntersect :=
  let ppi0 := init_partpartintersect in
  let ppi1 := fold_left add_vert_to_partpartintersect (mp_verts part_a ++ mp_verts part_b) ppi0 in
  let ppi2 := fold_left add_edge_to_partpartintersect (mp_edges part_a ++ mp_edges part_b) ppi1 in
  fold_left add_face_to_partpartintersect (mp_faces part_a ++ mp_faces part_b) ppi2.

Definition line_interp_factor_v3_db (point line_co1 line_co2 : v3) : double :=
  let h := sub_v3_v3v3_db point line_co1 in
  let seg_len_squared := len_squared_v3v3_db line_co2 line_co1 in
  if SFeqb seg_len_squared d0 then d0
  else
    let seg_dir := sub_v3_v3v3_db line_co2 line_co1 in
    ddiv (dot_v3v3_db h seg_dir) seg_len_squared.

Definition plane_point_side_v3_db (plane : v4) (co : v3) : double :=
  dadd (dot_v3v3_db co (plane_no plane)) (w4 plane).

Definition mul_v3db_v3dbdb (a : v3) (f : double) : v3 :=
  V3 (dmul (x3 a) f) (dmul (y3 a) f) (dmul (z3 a) f).

Definition madd_v3_v3v3db_db (a b : v3) (f : double) : v3 :=
  V3 (dadd (x3 a) (dmul (x3 b) f)) (dadd (y3 a) (dmul (y3 b) f)) (dadd (z3 a) (dmul (z3 b) f)).

(** Returns the code (0, 1 or 2) and the contents of [r_isect] afterwards. *)
Definition isect_seg_plane_normalized_epsilon_v3_db (seg_co1 seg_co2 : v3) (plane : v4)
    (epsilon : double) (r_isect : v3) : Z * v3 :=
  let seg_dir := sub_v3_v3v3_db seg_co2 seg_co1 in
  let dot := dot_v3v3_db (plane_no plane) seg_dir in
  if SFeqb dot d0 then
    let side1 := plane_point_side_v3_db plane seg_co1 in
    let side2 := plane_point_side_v3_db plane seg_co2 in
    if SFleb (SFabs side1) epsilon || SFleb (SFabs side2) epsilon then (2, r_isect)
    else (0, r_isect)
  else
    let plane_co := mul_v3db_v3dbdb (plane_no plane) (SFopp (w4 plane)) in
    let h := sub_v3_v3v3_db seg_co1 plane_co in
    let lambda := ddiv (SFopp (dot_v3v3_db (plane_no plane) h)) dot in
    if SFltb lambda (SFopp epsilon) || SFltb (dadd d1 epsilon) lambda then (0, r_isect)
    else if SFltb lambda d0 then (1, seg_co1)
    else if SFltb d1 lambda then (1, seg_co2)
    else (1, madd_v3_v3v3db_db seg_co1 seg_dir lambda).

Record FaceEdgeInfo := mkFEI {
  fi_co : v3;
  fi_isect : v3;
  fi_factor : double;
  fi_v : Z;
  fi_v_on : bool;
  fi_isect_ok : bool
}.

Record IntervalInfo := mkInterval {
  fac0 : double;
  fac1 : double;
  ico0 : v3;
  ico1 : v3
}.

Section Intersect.

Variable X : Extern.

(** First loop of [find_face_line_intersects]: is the face vertex on the
    line? *)
Definition face_vert_info (bs : BoolState) (f : Z) (line_co1 line_co2 : v3) (i : Z)
  : FaceEdgeInfo :=
  let line_dir := sub_v3_v3v3_db line_co2 line_co1 in
  let line_dir_len := len_v3_db line_dir in
  let v := imesh_face_vert (im bs) f i in
  let co := imesh_get_vert_co_db (im bs) v in
  let co_close := closest_to_line_v3_db X co line_co1 line_co2 in
  let v_on := compare_v3v3_db co co_close (eps bs) in
  if v_on then
    let line_co1_to_co := sub_v3_v3v3_db co_close line_co1 in
    let factor := ddiv (len_v3_db line_co1_to_co) line_dir_len in
    mkFEI co co_close
          (if SFltb (dot_v3v3_db line_co1_to_co line_dir) d0 then SFopp factor else factor)
          v true true
  else mkFEI co zero_v3_db d0 v false false.

(** Second loop: the edge starting at vertex [i] against the other
    part's plane. *)
Definition face_edge_info (bs : BoolState) (other_plane : v4) (line_co1 line_co2 : v3)
    (fi finext : FaceEdgeInfo) : FaceEdgeInfo :=
  if fi_isect_ok fi then fi
  else
    let '(v1, v2) := if fi_v finext <? fi_v fi then (fi_v finext, fi_v fi)
                     else (fi_v fi, fi_v finext) in
    let seg_co1 := imesh_get_vert_co_db (im bs) v1 in
    let seg_co2 := imesh_get_vert_co_db (im bs) v2 in
    let '(isv, isect) :=
      isect_seg_plane_normalized_epsilon_v3_db seg_co1 seg_co2 other_plane (eps bs)
                                               (fi_isect fi) in
    if 0 <? isv then
      mkFEI (fi_co fi) isect
            (line_interp_factor_v3_db (if isv =? 1 then isect else fi_co fi) line_co1 line_co2)
            (fi_v fi) (fi_v_on fi)
            (negb (fi_v_on finext && negb (isv =? 2)))
    else mkFEI (fi_co fi) isect (fi_factor fi) (fi_v fi) (fi_v_on fi) (fi_isect_ok fi).

Definition find_face_line_intersects (bs : BoolState) (f : Z) (other_plane : v4)
    (line_co1 line_co2 : v3) : list IntervalInfo :=
  let flen := Z.to_nat (imesh_facelen (im bs) f) in
  let finfo0 := map (fun i => face_vert_info bs f line_co1 line_co2 (Z.of_nat i)) (seq 0 flen) in
  let dflt := mkFEI zero_v3_db zero_v3_db d0 (-1) false false in
  let finfo :=
    imap (fun i fi =>
            face_edge_info bs other_plane line_co1 line_co2 fi
                           (nth ((i + 1) mod flen)%nat finfo0 dflt)) finfo0 in
  let hits := filter (fun fi => fi_isect_ok fi = true) finfo in
  match hits with
  | [] => []
  | s :: _ =>
      let e := List.last hits s in
      let '(lo, hi) := if SFleb (fi_factor s) (fi_factor e) then (s, e) else (e, s) in
      if SFleb (dsub (fi_factor hi) (fi_factor lo)) (eps bs) then
        [mkInterval (fi_factor lo) (fi_factor lo) (fi_isect lo) (fi_isect lo)]
      else
        [mkInterval (fi_factor lo) (fi_factor hi) (fi_isect lo) (fi_isect hi)]
  end.

(** The loose vertices of the two parts: every vertex is read into the
    local [co]; those within [eps] of the line go to the record. *)
Definition loose_vert_step (bs : BoolState) (line_co1 line_co2 : v3)
    (st : PartPartIntersect * v3) (v : Z) : PartPartIntersect * v3 :=
  let co := imesh_get_vert_co_db (im bs) v in
  let co_close := closest_to_line_v3_db X co line_co1 line_co2 in
  if compare_v3v3_db co co_close (eps bs) then (add_vert_to_partpartintersect (fst st) v, co)
  else (fst st, co).

(** A loose edge.  [co] is the local of that name, which this loop only
    reads. *)
Definition loose_edge_step (bs : BoolState) (line_co1 line_co2 : v3) (co : v3)
    (st : PartPartIntersect * MeshAdd) (e : Z) : PartPartIntersect * MeshAdd :=
  let '(ppi, meshadd) := st in
  let '(co1, co2) := imesh_get_edge_cos_db (im bs) e in
  let co_close1 := closest_to_line_v3_db X co1 line_co1 line_co2 in
  let co_close2 := closest_to_line_v3_db X co2 line_co1 line_co2 in
  let on1 := compare_v3v3_db co1 co_close1 (eps bs) in
  let on2 := compare_v3v3_db co2 co_close2 (eps bs) in
  if on1 || on2 then
    if on1 && on2 then (add_edge_to_partpartintersect ppi e, meshadd)
    else
      let '(v1, v2) := imesh_get_edge_verts (im bs) e in
      (add_vert_to_partpartintersect ppi (if on1 then v1 else v2), meshadd)
  else
    let '(isv, co_close1, co_close2) :=
      isect_line_line_epsilon_v3_db X line_co1 line_co2 co1 co2 (eps bs) in
    if 0 <? isv then
      if (isv =? 1) || compare_v3v3_db co_close1 co_close2 (eps bs) then
        let elen_squared := dadd (len_squared_v3v3_db co1 co2) (dmul (eps bs) (eps bs)) in
        if SFleb (len_squared_v3v3_db co_close1 co1) elen_squared &&
           SFleb (len_squared_v3v3_db co_close1 co2) elen_squared then
          let v := imesh_find_co_db (im bs) co_close1 (eps bs) in
          if v =? -1 then
            let '(meshadd', v') := meshadd_add_vert_db (eps bs) meshadd co (-1) true in
            (add_vert_to_partpartintersect ppi v', meshadd')
          else (add_vert_to_partpartintersect ppi v, meshadd)
        else st
      else st
    else st.

(** Snap [co] to the lowest mesh vertex within [eps], or stage it. *)
Definition find_or_add_vert (bs : BoolState) (meshadd : MeshAdd) (co : v3) : MeshAdd * Z :=
  let v := imesh_find_co_db (im bs) co (eps bs) in
  if v =? -1 then meshadd_add_vert_db (eps bs) meshadd co (-1) true
  else (meshadd, v).

(** The "common special case": one interval of an A face against one
    interval of a B face. *)
Definition intersect_single_intervals (bs : BoolState) (iinfoa iinfob : IntervalInfo)
    (st : PartPartIntersect * MeshChange) : PartPartIntersect * MeshChange :=
  let '(ppi, change) := st in
  let faca1 := fac0 iinfoa in
  let faca2 := fac1 iinfoa in
  let facb1 := fac0 iinfob in
  let facb2 := fac1 iinfob in
  let facstart := max_dd faca1 facb1 in
  let facend := min_dd faca2 facb2 in
  if SFltb facend (dsub facstart (eps bs)) then st
  else
    let co := if SFeqb facstart faca1 then ico0 iinfoa else ico0 iinfob in
    let co2 := if SFeqb facend faca2 then ico1 iinfoa else ico1 iinfob in
    if compare_v3v3_db co co2 (eps bs) then
      let '(meshadd1, v) := find_or_add_vert bs (add change) co in
      (add_vert_to_partpartintersect ppi v, set_add change meshadd1)
    else
      let '(meshadd1, v1) := find_or_add_vert bs (add change) co in
      let '(meshadd2, v2) := find_or_add_vert bs meshadd1 co2 in
      if v1 =? v2 then (add_vert_to_partpartintersect ppi v1, set_add change meshadd2)
      else
        let e := imesh_find_edge (im bs) v1 v2 in
        let '(meshadd3, e') :=
          if e =? -1 then meshadd_add_edge meshadd2 v1 v2 (-1) true else (meshadd2, e) in
        (add_edge_to_partpartintersect ppi e',
         set_intersection_edges (set_add change meshadd3)
                                (add_to_intset (intersection_edges change) e')).

(** One face pair: both interval lists non-empty; lists with more than one
    interval are not handled (the C code prints a reminder). *)
Definition intersect_face_pair (bs : BoolState) (lna lnb : list IntervalInfo)
    (st : PartPartIntersect * MeshChange) : PartPartIntersect * MeshChange :=
  match lna, lnb with
  | [], _ => st
  | _, [] => st
  | [iinfoa], [iinfob] => intersect_single_intervals bs iinfoa iinfob st
  | _, _ => st
  end.

(** [co_init] is the content of the uninitialised local [co] on entry. *)
Definition non_coplanar_part_part_intersect (bs : BoolState) (co_init : v3)
    (part_a : MeshPart) (a_idx : Z) (part_b : MeshPart) (b_idx : Z) (change : MeshChange)
  : option PartPartIntersect * MeshChange :=
  match isect_plane_plane_v3_db X (mp_plane part_a) (mp_plane part_b) with
  | None => (None, change)
  | Some (line_co1, line_dir) =>
      let line_co2 := add_v3_v3v3_db line_co1 line_dir in
      let ppi0 := mkPPI [] [] [] a_idx b_idx in
      let '(ppi1, co) :=
        fold_left (loose_vert_step bs line_co1 line_co2)
                  (mp_verts part_a ++ mp_verts part_b) (ppi0, co_init) in
      let '(ppi2, meshadd) :=
        fold_left (loose_edge_step bs line_co1 line_co2 co)
                  (mp_edges part_a ++ mp_edges part_b) (ppi1, add change) in
      let intervals_a :=
        map (fun f => find_face_line_intersects bs f (mp_plane part_b) line_co1 line_co2)
            (mp_faces part_a) in
      let intervals_b :=
        map (fun f => find_face_line_intersects bs f (mp_plane part_a) line_co1 line_co2)
            (mp_faces part_b) in
      let '(ppi3, change') :=
        fold_left (fun st lna =>
                     fold_left (fun st' lnb => intersect_face_pair bs lna lnb st')
                               intervals_b st)
                  intervals_a (ppi2, set_add change meshadd) in
      (Some ppi3, change')
  end.

Definition parts_may_intersect (part1 part2 : MeshPart) : bool :=
  isect_aabb_aabb_v3_db X (mp_bbmin part1) (mp_bbmax part1) (mp_bbmin part2) (mp_bbmax part2).

Definition part_part_intersect (bs : BoolState) (co_init : v3) (part_a : MeshPart) (a_idx : Z)
    (part_b : MeshPart) (b_idx : Z) (change : MeshChange)
  : option PartPartIntersect * MeshChange :=
  if negb (parts_may_intersect part_a part_b) then (None, change)
  else if planes_are_coplanar (mp_plane part_a) (mp_plane part_b) (eps bs) then
    (Some (coplanar_part_part_intersect part_a a_idx part_b b_idx), change)
  else non_coplanar_part_part_intersect bs co_init part_a a_idx part_b b_idx change.

End Intersect.

(** ** Intersecting two part sets *)

Record BVHTreeOverlap := mkOverlap { indexA : Z; indexB : Z }.

(** Lexicographic comparison of two overlaps. *)
Definition bool_overlap_sort_fn (o1 o2 : BVHTreeOverlap) : Z :=
  if indexA o1 <? indexA o2 then -1
  else if indexA o2 <? indexA o1 then 1
  else if indexB o1 <? indexB o2 then -1
  else if indexB o2 <? indexB o1 then 1
  else 0.

(** What the loop over the overlaps carries: the intersection lists per A
    part and per B part, the bitmap of B parts coplanar with an A part, and
    the change. *)
Record PairState := mkPairState {
  a_isects : list (list PartPartIntersect);
  b_isects : list (list PartPartIntersect);
  bpart_coplanar_with_apart : list bool;
  pair_change : MeshChange
}.

Definition append_isect (isects : list (list PartPartIntersect)) (i : Z)
    (isect : PartPartIntersect) : list (list PartPartIntersect) :=
  if i <? 0 then isects else alter (fun l => l ++ [isect]) (Z.to_nat i) isects.

Section PartSetPair.

Variable X : Extern.

(** libc's [qsort] with a comparison function. *)
Variable qsort : (BVHTreeOverlap -> BVHTreeOverlap -> Z) -> list BVHTreeOverlap ->
                 list BVHTreeOverlap.

(** [self_intersect_part_and_ppis]: retessellates a part through the
    external CDT; here, what it does to the change. *)
Variable self_intersect_part_and_ppis :
  BoolState -> MeshPart -> list PartPartIntersect -> MeshChange -> MeshChange.

(** The content of the uninitialised local [co] of
    [non_coplanar_part_part_intersect] in the call for a part pair. *)
Variable co_init : Z -> Z -> v3.

Definition overlap_step (bs : BoolState) (a_partset b_partset : MeshPartSet)
    (same_partsets : bool) (st : PairState) (o : BVHTreeOverlap) : PairState :=
  let a_idx := indexA o in
  let b_idx := indexB o in
  match at_index (meshparts a_partset) a_idx, at_index (meshparts b_partset) b_idx with
  | Some part_a, Some part_b =>
      if same_partsets && (b_idx <=? a_idx) then st
      else
        let bmap :=
          if negb same_partsets &&
             planes_are_coplanar (mp_plane part_a) (mp_plane part_b) (eps bs)
          then <[Z.to_nat b_idx := true]> (bpart_coplanar_with_apart st)
          else bpart_coplanar_with_apart st in
        let '(isect, change) :=
          part_part_intersect X bs (co_init a_idx b_idx) part_a a_idx part_b b_idx
                              (pair_change st) in
        match isect with
        | Some ppi =>
            let a1 := append_isect (a_isects st) a_idx ppi in
            let b1 := append_isect (b_isects st) b_idx ppi in
            if same_partsets then
              mkPairState (append_isect a1 b_idx ppi) (append_isect b1 a_idx ppi) bmap change
            else mkPairState a1 b1 bmap change
        | None => mkPairState (a_isects st) (b_isects st) bmap change
        end
  | _, _ => st
  end.

(** [overlap] is what [BLI_bvhtree_overlap] returned for the two trees; the
    empty list is its [NULL] result, which skips the sort and the loop. *)
Definition intersect_partset_pair (bs : BoolState) (a_partset b_partset : MeshPartSet)
    (same_partsets : bool) (overlap : list BVHTreeOverlap) (meshchange : MeshChange)
  : MeshChange :=
  let st0 := mkPairState (replicate (length (meshparts a_partset)) [])
                         (replicate (length (meshparts b_partset)) [])
                         (replicate (length (meshparts b_partset)) false)
                         meshchange in
  let sorted := match overlap with
                | [] => []
                | _ => qsort bool_overlap_sort_fn overlap
                end in
  let st := fold_left (overlap_step bs a_partset b_partset same_partsets) sorted st0 in
  let change_a :=
    fold_left (fun change '(part_a, ppis) => self_intersect_part_and_ppis bs part_a ppis change)
              (zip (meshparts a_partset) (a_isects st)) (pair_change st) in
  if same_partsets then change_a
  else
    fold_left (fun change '(part_b, ppis, coplanar) =>
                 if (coplanar : bool) then change
                 else self_intersect_part_and_ppis bs part_b ppis change)
              (zip (zip (meshparts b_partset) (b_isects st)) (bpart_coplanar_with_apart st))
              change_a.

End PartSetPair.

(** ** The winding classifier and the boolean operator *)

Inductive boolean_op :=
| BMESH_BOOLEAN_ISECT
| BMESH_BOOLEAN_UNION
| BMESH_BOOLEAN_DIFFERENCE.

Definition c_bool (z : Z) : bool := negb (z =? 0).

Section Boolean.

Variable X : Extern.

(** [imesh_face_calc_tesselation]: the host tessellation, with the winding
    of every triangle reversed when, for a face of more than four sides,
    the first triangle faces away from the face normal. *)
Definition imesh_face_calc_tesselation (im : IMesh) (f : Z) : list (Z * Z * Z) :=
  let r_index := BM_face_calc_tessellation X im f in
  match at_index (im_faces im) f, r_index with
  | Some bmf, (i0, i1, i2) :: _ =>
      if 4 <? Z.of_nat (length (f_verts bmf)) then
        let co_at i := imesh_get_vert_co im (imesh_face_vert im f i) in
        let tri0_no := normal_tri_v3 X (co_at i0) (co_at i1) (co_at i2) in
        if SFltb (dot_v3v3 tri0_no (f_no bmf)) f0 then
          map (fun '(a, b, c) => (a, c, b)) r_index
        else r_index
      else r_index
  | _, _ => r_index
  end.

(** The flag test of the winding sum, as written in the C code. *)
Definition gwn_negate (fside : Z) : bool := c_bool (Z.lor fside BOTH_SIDES_OPP_NORMALS).

(** The signed solid angle of one tessellation triangle seen from [co],
    as it is added to the sum. *)
Definition gwn_triangle (im : IMesh) (f : Z) (negate : bool) (co : v3) (tri : Z * Z * Z)
  : double :=
  let '(i0, i1, i2) := tri in
  let p1 := imesh_get_vert_co_db im (imesh_face_vert im f i0) in
  let p2 := imesh_get_vert_co_db im (imesh_face_vert im f i1) in
  let p3 := imesh_get_vert_co_db im (imesh_face_vert im f i2) in
  let a := sub_v3_v3v3_db p1 co in
  let b := sub_v3_v3v3_db p2 co in
  let c := sub_v3_v3v3_db p3 co in
  let alen := len_v3_db a in
  let blen := len_v3_db b in
  let clen := len_v3_db c in
  let bxc := cross_v3_v3v3_db b c in
  let num := dot_v3v3_db a bxc in
  let denom := dadd (dadd (dadd (dmul (dmul alen blen) clen) (dmul (dot_v3v3_db a b) clen))
                          (dmul (dot_v3v3_db a c) blen))
                    (dmul (dot_v3v3_db b c) alen) in
  let denom := if SFeqb denom d0 then d10e_10 else denom in
  let x := atan2 X num denom in
  let fgwn := dmul d2 x in
  if negate then SFopp fgwn else fgwn.

Definition gwn_face (bs : BoolState) (side : Z) (co : v3) (gwn : double) (f : Z) : double :=
  let fside := face_side_at bs f in
  if negb (c_bool (Z.land fside side)) then gwn
  else
    let negate := gwn_negate fside in
    let flen := imesh_facelen (im bs) f in
    let tottri := flen - 2 in
    let index := imesh_face_calc_tesselation (im bs) f in
    fold_left (fun g tri => dadd g (gwn_triangle (im bs) f negate co tri))
              (take (Z.to_nat tottri) index) gwn.

Definition generalized_winding_number (bs : BoolState) (side : Z) (co : v3) : double :=
  let gwn := fold_left (gwn_face bs side co) (face_indices (im bs)) d0 in
  ddiv gwn (dmul M_PI d4).

Definition point_is_inside_side (bs : BoolState) (side : Z) (co : v3) : bool :=
  SFleb dhalf (SFabs (generalized_winding_number bs side co)).

Definition imesh_calc_point_in_face (im : IMesh) (f : Z) : v3 :=
  copy_v3db_v3fl (BM_face_calc_point_in_face X im f).

(** What [do_boolean_op] decides for the group whose first face is [f]:
    [None] when the group is skipped, else [(do_remove, do_flip)]. *)
Definition group_remove_flip (bs : BoolState) (boolean_mode : boolean_op) (f : Z)
  : option (bool * bool) :=
  let fside := face_side_at bs f in
  let both_sides := c_bool (Z.land fside (Z.land SIDE_A SIDE_B)) in
  let opp_normals := c_bool (Z.land fside BOTH_SIDES_OPP_NORMALS) in
  if fside =? 0 then None
  else
    let otherside := Z.lxor fside (Z.lor SIDE_A SIDE_B) in
    if both_sides then
      Some (match boolean_mode with BMESH_BOOLEAN_UNION => opp_normals | _ => false end,
            match boolean_mode with
            | BMESH_BOOLEAN_DIFFERENCE => opp_normals && c_bool (Z.lor fside SIDE_A)
            | _ => false
            end)
    else
      let co := imesh_calc_point_in_face (im bs) f in
      let inside := point_is_inside_side bs otherside co in
      Some (match boolean_mode with
            | BMESH_BOOLEAN_ISECT => (negb inside, false)
            | BMESH_BOOLEAN_UNION => (inside, false)
            | BMESH_BOOLEAN_DIFFERENCE =>
                (if c_bool (Z.land fside SIDE_A) then inside else negb inside,
                 c_bool (Z.land fside SIDE_B))
            end).

(** The faces [groups_array[fg .. fg_end)] of a group. *)
Definition group_faces (groups_array : list Z) (grp : Z * Z) : list Z :=
  take (Z.to_nat (snd grp)) (drop (Z.to_nat (fst grp)) groups_array).

Definition do_boolean_group (bs : BoolState) (boolean_mode : boolean_op)
    (groups_array : list Z) (meshchange : MeshChange) (grp : Z * Z) : MeshChange :=
  match at_index groups_array (fst grp) with
  | None => meshchange
  | Some f =>
      match group_remove_flip bs boolean_mode f with
      | None => meshchange
      | Some (do_remove, do_flip) =>
          if do_remove || do_flip then
            fold_left (fun change f' =>
                         if do_remove then
                           set_delete change (meshdelete_add_face (delete change) f')
                         else if do_flip then
                           set_face_flip change (add_to_intset (face_flip change) f')
                         else change)
                      (group_faces groups_array grp) meshchange
          else meshchange
      end
  end.

(** The change staged by [do_boolean_op], before it is applied. *)
Definition do_boolean_op_change (bs : BoolState) (boolean_mode : boolean_op) : MeshChange :=
  let meshchange := set_use_face_kill_loose (init_meshchange (im bs)) true in
  let '(groups_array, group_index) := BM_mesh_calc_face_groups X (im bs) (face_side bs) in
  fold_left (do_boolean_group bs boolean_mode groups_array) group_index meshchange.

(** [apply_meshchange_to_imesh]: commits a change to the host mesh and
    rebuilds the side table. *)
Variable apply_meshchange_to_imesh : BoolState -> MeshChange -> BoolState.

Definition do_boolean_op (bs : BoolState) (boolean_mode : boolean_op) : BoolState :=
  apply_meshchange_to_imesh bs (do_boolean_op_change bs boolean_mode).

Variable qsort : (BVHTreeOverlap -> BVHTreeOverlap -> Z) -> list BVHTreeOverlap ->
                 list BVHTreeOverlap.
Variable self_intersect_part_and_ppis :
  BoolState -> MeshPart -> list PartPartIntersect -> MeshChange -> MeshChange.
Variable co_init : Z -> Z -> v3.

(** [BLI_bvhtree_overlap] on the trees of the boxes of two part sets. *)
Variable BLI_bvhtree_overlap : MeshPartSet -> MeshPartSet -> list BVHTreeOverlap.

(** The side table filled at entry. *)
Definition initial_face_side (bm : IMesh) (test_fn : Z -> Z) (use_self : bool) : list Z :=
  map (fun f =>
         if use_self then Z.lor SIDE_A SIDE_B
         else
           let test_val := test_fn f in
           if negb (test_val =? -1) then (if test_val =? 0 then SIDE_A else SIDE_B) else 0)
      (face_indices bm).

(** The change staged by the intersection phase. *)
Definition BM_mesh_boolean_isect_change (bs : BoolState) (use_self : bool) : MeshChange :=
  let meshchange := init_meshchange (im bs) in
  if use_self then
    let all_parts := find_coplanar_parts bs (Z.lor SIDE_A SIDE_B) in
    intersect_partset_pair X qsort self_intersect_part_and_ppis co_init bs all_parts all_parts
                           true (BLI_bvhtree_overlap all_parts all_parts) meshchange
  else
    let a_parts := find_coplanar_parts bs SIDE_A in
    let b_parts := find_coplanar_parts bs SIDE_B in
    intersect_partset_pair X qsort self_intersect_part_and_ppis co_init bs a_parts b_parts
                           false (BLI_bvhtree_overlap a_parts b_parts) meshchange.

(** [boolean_mode = None] is the C value -1 (no boolean).  The result is
    the host state afterwards and the returned flag. *)
Definition BM_mesh_boolean (bm : IMesh) (test_fn : Z -> Z) (use_self : bool)
    (boolean_mode : option boolean_op) (eps : float) : BoolState * bool :=
  let bs := mkBoolState bm (db_of_fl eps) (initial_face_side bm test_fn use_self) in
  let bs1 := apply_meshchange_to_imesh bs (BM_mesh_boolean_isect_change bs use_self) in
  let bs2 := match boolean_mode with
             | Some mode => do_boolean_op bs1 mode
             | None => bs1
             end in
  (bs2, true).

End Boolean.

(** ** Further containers *)

(** [set_intintmap_entry]: the value of the first pair with the key is
    overwritten in place; without such a pair a new one is appended. *)
Fixpoint set_first_entry (map : IntIntMap) (key value : Z) : option IntIntMap :=
  match map with
  | [] => None
  | keyval :: next =>
      if first keyval =? key then Some (mkIntPair (first keyval) value :: next)
      else match set_first_entry next key value with
           | Some next' => Some (keyval :: next')
           | None => None
           end
  end.

Definition set_intintmap_entry (map : IntIntMap) (key value : Z) : IntIntMap :=
  match set_first_entry map key value with
  | Some map' => map'
  | None => add_to_intintmap map key value
  end.

(** [BLI_linklist_index], of the list library that is not under src/: the
    position of the first node whose link is the given pointer, or -1. *)
Fixpoint BLI_linklist_index_from (ln : list Z) (i : Z) (ptr : Z) : Z :=
  match ln with
  | [] => -1
  | link :: next => if link =? ptr then i else BLI_linklist_index_from next (i + 1) ptr
  end.

Definition BLI_linklist_index (ln : list Z) (ptr : Z) : Z :=
  BLI_linklist_index_from ln 0 ptr.

(** [IndexedIntSet]: a list of ints appended at the end, with its length
    kept in [size]. *)
Record IndexedIntSet := mkIndexedIntSet { iis_list : list Z; iis_size : Z }.

Definition init_indexedintset : IndexedIntSet := mkIndexedIntSet [] 0.

Definition add_int_to_indexedintset (intset : IndexedIntSet) (value : Z)
  : IndexedIntSet * Z :=
  let index := BLI_linklist_index (iis_list intset) value in
  if index =? -1 then
    (mkIndexedIntSet (iis_list intset ++ [value]) (iis_size intset + 1), iis_size intset)
  else (intset, index).

Definition find_in_indexedintset (intset : IndexedIntSet) (value : Z) : bool :=
  find_in_intset (iis_list intset) value.

(** The C code asserts that the list has a node at [index]; a missing node
    reads as -1 here. *)
Definition indexedintset_get_value_by_index (intset : IndexedIntSet) (index : Z) : Z :=
  if (index <? 0) || (iis_size intset <=? index) then -1
  else match iis_list intset !! Z.to_nat index with
       | Some link => link
       | None => -1
       end.

Definition indexedintset_get_index_for_value (intset : IndexedIntSet) (value : Z) : Z :=
  BLI_linklist_index (iis_list intset) value.

(** [min_int_in_array]: the running minimum starts at [INT_MAX]. *)
Definition INT_MAX : Z := 2147483647.

Definition min_int_in_array (array : list Z) (len : Z) : Z :=
  fold_left Z.min (take (Z.to_nat len) array) INT_MAX.

(** [linklist_shallow_copy_arena]: every link appended to a new list. *)
Definition linklist_shallow_copy_arena (ln : list Z) : list Z :=
  fold_left (fun listhead link => listhead ++ [link]) ln [].

(** ** Further accessors of the change buffer *)

Definition meshadd_get_newface (meshadd : MeshAdd) (f : Z) : option NewFace :=
  let i := f - findex_start meshadd in
  if (0 <=? i) && (i <? meshadd_totface meshadd) then ma_faces meshadd !! Z.to_nat i else None.

Definition meshadd_facelen (meshadd : MeshAdd) (f : Z) : Z :=
  match meshadd_get_newface meshadd f with
  | Some nf => nf_len nf
  | None => 0
  end.

(** [meshadd_get_face_no] writes into the caller's [r_no]; the test
    [if (nf->example)] is on the example index itself, and where it fails
    the C code prints a message and, in a debug build, stops at an
    assertion.  [im] is the mesh the buffer was made for.  The result is
    the content of [r_no] after the call, [None] when the example index has
    no face in the mesh. *)
Definition meshadd_get_face_no (im : IMesh) (meshadd : MeshAdd) (f : Z) (r_no : v3)
  : option v3 :=
  match meshadd_get_newface meshadd f with
  | Some nf =>
      if c_bool (nf_example nf) then imesh_get_face_no im (nf_example nf) else Some r_no
  | None => Some r_no
  end.

(** A pair array shorter than [len] reads as -1 beyond its end. *)
Definition meshadd_face_vert (meshadd : MeshAdd) (f : Z) (index : Z) : Z :=
  match meshadd_get_newface meshadd f with
  | Some nf =>
      if (0 <=? index) && (index <? nf_len nf) then
        match vert_edge_pairs nf !! Z.to_nat index with
        | Some keyval => first keyval
        | None => -1
        end
      else -1
  | None => -1
  end.

Definition meshadd_get_vert_co (meshadd : MeshAdd) (v : Z) : v3 :=
  match meshadd_get_newvert meshadd v with
  | Some nv => nv_co nv
  | None => zero_v3
  end.

Definition meshadd_get_vert_co_db (meshadd : MeshAdd) (v : Z) : v3 :=
  copy_v3db_v3fl (meshadd_get_vert_co meshadd v).

Definition meshadd_get_edge_verts (meshadd : MeshAdd) (e : Z) : Z * Z :=
  match meshadd_get_newedge meshadd e with
  | Some ne => (ne_v1 ne, ne_v2 ne)
  | None => (-1, -1)
  end.

(** The remaining operations of [MeshDelete]: setting, clearing and
    testing a bit of a bitmap.  The C code asserts that the index is within
    the bitmap. *)
Definition set_bit (bmap : list bool) (i : Z) (b : bool) : list bool :=
  if i <? 0 then bmap else <[Z.to_nat i := b]> bmap.

Definition test_bit (bmap : list bool) (i : Z) : bool :=
  match at_index bmap i with
  | Some b => b
  | None => false
  end.

Definition meshdelete_add_vert (meshdelete : MeshDelete) (v : Z) : MeshDelete :=
  {| vert_bmap := set_bit (vert_bmap meshdelete) v true;
     edge_bmap := edge_bmap meshdelete;
     face_bmap := face_bmap meshdelete |}.

Definition meshdelete_add_edge (meshdelete : MeshDelete) (e : Z) : MeshDelete :=
  {| vert_bmap := vert_bmap meshdelete;
     edge_bmap := set_bit (edge_bmap meshdelete) e true;
     face_bmap := face_bmap meshdelete |}.

Definition meshdelete_remove_vert (meshdelete : MeshDelete) (v : Z) : MeshDelete :=
  {| vert_bmap := set_bit (vert_bmap meshdelete) v false;
     edge_bmap := edge_bmap meshdelete;
     face_bmap := face_bmap meshdelete |}.

Definition meshdelete_remove_edge (meshdelete : MeshDelete) (e : Z) : MeshDelete :=
  {| vert_bmap := vert_bmap meshdelete;
     edge_bmap := set_bit (edge_bmap meshdelete) e false;
     face_bmap := face_bmap meshdelete |}.

Definition meshdelete_remove_face (meshdelete : MeshDelete) (f : Z) : MeshDelete :=
  {| vert_bmap := vert_bmap meshdelete;
     edge_bmap := edge_bmap meshdelete;
     face_bmap := set_bit (face_bmap meshdelete) f false |}.

Definition meshdelete_find_vert (meshdelete : MeshDelete) (v : Z) : bool :=
  test_bit (vert_bmap meshdelete) v.

Definition meshdelete_find_edge (meshdelete : MeshDelete) (e : Z) : bool :=
  test_bit (edge_bmap meshdelete) e.

(** ** The mesh with its additions, [IMeshPlus] *)

Record IMeshPlus := mkIMeshPlus { imp_im : IMesh; imp_meshadd : MeshAdd }.

Definition init_imeshplus (im : IMesh) (meshadd : MeshAdd) : IMeshPlus := mkIMeshPlus im meshadd.

Definition imeshplus_facelen (imp : IMeshPlus) (f : Z) : Z :=
  if f <? imesh_totface (imp_im imp) then imesh_facelen (imp_im imp) f
  else meshadd_facelen (imp_meshadd imp) f.

Definition imeshplus_get_face_no (imp : IMeshPlus) (f : Z) (r_no : v3) : option v3 :=
  if f <? imesh_totface (imp_im imp) then imesh_get_face_no (imp_im imp) f
  else meshadd_get_face_no (imp_im imp) (imp_meshadd imp) f r_no.

Definition imeshplus_face_vert (imp : IMeshPlus) (f : Z) (index : Z) : Z :=
  if f <? imesh_totface (imp_im imp) then imesh_face_vert (imp_im imp) f index
  else meshadd_face_vert (imp_meshadd imp) f index.

Definition imeshplus_get_vert_co (imp : IMeshPlus) (v : Z) : v3 :=
  if v <? imesh_totvert (imp_im imp) then imesh_get_vert_co (imp_im imp) v
  else meshadd_get_vert_co (imp_meshadd imp) v.

Definition imeshplus_get_vert_co_db (imp : IMeshPlus) (v : Z) : v3 :=
  if v <? imesh_totvert (imp_im imp) then imesh_get_vert_co_db (imp_im imp) v
  else meshadd_get_vert_co_db (imp_meshadd imp) v.

Definition imeshplus_get_edge_verts (imp : IMeshPlus) (e : Z) : Z * Z :=
  if e <? imesh_totedge (imp_im imp) then imesh_get_edge_verts (imp_im imp) e
  else meshadd_get_edge_verts (imp_meshadd imp) e.

(** ** Further operations on parts *)

Definition part_face (part : MeshPart) (index : Z) : Z :=
  match at_index (mp_faces part) index with
  | Some f => f
  | None => -1
  end.

Definition part_vert (part : MeshPart) (index : Z) : Z :=
  match at_index (mp_verts part) index with
  | Some v => v
  | None => -1
  end.

Definition part_edge (part : MeshPart) (index : Z) : Z :=
  match at_index (mp_edges part) index with
  | Some e => e
  | None => -1
  end.

Definition add_vert_to_part (part : MeshPart) (v : Z) : MeshPart :=
  mkMeshPart (mp_plane part) (mp_bbmin part) (mp_bbmax part)
             (v :: mp_verts part) (mp_edges part) (mp_faces part).

(** The C code prepends the edge to [part->verts]. *)
Definition add_edge_to_part (part : MeshPart) (e : Z) : MeshPart :=
  mkMeshPart (mp_plane part) (mp_bbmin part) (mp_bbmax part)
             (e :: mp_verts part) (mp_edges part) (mp_faces part).

Definition copy_part (part : MeshPart) : MeshPart :=
  mkMeshPart (mp_plane part) (mp_bbmin part) (mp_bbmax part)
             (linklist_shallow_copy_arena (mp_verts part))
             (linklist_shallow_copy_arena (mp_edges part))
             (linklist_shallow_copy_arena (mp_faces part)).

Definition part_is_one_im_face (bs : BoolState) (part : MeshPart) : Z :=
  match mp_verts part, mp_edges part, mp_faces part with
  | [], [], [f] => imesh_facelen (im bs) f
  | _, _, _ => 0
  end.

(** [find_part_for_plane]: the position of the first part coplanar with
    [plane]; without one, a new part for the plane is appended. *)
Fixpoint find_coplanar_part_from (parts : list MeshPart) (i : nat) (plane : v4) (eps : double)
  : option nat :=
  match parts with
  | [] => None
  | p :: parts' =>
      if planes_are_coplanar plane (mp_plane p) eps then Some i
      else find_coplanar_part_from parts' (S i) plane eps
  end.

Definition find_part_for_plane (bs : BoolState) (partset : MeshPartSet) (plane : v4)
  : MeshPartSet * nat :=
  match find_coplanar_part_from (meshparts partset) 0 plane (eps bs) with
  | Some i => (partset, i)
  | None =>
      (add_part_to_partset partset (mkMeshPart plane zero_v3_db zero_v3_db [] [] []),
       length (meshparts partset))
  end.

(** ** Example inputs *)

(** Two merge maps: a chain 5 -> 3 -> 1, and a two-cycle 0 -> 1 -> 0. *)
Definition chain_map : IntIntMap := [mkIntPair 5 3; mkIntPair 3 1].
Definition cyclic_map : IntIntMap := [mkIntPair 0 1; mkIntPair 1 0].

(** Every entry of the map points to a lower index. *)
Definition forward_pointing (m : IntIntMap) : Prop :=
  Forall (fun kv => second kv < first kv) m.

(** An empty add buffer over a mesh of 8 vertices, 12 edges and 6 faces (a
    cube). *)
Definition cube_meshadd : MeshAdd :=
  {| ma_verts := []; ma_edges := []; ma_faces := []; edge_hash := ∅;
     vindex_start := 8; eindex_start := 12; findex_start := 6 |}.

(** An instance of the external functions for running the examples: the
    usual formulas for the geometric primitives in [double] arithmetic, and
    the host answers ([atan2], tessellation, interior point, face groups)
    given per example. *)
Definition example_closest_to_line (p l1 l2 : v3) : v3 :=
  let u := sub_v3_v3v3_db l2 l1 in
  let h := sub_v3_v3v3_db p l1 in
  let lambda := ddiv (dot_v3v3_db u h) (dot_v3v3_db u u) in
  madd_v3_v3v3db_db l1 u lambda.

Definition example_isect_plane_plane (plane_a plane_b : v4) : option (v3 * v3) :=
  let na := plane_no plane_a in
  let nb := plane_no plane_b in
  let plane_c := cross_v3_v3v3_db na nb in
  let det := dot_v3v3_db plane_c plane_c in
  if SFeqb det d0 then None
  else
    let t1 := mul_v3db_v3dbdb (cross_v3_v3v3_db plane_c nb) (w4 plane_a) in
    let t2 := madd_v3_v3v3db_db t1 (cross_v3_v3v3_db na plane_c) (w4 plane_b) in
    Some (mul_v3db_v3dbdb t2 (ddiv d1 det), plane_c).

(** The closest points of two lines: 0 when they are parallel, else 2 and
    the closest point on each. *)
Definition example_isect_line_line (p1 p2 q1 q2 : v3) (epsilon : double) : Z * v3 * v3 :=
  let u := sub_v3_v3v3_db p2 p1 in
  let v := sub_v3_v3v3_db q2 q1 in
  let w0 := sub_v3_v3v3_db p1 q1 in
  let a := dot_v3v3_db u u in
  let b := dot_v3v3_db u v in
  let c := dot_v3v3_db v v in
  let d := dot_v3v3_db u w0 in
  let e := dot_v3v3_db v w0 in
  let den := dsub (dmul a c) (dmul b b) in
  if SFeqb den d0 then (0, zero_v3_db, zero_v3_db)
  else
    let sc := ddiv (dsub (dmul b e) (dmul c d)) den in
    let tc := ddiv (dsub (dmul a e) (dmul b d)) den in
    (2, madd_v3_v3v3db_db p1 u sc, madd_v3_v3v3db_db q1 v tc).

Definition example_isect_aabb_aabb (min1 max1 min2 max2 : v3) : bool :=
  SFleb (x3 min1) (x3 max2) && SFleb (y3 min1) (y3 max2) && SFleb (z3 min1) (z3 max2) &&
  SFleb (x3 min2) (x3 max1) && SFleb (y3 min2) (y3 max1) && SFleb (z3 min2) (z3 max1).

Definition example_extern (atan2 : double -> double -> double)
    (tess : Z -> list (Z * Z * Z)) (point_in_face : Z -> v3) (groups : list Z * list (Z * Z))
  : Extern :=
  {| closest_to_line_v3_db := example_closest_to_line;
     isect_plane_plane_v3_db := example_isect_plane_plane;
     isect_line_line_epsilon_v3_db := example_isect_line_line;
     isect_aabb_aabb_v3_db := example_isect_aabb_aabb;
     atan2 := atan2;
     normal_tri_v3 := fun a b c => cross_v3_v3v3_db (sub_v3_v3v3_db b a) (sub_v3_v3v3_db c a);
     BM_face_calc_point_in_face := fun _ f => point_in_face f;
     BM_face_calc_tessellation := fun _ f => tess f;
     BM_mesh_calc_face_groups := fun _ _ => groups |}.

(** A mesh of one triangle with corners on the three axes at distance 1,
    seen from the origin. *)
Definition tri_mesh : IMesh :=
  {| im_verts := [V3 f1 f0 f0; V3 f0 f1 f0; V3 f0 f0 f1];
     im_edges := [(0, 1); (1, 2); (2, 0)];
     im_faces := [mkBMFace [0; 1; 2] (V3 f1 f1 f1)] |}.

Definition eps_2_10 : double := dbl 1 (-10).

(** The triangle with a given side flag, as one face group. *)
Definition tri_state (fside : Z) : BoolState :=
  {| im := tri_mesh; eps := eps_2_10; face_side := [fside] |}.

Definition tri_extern (atan2 : double -> double -> double) : Extern :=
  example_extern atan2 (fun _ => [(0, 1, 2)]) (fun _ => V3 (flt 1 (-2)) (flt 1 (-2)) (flt 1 (-1)))
                 ([0], [(0, 1)]).

(** A stand-in for [atan2] in examples where it is never called. *)
Definition no_atan2 : double -> double -> double := fun _ _ => S754_nan.

(** The side flags of the representative are one side bit and nothing
    else. *)
Definition bare_side (fside : Z) : Prop := fside = SIDE_A \/ fside = SIDE_B.

(** The other side bit. *)
Definition opposite_side (fside : Z) : Z := if fside =? SIDE_A then SIDE_B else SIDE_A.

(** All faces of a list marked in the delete bitmap, or put in the flip
    set. *)
Definition delete_faces (change : MeshChange) (fs : list Z) : MeshChange :=
  fold_left (fun c f => set_delete c (meshdelete_add_face (delete c) f)) fs change.

Definition flip_faces (change : MeshChange) (fs : list Z) : MeshChange :=
  fold_left (fun c f => set_face_flip c (add_to_intset (face_flip c) f)) fs change.

Definition empty_mesh : IMesh := {| im_verts := []; im_edges := []; im_faces := [] |}.

(** The order [bool_overlap_sort_fn] sorts by: the comparison is not
    positive. *)
Definition overlap_le (o1 o2 : BVHTreeOverlap) : Prop := bool_overlap_sort_fn o1 o2 <= 0.

(** What libc promises of [qsort] on an overlap array: the result is a
    rearrangement of the input, in the order of the comparison function. *)
Definition qsort_contract
    (qsort : (BVHTreeOverlap -> BVHTreeOverlap -> Z) -> list BVHTreeOverlap ->
             list BVHTreeOverlap) : Prop :=
  forall l, qsort bool_overlap_sort_fn l ≡ₚ l /\ Sorted overlap_le (qsort bool_overlap_sort_fn l).

(** A sort to run the examples with: merge sort by the comparison
    function. *)
Definition example_qsort (cmp : BVHTreeOverlap -> BVHTreeOverlap -> Z)
    (l : list BVHTreeOverlap) : list BVHTreeOverlap :=
  @merge_sort _ (fun a b => cmp a b <= 0) (fun a b => decide (cmp a b <= 0)) l.

(** The faces that [find_coplanar_parts] can put [f] with: found by the
    range search within [10 * eps], already in a part, and passing the test
    of [find_coplanar_cb]. *)
Definition coplanar_candidates (bs : BoolState) (sides : Z) (face_part : list (option nat))
    (f : Z) : list Z :=
  let feps := fl_of_db (eps bs) in
  let plane := canonicalize_plane (imesh_get_face_plane (im bs) f) in
  map fst
      (filter (fun node => has_part face_part (fst node) &&
                           find_coplanar_cb_test feps plane (snd node) = true)
              (BLI_kdtree_4d_range_search (coplanar_tree bs sides) plane (fmul feps f10))).

(** The running minimum kept by [find_coplanar_cb]. *)
Definition lowest (m i : Z) : Z := if (m =? -1) || (i <? m) then i else m.

(** The part [find_coplanar_parts] opens for a face. *)
Definition new_part_for (bs : BoolState) (f : Z) : MeshPart :=
  add_face_to_part
    (mkMeshPart (copy_v4db_v4fl (canonicalize_plane (imesh_get_face_plane (im bs) f)))
                zero_v3_db zero_v3_db [] [] []) f.

(** The coplanarity predicate as C7 words it, on [float] planes:
    [|n1.n2| >= 1 - eps] and [|d1 - sign(n1.n2) * d2| <= eps]. *)
Definition spec_planes_coplanar (p1 p2 : v4) (eps : float) : bool :=
  let nd := dot_v3v3 (plane_no p1) (plane_no p2) in
  let sign := if SFltb f0 nd then f1 else if SFltb nd f0 then SFopp f1 else f0 in
  SFleb (fsub f1 eps) (SFabs nd) &&
  SFleb (SFabs (fsub (w4 p1) (fmul sign (w4 p2)))) eps.

Definition f_eighth : float := flt 1 (-3).

(** Two triangles, both on side A, in the parallel planes [z = 1/8] (normal
    +z) and [z = -1/8] (normal -z), with [eps = 1/4]. *)
Definition planes_mesh : IMesh :=
  {| im_verts := [V3 f0 f0 f_eighth; V3 f1 f0 f_eighth; V3 f0 f1 f_eighth;
                  V3 f0 f0 (SFopp f_eighth); V3 f0 f1 (SFopp f_eighth);
                  V3 f1 f0 (SFopp f_eighth)];
     im_edges := [(0, 1); (1, 2); (2, 0); (3, 4); (4, 5); (5, 3)];
     im_faces := [mkBMFace [0; 1; 2] (V3 f0 f0 f1); mkBMFace [3; 4; 5] (V3 f0 f0 (SFopp f1))] |}.

Definition planes_state : BoolState :=
  {| im := planes_mesh; eps := dbl 1 (-2); face_side := [SIDE_A; SIDE_A] |}.

(** Two triangles of side A in the one plane [z = 1/8], same normal. *)
Definition flat_mesh : IMesh :=
  {| im_verts := [V3 f0 f0 f_eighth; V3 f1 f0 f_eighth; V3 f0 f1 f_eighth; V3 f1 f1 f_eighth];
     im_edges := [(0, 1); (1, 2); (2, 0); (1, 3); (3, 2)];
     im_faces := [mkBMFace [0; 1; 2] (V3 f0 f0 f1); mkBMFace [1; 3; 2] (V3 f0 f0 f1)] |}.

Definition flat_state : BoolState :=
  {| im := flat_mesh; eps := eps_2_10; face_side := [SIDE_A; SIDE_A] |}.

(** The interval [max(lo), min(hi)] of two single intervals, and the
    coordinates the C code picks for its two ends. *)
Definition isect_facstart (iinfoa iinfob : IntervalInfo) : double :=
  max_dd (fac0 iinfoa) (fac0 iinfob).
Definition isect_facend (iinfoa iinfob : IntervalInfo) : double :=
  min_dd (fac1 iinfoa) (fac1 iinfob).
Definition isect_co (iinfoa iinfob : IntervalInfo) : v3 :=
  if SFeqb (isect_facstart iinfoa iinfob) (fac0 iinfoa) then ico0 iinfoa else ico0 iinfob.
Definition isect_co2 (iinfoa iinfob : IntervalInfo) : v3 :=
  if SFeqb (isect_facend iinfoa iinfob) (fac1 iinfoa) then ico1 iinfoa else ico1 iinfob.

(** The interval is empty within [eps]. *)
Definition isect_is_empty (bs : BoolState) (iinfoa iinfob : IntervalInfo) : bool :=
  SFltb (isect_facend iinfoa iinfob) (dsub (isect_facstart iinfoa iinfob) (eps bs)).

(** A mesh of one edge from the origin to (1, 0, 0), with [eps = 2^-10]. *)
Definition seg_mesh : IMesh :=
  {| im_verts := [V3 f0 f0 f0; V3 f1 f0 f0]; im_edges := [(0, 1)]; im_faces := [] |}.

Definition seg_state : BoolState := {| im := seg_mesh; eps := eps_2_10; face_side := [] |}.

Definition on_x (x : double) : v3 := V3 x d0 d0.

(** Intervals along the x axis, parameter equal to the x coordinate. *)
Definition x_interval (lo hi : double) : IntervalInfo := mkInterval lo hi (on_x lo) (on_x hi).

Definition d3_4096 : double := dbl 3 (-12).

(** The two ends and the edge of the interval [1/2, 1] against [-1, 2] on
    [seg_mesh]: the end at 1/2 is staged as vertex 2, the end at 1 snaps to
    vertex 1, and the mesh has no edge between them. *)
Definition half_edge_r1 : MeshAdd * Z :=
  find_or_add_vert seg_state (add (init_meshchange seg_mesh))
                   (isect_co (x_interval dhalf d1) (x_interval (SFopp d1) d2)).
Definition half_edge_r2 : MeshAdd * Z :=
  find_or_add_vert seg_state (fst half_edge_r1)
                   (isect_co2 (x_interval dhalf d1) (x_interval (SFopp d1) d2)).
Definition half_edge_r3 : MeshAdd * Z :=
  if imesh_find_edge (im seg_state) (snd half_edge_r1) (snd half_edge_r2) =? -1
  then meshadd_add_edge (fst half_edge_r2) (snd half_edge_r1) (snd half_edge_r2) (-1) true
  else (fst half_edge_r2, imesh_find_edge (im seg_state) (snd half_edge_r1) (snd half_edge_r2)).

(** A wire edge from (1, -1, 0) to (1, 1, 0) and a lone vertex at
    (3, 3, 0), all in the plane [z = 0]; the second part lies in [y = 0], so
    the line of intersection is the x axis, which the edge crosses at
    (1, 0, 0). *)
Definition f3 : float := flt 3 0.
Definition f7 : float := flt 7 0.

Definition wire_mesh : IMesh :=
  {| im_verts := [V3 f1 (SFopp f1) f0; V3 f1 f1 f0; V3 f3 f3 f0];
     im_edges := [(0, 1)];
     im_faces := [] |}.

Definition wire_state : BoolState := {| im := wire_mesh; eps := eps_2_10; face_side := [] |}.

Definition wire_part_a : MeshPart :=
  mkMeshPart (V4 d0 d0 d1 d0) zero_v3_db zero_v3_db [2] [0] [].

Definition wire_part_a_no_vert : MeshPart :=
  mkMeshPart (V4 d0 d0 d1 d0) zero_v3_db zero_v3_db [] [0] [].

Definition wire_part_b : MeshPart :=
  mkMeshPart (V4 d0 d1 d0 d0) zero_v3_db zero_v3_db [] [] [].

(** ** Vocabulary of the further properties *)

(** The size field is the length of the list. *)
Definition indexedintset_ok (intset : IndexedIntSet) : Prop :=
  iis_size intset = Z.of_nat (length (iis_list intset)).

Definition neg_v4 (p : v4) : v4 := V4 (SFopp (x4 p)) (SFopp (y4 p)) (SFopp (z4 p)) (SFopp (w4 p)).

(** The test [canonicalize_plane] makes: the first of [w], [z], [y], [x]
    that is not zero decides, and it decides for negation when it is
    positive. *)
Definition plane_do_negate (plane : v4) : bool :=
  if negb (SFeqb (w4 plane) f0) then SFltb f0 (w4 plane)
  else if negb (SFeqb (z4 plane) f0) then SFltb f0 (z4 plane)
  else if negb (SFeqb (y4 plane) f0) then SFltb f0 (y4 plane)
  else SFltb f0 (x4 plane).

Definition is_nan (x : spec_float) : bool :=
  match x with S754_nan => true | _ => false end.

(** No component is a NaN and not all are zero. *)
Definition proper_plane (plane : v4) : Prop :=
  is_nan (x4 plane) = false /\ is_nan (y4 plane) = false /\
  is_nan (z4 plane) = false /\ is_nan (w4 plane) = false /\
  (SFeqb (x4 plane) f0 && SFeqb (y4 plane) f0 && SFeqb (z4 plane) f0 && SFeqb (w4 plane) f0) = false.

Definition is_finite (x : spec_float) : bool :=
  match x with S754_zero _ | S754_finite _ _ _ => true | _ => false end.

Definition finite_v3 (a : v3) : Prop :=
  is_finite (x3 a) = true /\ is_finite (y3 a) = true /\ is_finite (z3 a) = true.

(** Vertex [v] of the mesh passes the test of the range search around [co]
    with radius [eps]. *)
Definition vert_in_range (im : IMesh) (co : v3) (eps : double) (v : Z) : bool :=
  match at_index (im_verts im) v with
  | Some c => SFleb (len_squared_v3v3 c (copy_v3fl_v3db co))
                    (fmul (fl_of_db eps) (fl_of_db eps))
  | None => false
  end.

(** The edge joins the two vertices, in either order. *)
Definition edge_joins (ed : Z * Z) (v1 v2 : Z) : Prop := ed = (v1, v2) \/ ed = (v2, v1).

(** The edge hash of the add buffer has no entry for the pair: no edge
    between the two vertices is staged yet. *)
Definition edge_not_staged (meshadd : MeshAdd) (v1 v2 : Z) : Prop :=
  BLI_edgehash_lookup_default (edge_hash meshadd) (to_uint v1) (to_uint v2) (-1) = -1.

(** The operations that fill a [MeshAdd]. *)
Inductive MeshAddOp :=
| OpAddVert (co : v3) (example : Z) (checkdup : bool)
| OpAddEdge (v1 v2 example : Z) (checkdup : bool)
| OpAddFace (vert_edge : list IntPair) (len example : Z) (other : option IntSet).

Definition meshadd_do (eps : double) (meshadd : MeshAdd) (op : MeshAddOp) : MeshAdd :=
  match op with
  | OpAddVert co example checkdup => fst (meshadd_add_vert eps meshadd co example checkdup)
  | OpAddEdge v1 v2 example checkdup => fst (meshadd_add_edge meshadd v1 v2 example checkdup)
  | OpAddFace vert_edge len example other =>
      fst (meshadd_add_face meshadd vert_edge len example other)
  end.

(** The buffer after a run of operations on the empty buffer of a mesh. *)
Definition meshadd_after (im : IMesh) (eps : double) (ops : list MeshAddOp) : MeshAdd :=
  fold_left (meshadd_do eps) ops (init_meshadd im).

(** The key under which the edge hash files a staged edge. *)
Definition newedge_key (ne : NewEdge) : Z * Z :=
  edge_key (to_uint (ne_v1 ne)) (to_uint (ne_v2 ne)).

(** Every value of the edge hash is the position of a staged edge filed
    under that key, every staged edge has its key in the hash, and the edge
    indices start at a non-negative number. *)
Definition edge_hash_ok (meshadd : MeshAdd) : Prop :=
  0 <= eindex_start meshadd /\
  (forall key i, edge_hash meshadd !! key = Some i ->
     0 <= i /\ exists ne, ma_edges meshadd !! Z.to_nat i = Some ne /\ newedge_key ne = key) /\
  (forall ne, In ne (ma_edges meshadd) -> exists i, edge_hash meshadd !! newedge_key ne = Some i).

(** Staged vertices given one by one with the duplicate check on. *)
Definition meshadd_add_verts (eps : double) (meshadd : MeshAdd) (cos : list (v3 * Z)) : MeshAdd :=
  fold_left (fun ma co_ex => fst (meshadd_add_vert eps ma (fst co_ex) (snd co_ex) true))
            cos meshadd.

(** What holds of the part list and the [face_part] table of
    [find_coplanar_parts] when the faces below [n] have been handled: the
    table has one entry per face; a face has a part in the table iff it is
    below [n] and on the wanted sides, and then it is in the face list of
    that part; the face lists hold nothing else, nothing twice, and are not
    empty; the parts have no loose vertices or edges. *)
Definition parts_inv (bs : BoolState) (sides : Z) (n : nat) (parts : list MeshPart)
    (face_part : list (option nat)) : Prop :=
  length face_part = length (im_faces (im bs)) /\
  (forall (f : nat) (p : nat), face_part !! f = Some (Some p) ->
     (f < n)%nat /\ on_sides bs sides (Z.of_nat f) = true /\
     exists part, parts !! p = Some part /\ In (Z.of_nat f) (mp_faces part)) /\
  (forall (p : nat) (part : MeshPart) (g : Z), parts !! p = Some part -> In g (mp_faces part) ->
     0 <= g /\ face_part !! Z.to_nat g = Some (Some p)) /\
  (forall f : nat, (f < n)%nat -> (f < length (im_faces (im bs)))%nat ->
     on_sides bs sides (Z.of_nat f) = true -> exists p, face_part !! f = Some (Some p)) /\
  (forall (p : nat) (part : MeshPart), parts !! p = Some part ->
     List.NoDup (mp_faces part) /\ mp_faces part <> [] /\
     mp_verts part = [] /\ mp_edges part = []).

(** The buffer [meshadd'] holds what [meshadd] holds, at the same indices,
    and possibly more vertices and edges after them. *)
Definition meshadd_grows (meshadd meshadd' : MeshAdd) : Prop :=
  (exists vs, ma_verts meshadd' = ma_verts meshadd ++ vs) /\
  (exists es, ma_edges meshadd' = ma_edges meshadd ++ es) /\
  ma_faces meshadd' = ma_faces meshadd /\
  vindex_start meshadd' = vindex_start meshadd /\
  eindex_start meshadd' = eindex_start meshadd /\
  findex_start meshadd' = findex_start meshadd.

(** The change [change'] differs from [change] only by staged vertices and
    edges and by more intersection edges. *)
Definition change_grows (change change' : MeshChange) : Prop :=
  meshadd_grows (add change) (add change') /\
  delete change' = delete change /\
  vert_merge_map change' = vert_merge_map change /\
  face_flip change' = face_flip change /\
  use_face_kill_loose change' = use_face_kill_loose change /\
  (forall e, find_in_intset (intersection_edges change) e = true ->
             find_in_intset (intersection_edges change') e = true).

(** The overlaps of a part set with itself that pair a part with one of
    higher index. *)
Definition upper_overlaps (overlap : list BVHTreeOverlap) : list BVHTreeOverlap :=
  filter (fun o => indexA o < indexB o) overlap.

(** The pattern of [self_intersect_part_and_ppis] for an element it needs:
    the element gets an index in the indexed set, and the map from indices
    to elements gets the pair. *)
Definition add_needed (st : IndexedIntSet * IntIntMap) (v : Z) : IndexedIntSet * IntIntMap :=
  let r := add_int_to_indexedintset (fst st) v in
  (fst r, add_to_intintmap (snd st) (snd r) v).

(** No face of the mesh has a flag in common with [side]. *)
Definition side_is_empty (bs : BoolState) (side : Z) : Prop :=
  forall f, 0 <= f < imesh_totface (im bs) -> Z.land (face_side_at bs f) side = 0.

(** Every part of the set consists of faces only. *)
Definition faces_only (partset : MeshPartSet) : Prop :=
  forall (p : nat) (part : MeshPart), meshparts partset !! p = Some part ->
    mp_verts part = [] /\ mp_edges part = [].

(** An indexed set holding 7 and 4, and an array of three ints. *)
Definition needed_set : IndexedIntSet := mkIndexedIntSet [7; 4] 2.

Definition three_ints : list Z := [5; 3; 8].

(** The plane [find_coplanar_parts] works with for a face. *)
Definition face_canonical_plane (bs : BoolState) (f : Z) : v4 :=
  canonicalize_plane (imesh_get_face_plane (im bs) f).

(** A part is a chain: its faces are listed by decreasing index, its
    plane is that of its lowest face, and every other face passed the test
    of [find_coplanar_cb] against a lower face of the part. *)
Definition part_is_chain (bs : BoolState) (part : MeshPart) : Prop :=
  StronglySorted (fun a b => b < a) (mp_faces part) /\
  exists (f0 : Z) (rest : list Z),
    mp_faces part = rest ++ [f0] /\
    mp_plane part = copy_v4db_v4fl (face_canonical_plane bs f0) /\
    forall f, In f rest ->
      exists g, In g (mp_faces part) /\ g < f /\
                find_coplanar_cb_test (fl_of_db (eps bs)) (face_canonical_plane bs f)
                                      (face_canonical_plane bs g) = true.

(** * Properties *)

(** ** [resolve_merge] *)

Section ResolveMerge.

Variable m : IntIntMap.

Lemma find_in_intintmap_key (v t : Z) :
  find_in_intintmap m v = Some t -> In v (map first m).
Proof.
  induction m as [|kv rest IH]; simpl; [discriminate|].
  destruct (first kv =? v) eqn:E.
  - intros _. left. lia.
  - intros H. right. exact (IH H).
Qed.

Lemma chase_app (a b : nat) (v : Z) :
  chase (a + b) v m = match chase a v m with Some u => chase b u m | None => None end.
Proof.
  revert v. induction a as [|a IH]; intros v; simpl; [reflexivity|].
  destruct (find_in_intintmap m v); [apply IH | reflexivity].
Qed.

Lemma chase_prefix (a b : nat) (v w : Z) :
  chase (a + b) v m = Some w -> exists u, chase a v m = Some u.
Proof.
  rewrite chase_app. destruct (chase a v m) as [u|]; [eauto | discriminate].
Qed.

(** A failed chase stopped at a vertex without an entry. *)
Lemma chase_None (k : nat) (v : Z) :
  chase k v m = None ->
  exists (j : nat) (w : Z), (j < k)%nat /\ chase j v m = Some w /\ find_in_intintmap m w = None.
Proof.
  revert v. induction k as [|k IH]; intros v; simpl; [discriminate|].
  destruct (find_in_intintmap m v) as [t|] eqn:E.
  - intros H. destruct (IH t H) as (j & w & Hj & Hc & Hf).
    exists (S j), w. simpl. rewrite E. repeat split; [lia | assumption | assumption].
  - intros _. exists O, v. repeat split; [lia | assumption].
Qed.

Lemma resolve_merge_chase (k : nat) (v w : Z) (fuel : nat) :
  chase k v m = Some w -> find_in_intintmap m w = None -> (k < fuel)%nat ->
  resolve_merge fuel v m = Some w.
Proof.
  revert v fuel. induction k as [|k IH]; intros v fuel; simpl.
  - intros [= ->] Hw Hf. destruct fuel as [|fuel]; [lia|]. simpl. now rewrite Hw.
  - destruct (find_in_intintmap m v) as [t|] eqn:E; [|discriminate].
    intros Hc Hw Hf. destruct fuel as [|fuel]; [lia|]. simpl. rewrite E.
    apply IH; [assumption | assumption | lia].
Qed.

Lemma trail_length (k : nat) (v w : Z) :
  chase k v m = Some w -> length (trail k v m) = k.
Proof.
  revert v. induction k as [|k IH]; intros v; simpl; [reflexivity|].
  destruct (find_in_intintmap m v) as [t|]; [|discriminate].
  intros H. f_equal. exact (IH t H).
Qed.

Lemma trail_keys (k : nat) (v w : Z) :
  chase k v m = Some w -> incl (trail k v m) (map first m).
Proof.
  revert v. induction k as [|k IH]; intros v; simpl.
  - intros _ x [].
  - destruct (find_in_intintmap m v) as [t|] eqn:E; [|discriminate].
    intros H x [<- | Hx].
    + exact (find_in_intintmap_key v t E).
    + exact (IH t H x Hx).
Qed.

Lemma trail_In (k : nat) (v x : Z) :
  In x (trail k v m) -> exists j, (j < k)%nat /\ chase j v m = Some x.
Proof.
  revert v. induction k as [|k IH]; intros v; simpl; [intros []|].
  intros [<- | Hx].
  - exists O. split; [lia | reflexivity].
  - destruct (find_in_intintmap m v) as [t|] eqn:E; [|destruct Hx].
    destruct (IH t Hx) as (j & Hj & Hc).
    exists (S j). simpl. rewrite E. split; [lia | assumption].
Qed.

Lemma trail_NoDup (k : nat) (v w : Z) :
  acyclic m -> chase k v m = Some w -> List.NoDup (trail k v m).
Proof.
  intros Hacy. revert v. induction k as [|k IH]; intros v; simpl; [constructor|].
  destruct (find_in_intintmap m v) as [t|] eqn:E; [|discriminate].
  intros H. constructor; [|exact (IH t H)].
  intros Hin. destruct (trail_In k t v Hin) as (j & Hj & Hc).
  apply (Hacy v (S j)); [lia|]. simpl. now rewrite E.
Qed.

(** On an acyclic map no chase makes more successful lookups than the map
    has entries. *)
Lemma chase_bound (k : nat) (v w : Z) :
  acyclic m -> chase k v m = Some w -> (k <= length m)%nat.
Proof.
  intros Hacy H.
  rewrite <- (trail_length k v w H), <- (length_map first m).
  apply List.NoDup_incl_length; [exact (trail_NoDup k v w Hacy H) | exact (trail_keys k v w H)].
Qed.

Lemma chase_all_cycle (v : Z) :
  reaches_cycle v m -> forall j, exists w, chase j v m = Some w.
Proof.
  intros (i & k & u & Hk & Hi & Hu) j.
  assert (Hq : forall q, chase (q * k) u m = Some u).
  { induction q as [|q IH]; [reflexivity|].
    simpl. rewrite chase_app, Hu. exact IH. }
  assert (Hall : chase (i + j * k) v m = Some u) by (rewrite chase_app, Hi; apply Hq).
  apply (chase_prefix j (i + j * k - j) v u).
  replace (j + (i + j * k - j))%nat with (i + j * k)%nat by nia. exact Hall.
Qed.

Lemma resolve_merge_endless (v : Z) :
  (forall j, exists w, chase j v m = Some w) -> forall fuel, resolve_merge fuel v m = None.
Proof.
  intros Hall fuel. revert v Hall. induction fuel as [|fuel IH]; intros v Hall; [reflexivity|].
  simpl. destruct (Hall 1%nat) as (w & Hw). simpl in Hw.
  destruct (find_in_intintmap m v) as [t|] eqn:E; [|discriminate].
  apply IH. intros j. destruct (Hall (S j)) as (w' & Hw'). simpl in Hw'. rewrite E in Hw'.
  eauto.
Qed.

End ResolveMerge.

(** C4, as the code has it.  On an acyclic map [resolve_merge] returns after
    at most [n] successful lookups, [n] the number of entries, at a vertex
    without an entry (fuel [n + 1] is enough); from a vertex that runs into
    a cycle the loop never exits: no amount of fuel gives a result, and the
    function has no other outcome. *)
Theorem resolve_merge_terminates_iff_no_cycle (v : Z) (m : IntIntMap) :
  (acyclic m ->
   exists (k : nat) (w : Z),
     (k <= length m)%nat /\ chase k v m = Some w /\ find_in_intintmap m w = None /\
     forall fuel, (k < fuel)%nat -> resolve_merge fuel v m = Some w) /\
  (reaches_cycle v m -> forall fuel, resolve_merge fuel v m = None).
Proof.
  split.
  - intros Hacy.
    destruct (chase (S (length m)) v m) as [w|] eqn:E.
    + pose proof (chase_bound m _ v w Hacy E). lia.
    + destruct (chase_None m _ v E) as (j & w & Hj & Hc & Hf).
      exists j, w. repeat split; [lia | assumption | assumption |].
      intros fuel Hfuel. exact (resolve_merge_chase m j v w fuel Hc Hf Hfuel).
  - intros Hcyc. apply resolve_merge_endless. exact (chase_all_cycle m v Hcyc).
Qed.

Lemma forward_pointing_find (m : IntIntMap) (v t : Z) :
  forward_pointing m -> find_in_intintmap m v = Some t -> t < v.
Proof.
  intros Hfw. induction Hfw as [|kv rest Hkv _ IH]; simpl; [discriminate|].
  destruct (first kv =? v) eqn:E; [|exact IH].
  intros [= <-]. lia.
Qed.

Lemma forward_pointing_chase (m : IntIntMap) (k : nat) (v w : Z) :
  forward_pointing m -> (0 < k)%nat -> chase k v m = Some w -> w < v.
Proof.
  intros Hfw. revert v. induction k as [|k IH]; intros v Hk; [lia|]. simpl.
  destruct (find_in_intintmap m v) as [t|] eqn:E; [|discriminate].
  pose proof (forward_pointing_find m v t Hfw E) as Ht.
  destruct k as [|k].
  - simpl. intros [= <-]. exact Ht.
  - intros H. specialize (IH t ltac:(lia) H). lia.
Qed.

(** The maps the intersector is required to build are acyclic. *)
Lemma forward_pointing_acyclic (m : IntIntMap) : forward_pointing m -> acyclic m.
Proof.
  intros Hfw v k Hk H. pose proof (forward_pointing_chase m k v v Hfw Hk H). lia.
Qed.

Lemma resolve_merge_terminates_witness :
  (exists (k : nat) (w : Z),
     (k <= length chain_map)%nat /\ chase k 5 chain_map = Some w /\
     find_in_intintmap chain_map w = None /\
     forall fuel, (k < fuel)%nat -> resolve_merge fuel 5 chain_map = Some w) /\
  (forall fuel, resolve_merge fuel 0 cyclic_map = None).
Proof.
  split.
  - apply (proj1 (resolve_merge_terminates_iff_no_cycle 5 chain_map)).
    apply forward_pointing_acyclic. repeat constructor.
  - apply (proj2 (resolve_merge_terminates_iff_no_cycle 0 cyclic_map)).
    exists 0%nat, 2%nat, 0. repeat split. lia.
Defined.

(** C4 as stated fails on a cyclic map: vertex 0 of [cyclic_map] is on a
    cycle, and [resolve_merge] neither returns nor reports anything. *)
Lemma resolve_merge_cycle_not_detected :
  reaches_cycle 0 cyclic_map /\
  ~ (exists (fuel : nat) (w : Z), resolve_merge fuel 0 cyclic_map = Some w).
Proof.
  assert (Hc : reaches_cycle 0 cyclic_map).
  { exists 0%nat, 2%nat, 0. repeat split. lia. }
  split; [exact Hc|].
  intros (fuel & w & H).
  rewrite (resolve_merge_endless cyclic_map 0 (chase_all_cycle cyclic_map 0 Hc) fuel) in H.
  discriminate.
Qed.

(** ** The add buffer *)

Lemma edge_key_comm (a b : Z) : edge_key a b = edge_key b a.
Proof.
  unfold edge_key. destruct (a <? b) eqn:E1, (b <? a) eqn:E2; try reflexivity; try lia.
  assert (a = b) by lia. now subst.
Qed.

(** Staging a new edge returns its extended index; asking again for the same
    endpoints, in either order, stages nothing and returns the position in
    the buffer, without [eindex_start]. *)
Lemma meshadd_add_edge_again (meshadd : MeshAdd) (v1 v2 example example' : Z) :
  BLI_edgehash_lookup_default (edge_hash meshadd) (to_uint v1) (to_uint v2) (-1) = -1 ->
  let ma1 := fst (meshadd_add_edge meshadd v1 v2 example true) in
  snd (meshadd_add_edge meshadd v1 v2 example true) = eindex_start meshadd + meshadd_totedge meshadd /\
  meshadd_add_edge ma1 v1 v2 example' true = (ma1, meshadd_totedge meshadd) /\
  meshadd_add_edge ma1 v2 v1 example' true = (ma1, meshadd_totedge meshadd) /\
  find_edge_by_verts_in_meshadd ma1 v1 v2 = eindex_start meshadd + meshadd_totedge meshadd.
Proof.
  intros Hmiss.
  assert (Hfirst : meshadd_add_edge meshadd v1 v2 example true
                   = meshadd_push_edge meshadd v1 v2 example).
  { unfold meshadd_add_edge. rewrite Hmiss. reflexivity. }
  rewrite Hfirst. cbv zeta.
  assert (Hpos : (meshadd_totedge meshadd =? -1) = false).
  { apply Z.eqb_neq. unfold meshadd_totedge. lia. }
  assert (Hhit : BLI_edgehash_lookup_default
                   (edge_hash (fst (meshadd_push_edge meshadd v1 v2 example)))
                   (to_uint v1) (to_uint v2) (-1) = meshadd_totedge meshadd).
  { unfold BLI_edgehash_lookup_default, meshadd_push_edge, BLI_edgehash_insert. simpl.
    now rewrite lookup_insert_eq. }
  assert (Hhit' : BLI_edgehash_lookup_default
                   (edge_hash (fst (meshadd_push_edge meshadd v1 v2 example)))
                   (to_uint v2) (to_uint v1) (-1) = meshadd_totedge meshadd).
  { unfold BLI_edgehash_lookup_default in *. now rewrite edge_key_comm. }
  repeat split.
  - unfold meshadd_push_edge. simpl. lia.
  - unfold meshadd_add_edge. rewrite Hhit, Hpos. reflexivity.
  - unfold meshadd_add_edge. rewrite Hhit', Hpos. reflexivity.
  - unfold find_edge_by_verts_in_meshadd. rewrite Hhit, Hpos. reflexivity.
Qed.

(** C9 at a failing input.  On a buffer over a mesh with 12 edges, staging
    the edge (8, 9) returns the extended index 12; staging it again with
    [checkdup], in either order, stages nothing new but returns 0, the bare
    buffer position, where [find_edge_by_verts_in_meshadd] answers 12. *)
Theorem meshadd_add_edge_dup_returns_position :
  let ma1 := fst (meshadd_add_edge cube_meshadd 8 9 (-1) true) in
  snd (meshadd_add_edge cube_meshadd 8 9 (-1) true) = 12 /\
  meshadd_add_edge ma1 8 9 (-1) true = (ma1, 0) /\
  meshadd_add_edge ma1 9 8 (-1) true = (ma1, 0) /\
  find_edge_by_verts_in_meshadd ma1 8 9 = 12.
Proof.
  exact (meshadd_add_edge_again cube_meshadd 8 9 (-1) (-1) eq_refl).
Qed.

(** ** The boolean operator *)

(** The both-sides test of [do_boolean_op] masks the flags with
    [SIDE_A & SIDE_B], which is 0. *)
Lemma both_sides_never (fside : Z) : c_bool (Z.land fside (Z.land SIDE_A SIDE_B)) = false.
Proof. change (Z.land SIDE_A SIDE_B) with 0. now rewrite Z.land_0_r. Qed.

(** The negation test of the winding sum ors the flags with the bit, which
    is never 0. *)
Lemma gwn_negate_always (fside : Z) : gwn_negate fside = true.
Proof.
  unfold gwn_negate, c_bool. apply negb_true_iff, Z.eqb_neq.
  intros H. apply Z.lor_eq_0_iff in H. destruct H as [_ H]. discriminate H.
Qed.

Lemma delete_faces_flip (change : MeshChange) (fs : list Z) :
  face_flip (delete_faces change fs) = face_flip change.
Proof.
  unfold delete_faces. revert change. induction fs as [|f fs IH]; intros change; [reflexivity|].
  simpl. now rewrite IH.
Qed.

Lemma delete_faces_length (change : MeshChange) (fs : list Z) :
  length (face_bmap (delete (delete_faces change fs))) = length (face_bmap (delete change)).
Proof.
  unfold delete_faces. revert change. induction fs as [|f fs IH]; intros change; [reflexivity|].
  simpl. rewrite IH. simpl. destruct (f <? 0); [reflexivity | apply length_insert].
Qed.

Lemma delete_faces_keeps (change : MeshChange) (fs : list Z) (f : Z) :
  meshdelete_find_face (delete change) f = true ->
  meshdelete_find_face (delete (delete_faces change fs)) f = true.
Proof.
  unfold delete_faces. revert change. induction fs as [|g fs IH]; intros change H; [exact H|].
  simpl. apply IH. simpl. unfold meshdelete_find_face, at_index in *. simpl.
  destruct (f <? 0) eqn:Ef; [discriminate|].
  destruct (g <? 0) eqn:Eg; [exact H|].
  destruct (decide (Z.to_nat g = Z.to_nat f)) as [Heq|Hne].
  - rewrite Heq.
    destruct (face_bmap (delete change) !! Z.to_nat f) as [b|] eqn:El; [|discriminate].
    rewrite list_lookup_insert_eq; [reflexivity | eapply lookup_lt_Some; eassumption].
  - now rewrite list_lookup_insert_ne.
Qed.

(** Every face of the list that the bitmap covers is marked deleted. *)
Lemma delete_faces_marks (change : MeshChange) (fs : list Z) (f : Z) :
  In f fs -> 0 <= f < Z.of_nat (length (face_bmap (delete change))) ->
  meshdelete_find_face (delete (delete_faces change fs)) f = true.
Proof.
  revert change. induction fs as [|g fs IH]; intros change; [intros []|].
  intros [-> | Hin] Hr.
  - change (delete_faces change (f :: fs))
      with (delete_faces (set_delete change (meshdelete_add_face (delete change) f)) fs).
    apply delete_faces_keeps. simpl. unfold meshdelete_find_face, at_index. simpl.
    destruct (f <? 0) eqn:Ef; [lia|].
    rewrite list_lookup_insert_eq; [reflexivity | lia].
  - change (delete_faces change (g :: fs))
      with (delete_faces (set_delete change (meshdelete_add_face (delete change) g)) fs).
    apply IH; [exact Hin|]. simpl. destruct (g <? 0); [exact Hr | now rewrite length_insert].
Qed.

Lemma add_to_intset_found (set : IntSet) (v w : Z) :
  find_in_intset set w = true \/ v = w -> find_in_intset (add_to_intset set v) w = true.
Proof.
  unfold add_to_intset. intros [H | ->].
  - destruct (find_in_intset set v); [exact H|]. simpl. now rewrite H, Tauto.if_same.
  - destruct (find_in_intset set w) eqn:E; [exact E|]. simpl. now rewrite Z.eqb_refl.
Qed.

Lemma flip_faces_delete (change : MeshChange) (fs : list Z) :
  delete (flip_faces change fs) = delete change.
Proof.
  unfold flip_faces. revert change. induction fs as [|f fs IH]; intros change; [reflexivity|].
  simpl. now rewrite IH.
Qed.

Lemma flip_faces_keeps (change : MeshChange) (fs : list Z) (f : Z) :
  find_in_intset (face_flip change) f = true ->
  find_in_intset (face_flip (flip_faces change fs)) f = true.
Proof.
  unfold flip_faces. revert change. induction fs as [|g fs IH]; intros change H; [exact H|].
  simpl. apply IH. simpl. apply add_to_intset_found. now left.
Qed.

(** Every face of the list is in the flip set. *)
Lemma flip_faces_marks (change : MeshChange) (fs : list Z) (f : Z) :
  In f fs -> find_in_intset (face_flip (flip_faces change fs)) f = true.
Proof.
  revert change. induction fs as [|g fs IH]; intros change; [intros []|].
  intros [-> | Hin].
  - change (flip_faces change (f :: fs))
      with (flip_faces (set_face_flip change (add_to_intset (face_flip change) f)) fs).
    apply flip_faces_keeps. simpl. apply add_to_intset_found. now right.
  - change (flip_faces change (g :: fs))
      with (flip_faces (set_face_flip change (add_to_intset (face_flip change) g)) fs).
    now apply IH.
Qed.

(** C1, as the code has it.  For a group whose representative [f] has one
    side bit and no other flag, with [inside] the winding test of the
    interior point of [f] against the faces of the opposite side:
    intersection removes the group iff not inside, union iff inside,
    difference removes a side-A group iff inside and a side-B group iff not
    inside and flips the side-B groups it keeps; and inside means
    [|gwn| >= 0.5]. *)
Theorem do_boolean_op_one_side (X : Extern) (bs : BoolState) (boolean_mode : boolean_op)
    (groups_array : list Z) (grp : Z * Z) (change : MeshChange) (f : Z) :
  at_index groups_array (fst grp) = Some f ->
  bare_side (face_side_at bs f) ->
  let fside := face_side_at bs f in
  let otherside := opposite_side fside in
  let co := imesh_calc_point_in_face X (im bs) f in
  let inside := point_is_inside_side X bs otherside co in
  let side_a := fside =? SIDE_A in
  let do_remove := match boolean_mode with
                   | BMESH_BOOLEAN_ISECT => negb inside
                   | BMESH_BOOLEAN_UNION => inside
                   | BMESH_BOOLEAN_DIFFERENCE => if side_a then inside else negb inside
                   end in
  let do_flip := match boolean_mode with
                 | BMESH_BOOLEAN_DIFFERENCE => negb side_a
                 | _ => false
                 end in
  group_remove_flip X bs boolean_mode f = Some (do_remove, do_flip) /\
  do_boolean_group X bs boolean_mode groups_array change grp =
    (if do_remove then delete_faces change (group_faces groups_array grp)
     else if do_flip then flip_faces change (group_faces groups_array grp)
     else change) /\
  inside = SFleb dhalf (SFabs (generalized_winding_number X bs otherside co)).
Proof.
  intros Hf Hbare fside otherside co inside side_a do_remove do_flip.
  assert (Hgrf : group_remove_flip X bs boolean_mode f = Some (do_remove, do_flip)).
  { unfold do_remove, do_flip, side_a, inside, co, otherside, opposite_side, fside.
    unfold group_remove_flip. rewrite both_sides_never.
    destruct Hbare as [H | H]; rewrite H; destruct boolean_mode; reflexivity. }
  split; [exact Hgrf|]. split; [|reflexivity].
  unfold do_boolean_group. rewrite Hf, Hgrf.
  destruct do_remove, do_flip; reflexivity.
Qed.

Lemma do_boolean_op_one_side_witness :
  group_remove_flip (tri_extern no_atan2) (tri_state SIDE_B) BMESH_BOOLEAN_DIFFERENCE 0
    = Some (true, true) /\
  do_boolean_group (tri_extern no_atan2) (tri_state SIDE_B) BMESH_BOOLEAN_DIFFERENCE
                   [0] (init_meshchange tri_mesh) (0, 1)
    = delete_faces (init_meshchange tri_mesh) [0].
Proof.
  assert (Hf : at_index [0] (fst (0, 1)) = Some 0) by reflexivity.
  assert (Hbare : bare_side (face_side_at (tri_state SIDE_B) 0)) by (right; reflexivity).
  pose proof (do_boolean_op_one_side (tri_extern no_atan2) (tri_state SIDE_B)
                BMESH_BOOLEAN_DIFFERENCE [0] (0, 1) (init_meshchange tri_mesh) 0 Hf Hbare)
    as (Hgrf & Hgrp & _).
  split; [rewrite Hgrf | rewrite Hgrp]; vm_compute; reflexivity.
Defined.

(** C1 as stated fails for a group that carries no side bit.  The face of
    [tri_state 0] was skipped by the side predicate; its interior point is
    not inside the other faces, yet intersection does not remove it. *)
Lemma skipped_group_not_removed :
  Z.land (face_side_at (tri_state 0) 0) SIDE_A = 0 /\
  Z.land (face_side_at (tri_state 0) 0) SIDE_B = 0 /\
  point_is_inside_side (tri_extern no_atan2) (tri_state 0)
    (Z.lxor (face_side_at (tri_state 0) 0) (Z.lor SIDE_A SIDE_B))
    (imesh_calc_point_in_face (tri_extern no_atan2) tri_mesh 0) = false /\
  group_remove_flip (tri_extern no_atan2) (tri_state 0) BMESH_BOOLEAN_ISECT 0 = None /\
  meshdelete_find_face
    (delete (do_boolean_op_change (tri_extern no_atan2) (tri_state 0) BMESH_BOOLEAN_ISECT)) 0
    = false.
Proof. repeat split; vm_compute; reflexivity. Qed.

(** For a side-A representative that also carries the opposite-normals bit
    the mask handed to the winding test is [SIDE_B | BOTH_SIDES_OPP_NORMALS],
    which selects the representative itself along with the side-B faces. *)
Lemma otherside_mask_with_opp_normals :
  Z.lxor (Z.lor SIDE_A BOTH_SIDES_OPP_NORMALS) (Z.lor SIDE_A SIDE_B)
  = Z.lor SIDE_B BOTH_SIDES_OPP_NORMALS /\
  on_sides (tri_state (Z.lor SIDE_A BOTH_SIDES_OPP_NORMALS))
           (Z.lor SIDE_B BOTH_SIDES_OPP_NORMALS) 0 = true.
Proof. split; reflexivity. Qed.

(** With the opposite-normals bit set on a both-sides face, union goes
    through the winding branch like any other group. *)
Lemma both_sides_opp_normals_union (at2 : double -> double -> double) :
  group_remove_flip (tri_extern at2) (tri_state 7) BMESH_BOOLEAN_UNION 0
  = Some (point_is_inside_side (tri_extern at2) (tri_state 7) BOTH_SIDES_OPP_NORMALS
            (imesh_calc_point_in_face (tri_extern at2) tri_mesh 0), false).
Proof.
  unfold group_remove_flip. rewrite both_sides_never.
  change (face_side_at (tri_state 7) 0) with 7. reflexivity.
Qed.

(** C2 at a failing input.  The both-sides branch of [do_boolean_op] is
    never taken.  A group with both side bits and no opposite-normals bit
    (every face when [use_self] is set) goes through the winding branch with
    an empty mask: difference flips it, where the rule asks for no flip. *)
Theorem both_sides_group_takes_winding_branch :
  (forall fside, c_bool (Z.land fside (Z.land SIDE_A SIDE_B)) = false) /\
  Z.land (Z.lor SIDE_A SIDE_B) BOTH_SIDES_OPP_NORMALS = 0 /\
  group_remove_flip (tri_extern no_atan2) (tri_state (Z.lor SIDE_A SIDE_B))
                    BMESH_BOOLEAN_DIFFERENCE 0 = Some (false, true) /\
  face_flip (do_boolean_op_change (tri_extern no_atan2) (tri_state (Z.lor SIDE_A SIDE_B))
                                  BMESH_BOOLEAN_DIFFERENCE) = [0].
Proof.
  split; [exact both_sides_never|].
  repeat split; vm_compute; reflexivity.
Qed.

(** Seen from the origin, the triangle of [tri_mesh] contributes
    [2 * atan2 1 1], negated when the flag is set. *)
Lemma gwn_triangle_octant (at2 : double -> double -> double) (negate : bool) :
  gwn_triangle (tri_extern at2) tri_mesh 0 negate zero_v3_db (0, 1, 2)
  = if negate then SFopp (dmul d2 (at2 d1 d1)) else dmul d2 (at2 d1 d1).
Proof.
  unfold gwn_triangle. cbv zeta.
  change (atan2 (tri_extern at2)) with at2.
  match goal with
  | |- context [at2 ?n ?d] =>
      replace n with d1 by (vm_compute; reflexivity);
      replace d with d1 by (vm_compute; reflexivity)
  end.
  reflexivity.
Qed.

(** C3 at a failing input.  The triangle of [tri_mesh] is a side-B face
    without the opposite-normals bit; seen from the origin its solid angle
    is [2 * atan2 1 1], and the winding sum receives the negated value.  The
    negation flag is set for every flag value. *)
Theorem gwn_negates_without_opp_normals_bit :
  Z.land SIDE_B BOTH_SIDES_OPP_NORMALS = 0 /\
  (forall fside, gwn_negate fside = true) /\
  (forall at2,
     generalized_winding_number (tri_extern at2) (tri_state SIDE_B) SIDE_B zero_v3_db
     = ddiv (dadd d0 (SFopp (dmul d2 (at2 d1 d1)))) (dmul M_PI d4)).
Proof.
  split; [reflexivity|]. split; [exact gwn_negate_always|].
  intros at2. unfold generalized_winding_number.
  change (face_indices (im (tri_state SIDE_B))) with [0].
  cbn [fold_left]. unfold gwn_face.
  change (face_side_at (tri_state SIDE_B) 0) with SIDE_B.
  change (c_bool (Z.land SIDE_B SIDE_B)) with true. cbn [negb].
  rewrite gwn_negate_always.
  change (imesh_face_calc_tesselation (tri_extern at2) (im (tri_state SIDE_B)) 0)
    with [(0, 1, 2)].
  change (Z.to_nat (imesh_facelen (im (tri_state SIDE_B)) 0 - 2)) with 1%nat.
  cbn [take fold_left].
  change (im (tri_state SIDE_B)) with tri_mesh.
  rewrite gwn_triangle_octant. reflexivity.
Qed.

(** ** The entry point *)

Lemma at_index_nil {A : Type} (i : Z) : at_index (@nil A) i = None.
Proof. unfold at_index. destruct (i <? 0); [reflexivity | apply lookup_nil]. Qed.

(** Without parts on the A side no overlap does anything. *)
Lemma overlap_step_no_parts (X : Extern) (co_init : Z -> Z -> v3) (bs : BoolState)
    (a_partset b_partset : MeshPartSet) (same : bool)
    (overlap : list BVHTreeOverlap) (st : PairState) :
  meshparts a_partset = [] ->
  fold_left (overlap_step X co_init bs a_partset b_partset same) overlap st = st.
Proof.
  intros Ha. revert st. induction overlap as [|o overlap IH]; intros st; [reflexivity|].
  cbn [fold_left]. rewrite <- (IH st) at 2. f_equal.
  unfold overlap_step. rewrite Ha, at_index_nil. reflexivity.
Qed.

Lemma intersect_partset_pair_no_parts (X : Extern)
    (qsort : (BVHTreeOverlap -> BVHTreeOverlap -> Z) -> list BVHTreeOverlap -> list BVHTreeOverlap)
    (self_isect : BoolState -> MeshPart -> list PartPartIntersect -> MeshChange -> MeshChange)
    (co_init : Z -> Z -> v3) (bs : BoolState) (a_partset b_partset : MeshPartSet)
    (same : bool) (overlap : list BVHTreeOverlap) (meshchange : MeshChange) :
  meshparts a_partset = [] -> meshparts b_partset = [] ->
  intersect_partset_pair X qsort self_isect co_init bs a_partset b_partset same overlap meshchange
  = meshchange.
Proof.
  intros Ha Hb. unfold intersect_partset_pair.
  rewrite (overlap_step_no_parts X co_init bs a_partset b_partset same _ _ Ha).
  rewrite Ha, Hb. cbn [length replicate zip zip_with fold_left pair_change].
  destruct same; reflexivity.
Qed.

Lemma find_coplanar_parts_empty_mesh (eps : double) (sides_tab : list Z) (sides : Z) :
  meshparts (find_coplanar_parts (mkBoolState empty_mesh eps sides_tab) sides) = [].
Proof. reflexivity. Qed.

(** On a mesh without faces the intersection phase stages nothing, whatever
    the overlap primitive and the sort return. *)
Lemma isect_change_empty_mesh (X : Extern)
    (qsort : (BVHTreeOverlap -> BVHTreeOverlap -> Z) -> list BVHTreeOverlap -> list BVHTreeOverlap)
    (self_isect : BoolState -> MeshPart -> list PartPartIntersect -> MeshChange -> MeshChange)
    (co_init : Z -> Z -> v3) (overlap_fn : MeshPartSet -> MeshPartSet -> list BVHTreeOverlap)
    (eps : double) (sides_tab : list Z) (use_self : bool) :
  BM_mesh_boolean_isect_change X qsort self_isect co_init overlap_fn
                               (mkBoolState empty_mesh eps sides_tab) use_self
  = init_meshchange empty_mesh.
Proof.
  unfold BM_mesh_boolean_isect_change.
  destruct use_self; apply intersect_partset_pair_no_parts;
    apply find_coplanar_parts_empty_mesh.
Qed.

(** C5 at a failing input.  The returned flag is the constant [true].  On a
    mesh without faces and with no boolean operation requested, the only
    thing handed to the applier is the empty change, and the call still
    reports a change. *)
Theorem BM_mesh_boolean_always_true (X : Extern)
    (apply : BoolState -> MeshChange -> BoolState)
    (qsort : (BVHTreeOverlap -> BVHTreeOverlap -> Z) -> list BVHTreeOverlap -> list BVHTreeOverlap)
    (self_isect : BoolState -> MeshPart -> list PartPartIntersect -> MeshChange -> MeshChange)
    (co_init : Z -> Z -> v3) (overlap_fn : MeshPartSet -> MeshPartSet -> list BVHTreeOverlap)
    (test_fn : Z -> Z) (use_self : bool) (eps : float) :
  (forall bm mode,
     snd (BM_mesh_boolean X apply qsort self_isect co_init overlap_fn bm test_fn use_self mode eps)
     = true) /\
  BM_mesh_boolean X apply qsort self_isect co_init overlap_fn empty_mesh test_fn use_self None eps
  = (apply (mkBoolState empty_mesh (db_of_fl eps) []) (init_meshchange empty_mesh), true) /\
  init_meshchange empty_mesh
  = {| add := {| ma_verts := []; ma_edges := []; ma_faces := []; edge_hash := ∅;
                 vindex_start := 0; eindex_start := 0; findex_start := 0 |};
       delete := {| vert_bmap := []; edge_bmap := []; face_bmap := [] |};
       vert_merge_map := []; intersection_edges := []; face_flip := [];
       use_face_kill_loose := false |}.
Proof.
  split; [reflexivity|]. split; [|reflexivity].
  unfold BM_mesh_boolean.
  change (initial_face_side empty_mesh test_fn use_self) with (@nil Z).
  now rewrite isect_change_empty_mesh.
Qed.

(** ** Order of the overlaps *)

Lemma overlap_le_iff (o1 o2 : BVHTreeOverlap) :
  overlap_le o1 o2 <->
  indexA o1 < indexA o2 \/ (indexA o1 = indexA o2 /\ indexB o1 <= indexB o2).
Proof.
  unfold overlap_le, bool_overlap_sort_fn.
  destruct (indexA o1 <? indexA o2) eqn:E1; [lia|].
  destruct (indexA o2 <? indexA o1) eqn:E2; [lia|].
  destruct (indexB o1 <? indexB o2) eqn:E3; [lia|].
  destruct (indexB o2 <? indexB o1) eqn:E4; lia.
Qed.

#[local] Instance overlap_le_trans : Transitive overlap_le.
Proof. intros a b c. rewrite !overlap_le_iff. lia. Qed.

#[local] Instance overlap_le_antisymm : AntiSymm eq overlap_le.
Proof.
  intros [a1 b1] [a2 b2]. rewrite !overlap_le_iff. simpl. intros H1 H2.
  f_equal; lia.
Qed.

#[local] Instance overlap_le_total : Total overlap_le.
Proof. intros a b. rewrite !overlap_le_iff. lia. Qed.

(** Equal comparison means equal overlaps, so a sorted overlap array is
    determined by its contents. *)
Lemma sorted_overlaps_unique (l1 l2 : list BVHTreeOverlap) :
  Sorted overlap_le l1 -> Sorted overlap_le l2 -> l1 ≡ₚ l2 -> l1 = l2.
Proof. apply Sorted_unique; apply _. Qed.

Lemma example_qsort_contract : qsort_contract example_qsort.
Proof.
  intros l. split.
  - apply merge_sort_Permutation.
  - apply (Sorted_merge_sort overlap_le).
Qed.

(** C10.  Whatever [qsort] is, as long as it sorts: two overlap arrays with
    the same overlaps in different orders give the same staged change. *)
Theorem intersect_partset_pair_order_independent (X : Extern)
    (qsort : (BVHTreeOverlap -> BVHTreeOverlap -> Z) -> list BVHTreeOverlap -> list BVHTreeOverlap)
    (self_isect : BoolState -> MeshPart -> list PartPartIntersect -> MeshChange -> MeshChange)
    (co_init : Z -> Z -> v3) (bs : BoolState) (a_partset b_partset : MeshPartSet)
    (same_partsets : bool) (overlap1 overlap2 : list BVHTreeOverlap) (meshchange : MeshChange) :
  qsort_contract qsort ->
  overlap1 ≡ₚ overlap2 ->
  intersect_partset_pair X qsort self_isect co_init bs a_partset b_partset same_partsets
                         overlap1 meshchange
  = intersect_partset_pair X qsort self_isect co_init bs a_partset b_partset same_partsets
                           overlap2 meshchange.
Proof.
  intros Hq Hperm. unfold intersect_partset_pair.
  assert (Hsorted :
            match overlap1 with [] => [] | _ => qsort bool_overlap_sort_fn overlap1 end
            = match overlap2 with [] => [] | _ => qsort bool_overlap_sort_fn overlap2 end).
  { destruct overlap1 as [|o1 l1].
    - apply Permutation_nil_l in Hperm. now subst.
    - destruct overlap2 as [|o2 l2].
      + apply Permutation_nil_r in Hperm. discriminate.
      + destruct (Hq (o1 :: l1)) as [Hp1 Hs1]. destruct (Hq (o2 :: l2)) as [Hp2 Hs2].
        apply sorted_overlaps_unique; [assumption | assumption|].
        now rewrite Hp1, Hp2. }
  now rewrite Hsorted.
Qed.

(** ** Part-set construction *)

Lemma has_part_inv (face_part : list (option nat)) (index : Z) :
  has_part face_part index = true ->
  0 <= index /\ exists p, at_index face_part index = Some (Some p).
Proof.
  unfold has_part, at_index. destruct (index <? 0) eqn:E; [discriminate|].
  destruct (face_part !! Z.to_nat index) as [[p|]|]; try discriminate.
  intros _. split; [lia | eauto].
Qed.

(** The fold of [find_coplanar_cb] over the nodes the range search visits
    keeps the lowest index among the nodes that pass. *)
Lemma fold_find_coplanar_cb (e : float) (tp : v4) (fp : list (option nat))
    (nodes : list (Z * v4)) (n0 : Z) :
  near_f_with_part
    (fold_left (fun cb node => find_coplanar_cb cb (fst node) (snd node)) nodes
               (mkCBData n0 e tp fp))
  = fold_left lowest
      (map fst (filter (fun node => has_part fp (fst node) &&
                                    find_coplanar_cb_test e tp (snd node) = true)
                       nodes)) n0.
Proof.
  revert n0. induction nodes as [|node nodes IH]; intros n0; [reflexivity|].
  cbn [fold_left]. unfold find_coplanar_cb at 2.
  cbn [face_part cb_eps test_plane near_f_with_part].
  rewrite filter_cons.
  destruct (has_part fp (fst node)) eqn:Hp;
    [destruct (find_coplanar_cb_test e tp (snd node)) eqn:Ht|].
  - rewrite decide_True by reflexivity. cbn [map fold_left]. unfold lowest at 2.
    destruct ((n0 =? -1) || (fst node <? n0)); apply IH.
  - rewrite decide_False by discriminate. apply IH.
  - rewrite decide_False by discriminate. apply IH.
Qed.

Lemma lowest_fold_nil (n0 : Z) : fold_left lowest [] n0 = n0.
Proof. reflexivity. Qed.

(** Over non-negative indices, the running minimum ends at the least of the
    start value (if it is one) and the list. *)
Lemma lowest_fold (l : list Z) (n0 : Z) :
  (forall i, In i l -> 0 <= i) -> n0 = -1 \/ 0 <= n0 ->
  (fold_left lowest l n0 = n0 \/ In (fold_left lowest l n0) l) /\
  (n0 <> -1 -> fold_left lowest l n0 <= n0) /\
  (forall i, In i l -> fold_left lowest l n0 <= i) /\
  (l <> [] -> 0 <= fold_left lowest l n0).
Proof.
  revert n0. induction l as [|i l IH]; intros n0 Hpos Hn0.
  - cbn. repeat split; [now left | lia | intros i [] | congruence].
  - cbn [fold_left].
    assert (Hi : 0 <= i) by (apply Hpos; now left).
    assert (Hl : forall j, In j l -> 0 <= j) by (intros j Hj; apply Hpos; now right).
    assert (Hstep : (lowest n0 i = i /\ (n0 = -1 \/ i < n0)) \/ (lowest n0 i = n0 /\ 0 <= n0 <= i)).
    { unfold lowest. destruct (n0 =? -1) eqn:E1; cbn [orb]; [left; lia|].
      destruct (i <? n0) eqn:E2; [left; lia | right; lia]. }
    assert (Hn1 : lowest n0 i = -1 \/ 0 <= lowest n0 i) by (destruct Hstep as [[-> _]|[-> ?]]; lia).
    destruct (IH (lowest n0 i) Hl Hn1) as (Hin & Hle & Hall & _).
    assert (Hne : lowest n0 i <> -1) by (destruct Hstep as [[-> _]|[-> ?]]; lia).
    specialize (Hle Hne).
    repeat split.
    + destruct Hin as [Heq | Hin]; [|right; now right].
      rewrite Heq. destruct Hstep as [[-> _]|[-> _]]; [right; now left | now left].
    + intros Hn. destruct Hstep as [[Hs [?|?]]|[Hs ?]]; lia.
    + intros j [<- | Hj]; [|now apply Hall].
      destruct Hstep as [[Hs _]|[Hs ?]]; lia.
    + intros _. destruct Hin as [Heq | Hin]; [lia | now apply Hl].
Qed.

Lemma coplanar_candidates_has_part (bs : BoolState) (sides : Z) (face_part : list (option nat))
    (f c : Z) :
  In c (coplanar_candidates bs sides face_part f) -> has_part face_part c = true.
Proof.
  unfold coplanar_candidates. intros Hin.
  apply list_elem_of_In, list_elem_of_fmap in Hin. destruct Hin as (node & -> & Hnode).
  apply list_elem_of_filter in Hnode. destruct Hnode as [Hok _].
  now apply andb_true_iff in Hok.
Qed.

Lemma find_near_f_lowest (bs : BoolState) (sides : Z) (face_part : list (option nat)) (f : Z) :
  find_near_f bs sides face_part f
  = fold_left lowest (coplanar_candidates bs sides face_part f) (-1).
Proof. unfold find_near_f, coplanar_candidates. apply fold_find_coplanar_cb. Qed.

(** C7, as the code has it.  A face on the wanted side joins an existing
    part iff some face found by the 4-D range search within [10 * eps] is
    already in a part and passes the test of [find_coplanar_cb]
    ([|d1 - d2| <= eps] and [|n1.n2 - 1| <= eps * M_2_PI] on the canonical
    planes); it then joins the part of the lowest such face; otherwise a new
    part is opened for it. *)
Theorem find_coplanar_step_spec (bs : BoolState) (sides : Z) (partset : MeshPartSet)
    (face_part : list (option nat)) (f : Z) :
  on_sides bs sides f = true ->
  (coplanar_candidates bs sides face_part f = [] ->
   find_near_f bs sides face_part f = -1 /\
   find_coplanar_step bs sides (partset, face_part) f
   = (add_part_to_partset partset (new_part_for bs f),
      <[Z.to_nat f := Some (length (meshparts partset))]> face_part)) /\
  (coplanar_candidates bs sides face_part f <> [] ->
   In (find_near_f bs sides face_part f) (coplanar_candidates bs sides face_part f) /\
   (forall c, In c (coplanar_candidates bs sides face_part f) ->
              find_near_f bs sides face_part f <= c) /\
   exists p, at_index face_part (find_near_f bs sides face_part f) = Some (Some p) /\
             find_coplanar_step bs sides (partset, face_part) f
             = (mkMeshPartSet (ps_bbmin partset) (ps_bbmax partset)
                              (alter (fun part => add_face_to_part part f) p (meshparts partset)),
                <[Z.to_nat f := Some p]> face_part)).
Proof.
  intros Hside. split.
  - intros Hnil.
    assert (Hnear : find_near_f bs sides face_part f = -1).
    { rewrite find_near_f_lowest, Hnil. reflexivity. }
    split; [exact Hnear|].
    unfold find_coplanar_step. rewrite Hside, Hnear. reflexivity.
  - intros Hne.
    assert (Hpos : forall i, In i (coplanar_candidates bs sides face_part f) -> 0 <= i).
    { intros i Hi. apply coplanar_candidates_has_part, has_part_inv in Hi. tauto. }
    destruct (lowest_fold _ (-1) Hpos (or_introl eq_refl)) as (Hin & _ & Hall & Hnn).
    rewrite <- find_near_f_lowest in Hin, Hall, Hnn. specialize (Hnn Hne).
    destruct Hin as [Heq | Hin]; [lia|].
    split; [exact Hin|]. split; [exact Hall|].
    destruct (has_part_inv _ _ (coplanar_candidates_has_part _ _ _ _ _ Hin)) as (_ & p & Hp).
    exists p. split; [exact Hp|].
    unfold find_coplanar_step. rewrite Hside. cbn [negb].
    destruct (find_near_f bs sides face_part f =? -1) eqn:E; [lia|].
    rewrite Hp. reflexivity.
Qed.

Lemma find_coplanar_step_witness :
  find_near_f planes_state SIDE_A (snd (find_coplanar_prefix planes_state SIDE_A 1)) 1 = -1 /\
  In (find_near_f flat_state SIDE_A (snd (find_coplanar_prefix flat_state SIDE_A 1)) 1)
     (coplanar_candidates flat_state SIDE_A (snd (find_coplanar_prefix flat_state SIDE_A 1)) 1).
Proof.
  assert (H1 : on_sides planes_state SIDE_A 1 = true) by (vm_compute; reflexivity).
  assert (H2 : on_sides flat_state SIDE_A 1 = true) by (vm_compute; reflexivity).
  split.
  - apply (proj1 (find_coplanar_step_spec planes_state SIDE_A
                    (fst (find_coplanar_prefix planes_state SIDE_A 1))
                    (snd (find_coplanar_prefix planes_state SIDE_A 1)) 1 H1)).
    vm_compute. reflexivity.
  - apply (proj2 (find_coplanar_step_spec flat_state SIDE_A
                    (fst (find_coplanar_prefix flat_state SIDE_A 1))
                    (snd (find_coplanar_prefix flat_state SIDE_A 1)) 1 H2)).
    vm_compute. discriminate.
Defined.

(** C7 as stated fails when the two planes meet its predicate but not the
    callback's.  In [planes_state] face 1 finds face 0 in range and already
    in a part, the planes satisfy [|n1.n2| >= 1 - eps] and
    [|d1 - sign(n1.n2) * d2| <= eps], and face 1 still gets a part of its
    own. *)
Lemma coplanar_by_claim_gets_new_part :
  map fst (BLI_kdtree_4d_range_search
             (coplanar_tree planes_state SIDE_A)
             (canonicalize_plane (imesh_get_face_plane planes_mesh 1))
             (fmul (fl_of_db (eps planes_state)) f10)) = [0; 1] /\
  has_part (snd (find_coplanar_prefix planes_state SIDE_A 1)) 0 = true /\
  spec_planes_coplanar (canonicalize_plane (imesh_get_face_plane planes_mesh 1))
                       (canonicalize_plane (imesh_get_face_plane planes_mesh 0))
                       (fl_of_db (eps planes_state)) = true /\
  find_near_f planes_state SIDE_A (snd (find_coplanar_prefix planes_state SIDE_A 1)) 1 = -1 /\
  map mp_faces (meshparts (find_coplanar_parts planes_state SIDE_A)) = [[0]; [1]].
Proof. repeat split; vm_compute; reflexivity. Qed.

Lemma intersect_partset_pair_order_witness :
  [mkOverlap 1 0; mkOverlap 0 0] ≡ₚ [mkOverlap 0 0; mkOverlap 1 0] /\
  intersect_partset_pair (tri_extern no_atan2) example_qsort (fun _ _ _ change => change)
    (fun _ _ => zero_v3_db) planes_state
    (find_coplanar_parts planes_state SIDE_A) (find_coplanar_parts planes_state SIDE_A) false
    [mkOverlap 1 0; mkOverlap 0 0] (init_meshchange planes_mesh)
  = intersect_partset_pair (tri_extern no_atan2) example_qsort (fun _ _ _ change => change)
      (fun _ _ => zero_v3_db) planes_state
      (find_coplanar_parts planes_state SIDE_A) (find_coplanar_parts planes_state SIDE_A) false
      [mkOverlap 0 0; mkOverlap 1 0] (init_meshchange planes_mesh).
Proof.
  assert (Hperm : [mkOverlap 1 0; mkOverlap 0 0] ≡ₚ [mkOverlap 0 0; mkOverlap 1 0])
    by apply perm_swap.
  split; [exact Hperm|].
  apply intersect_partset_pair_order_independent; [exact example_qsort_contract | exact Hperm].
Defined.

(** ** Single interval against single interval *)

Lemma app_one_neq {A : Type} (l : list A) (x : A) : l ++ [x] <> l.
Proof.
  intros H. apply (f_equal (@length A)) in H. rewrite length_app in H. simpl in H. lia.
Qed.

Lemma find_edge_from_spec (es : list (Z * Z)) (e v1 v2 : Z) :
  (find_edge_from es e v1 v2 = -1 /\
   (0 <= e -> forall ed, In ed es -> ~ edge_joins ed v1 v2)) \/
  (exists n ed, find_edge_from es e v1 v2 = e + Z.of_nat n /\ es !! n = Some ed /\
                edge_joins ed v1 v2).
Proof.
  revert e. induction es as [|[a b] es IH]; intros e; simpl.
  - left. split; [reflexivity | intros _ ed []].
  - destruct (((a =? v1) && (b =? v2)) || ((a =? v2) && (b =? v1))) eqn:E.
    + right. exists 0%nat, (a, b). split; [lia|]. split; [reflexivity|].
      unfold edge_joins.
      apply orb_true_iff in E. destruct E as [E | E]; apply andb_true_iff in E;
        destruct E as [E1 E2]; apply Z.eqb_eq in E1, E2; subst; auto.
    + destruct (IH (e + 1)) as [[H1 H2] | (n & ed & H1 & H2 & H3)].
      * left. split; [exact H1|]. intros He ed [<- | Hin].
        -- unfold edge_joins. intros [[= -> ->] | [= -> ->]];
             rewrite !Z.eqb_refl in E; simpl in E;
             [discriminate | rewrite orb_true_r in E; discriminate].
        -- apply H2; [lia | exact Hin].
      * right. exists (S n), ed. split; [lia|]. split; assumption.
Qed.

(** An edge that [imesh_find_edge] finds is an edge of the mesh between
    the two vertices. *)
Lemma imesh_find_edge_found (im : IMesh) (v1 v2 : Z) :
  imesh_find_edge im v1 v2 <> -1 ->
  0 <= imesh_find_edge im v1 v2 < imesh_totedge im /\
  edge_joins (imesh_get_edge_verts im (imesh_find_edge im v1 v2)) v1 v2.
Proof.
  unfold imesh_find_edge.
  destruct ((imesh_totvert im <=? v1) || (imesh_totvert im <=? v2)); [intros H; now elim H|].
  destruct (find_edge_from_spec (im_edges im) 0 v1 v2) as [[H1 _] | (n & ed & H1 & H2 & H3)].
  - intros H. now elim H.
  - intros _. rewrite H1. pose proof (lookup_lt_Some _ _ _ H2) as Hn.
    unfold imesh_totedge. split; [lia|].
    unfold imesh_get_edge_verts, at_index.
    destruct (Z.ltb_spec (0 + Z.of_nat n) 0); [lia|].
    replace (Z.to_nat (0 + Z.of_nat n)) with n by lia. rewrite H2.
    now destruct ed.
Qed.

(** A pushed edge gets the next extended index and reads back as given. *)
Lemma meshadd_push_edge_get (meshadd : MeshAdd) (v1 v2 example : Z) :
  snd (meshadd_push_edge meshadd v1 v2 example)
  = eindex_start meshadd + meshadd_totedge meshadd /\
  meshadd_get_edge_verts (fst (meshadd_push_edge meshadd v1 v2 example))
                         (snd (meshadd_push_edge meshadd v1 v2 example)) = (v1, v2).
Proof.
  unfold meshadd_push_edge. cbn [fst snd]. split; [lia|].
  unfold meshadd_get_edge_verts, meshadd_get_newedge, meshadd_totedge. cbn.
  rewrite length_app. cbn [length].
  set (n := length (ma_edges meshadd)).
  replace (eindex_start meshadd + (Z.of_nat n + 1) - 1 - eindex_start meshadd)
    with (Z.of_nat n) by lia.
  destruct (Z.leb_spec 0 (Z.of_nat n)); [|lia].
  destruct (Z.ltb_spec (Z.of_nat n) (Z.of_nat (n + 1))); [|lia].
  cbn [andb]. rewrite Nat2Z.id, lookup_app_r by (unfold n; lia).
  unfold n. now rewrite Nat.sub_diag.
Qed.

(** Snapping or staging a vertex leaves the staged edges alone. *)
Lemma find_or_add_vert_edges (bs : BoolState) (meshadd : MeshAdd) (co : v3) :
  edge_hash (fst (find_or_add_vert bs meshadd co)) = edge_hash meshadd /\
  eindex_start (fst (find_or_add_vert bs meshadd co)) = eindex_start meshadd.
Proof.
  unfold find_or_add_vert, meshadd_add_vert_db, meshadd_add_vert.
  destruct (imesh_find_co_db (im bs) co (eps bs) =? -1); [|split; reflexivity].
  destruct (find_dup_vert _ _ _ _); split; reflexivity.
Qed.

(** C6, as the code has it.  For one interval of an A face and one of a B
    face the result is [max(a1,b1), min(a2,b2)].  The pair contributes
    nothing iff [min(a2,b2) < max(a1,b1) - eps].  Otherwise, if the two end
    coordinates coincide within [eps], one vertex, snapped to the mesh or
    staged, goes to the record; if not, both ends are snapped or staged,
    and then either they are the same vertex, which alone goes to the
    record, or an edge index goes to the record and to the
    intersection-edge set: the index of the mesh edge between the two
    vertices where there is one, and else what [meshadd_add_edge] returns.
    When the mesh has such an edge, or the add buffer (made for this mesh)
    has none staged for the pair yet, that index is the index of an edge
    between the two vertices. *)
Theorem intersect_single_intervals_spec (bs : BoolState) (iinfoa iinfob : IntervalInfo)
    (ppi : PartPartIntersect) (change : MeshChange) :
  (isect_is_empty bs iinfoa iinfob = true ->
   intersect_single_intervals bs iinfoa iinfob (ppi, change) = (ppi, change)) /\
  (isect_is_empty bs iinfoa iinfob = false ->
   fst (intersect_single_intervals bs iinfoa iinfob (ppi, change)) <> ppi) /\
  (isect_is_empty bs iinfoa iinfob = false ->
   compare_v3v3_db (isect_co iinfoa iinfob) (isect_co2 iinfoa iinfob) (eps bs) = true ->
   intersect_single_intervals bs iinfoa iinfob (ppi, change)
   = (add_vert_to_partpartintersect ppi
        (snd (find_or_add_vert bs (add change) (isect_co iinfoa iinfob))),
      set_add change (fst (find_or_add_vert bs (add change) (isect_co iinfoa iinfob))))) /\
  (isect_is_empty bs iinfoa iinfob = false ->
   compare_v3v3_db (isect_co iinfoa iinfob) (isect_co2 iinfoa iinfob) (eps bs) = false ->
   forall r1 r2,
     r1 = find_or_add_vert bs (add change) (isect_co iinfoa iinfob) ->
     r2 = find_or_add_vert bs (fst r1) (isect_co2 iinfoa iinfob) ->
     (snd r1 = snd r2 ->
      intersect_single_intervals bs iinfoa iinfob (ppi, change)
      = (add_vert_to_partpartintersect ppi (snd r1), set_add change (fst r2))) /\
     (snd r1 <> snd r2 ->
      forall r3,
        r3 = (if imesh_find_edge (im bs) (snd r1) (snd r2) =? -1
              then meshadd_add_edge (fst r2) (snd r1) (snd r2) (-1) true
              else (fst r2, imesh_find_edge (im bs) (snd r1) (snd r2))) ->
        intersect_single_intervals bs iinfoa iinfob (ppi, change)
        = (add_edge_to_partpartintersect ppi (snd r3),
           set_intersection_edges (set_add change (fst r3))
             (add_to_intset (intersection_edges change) (snd r3))) /\
        (eindex_start (add change) = imesh_totedge (im bs) ->
         imesh_find_edge (im bs) (snd r1) (snd r2) <> -1 \/
           edge_not_staged (add change) (snd r1) (snd r2) ->
         edge_joins (imeshplus_get_edge_verts (init_imeshplus (im bs) (fst r3)) (snd r3))
                    (snd r1) (snd r2)))).
Proof.
  unfold isect_is_empty, isect_co, isect_co2, isect_facstart, isect_facend.
  unfold intersect_single_intervals.
  destruct (SFltb (min_dd (fac1 iinfoa) (fac1 iinfob))
                  (dsub (max_dd (fac0 iinfoa) (fac0 iinfob)) (eps bs))) eqn:Eempty.
  { repeat split; try discriminate; reflexivity. }
  set (co := if SFeqb (max_dd (fac0 iinfoa) (fac0 iinfob)) (fac0 iinfoa)
             then ico0 iinfoa else ico0 iinfob).
  set (co2 := if SFeqb (min_dd (fac1 iinfoa) (fac1 iinfob)) (fac1 iinfoa)
              then ico1 iinfoa else ico1 iinfob).
  pose proof (find_or_add_vert_edges bs (add change) co) as [Hh1 Hs1].
  destruct (find_or_add_vert bs (add change) co) as [ma1 v1] eqn:E1.
  cbn [fst] in Hh1, Hs1.
  destruct (compare_v3v3_db co co2 (eps bs)) eqn:Ecmp.
  { split; [discriminate|]. cbn [fst snd]. split; [|split; [reflexivity | discriminate]].
    intros _. destruct ppi. unfold add_vert_to_partpartintersect. cbn.
    intros [= H]. now apply app_one_neq in H. }
  pose proof (find_or_add_vert_edges bs ma1 co2) as [Hh2 Hs2].
  destruct (find_or_add_vert bs ma1 co2) as [ma2 v2] eqn:E2.
  cbn [fst] in Hh2, Hs2.
  split; [discriminate|]. split.
  { intros _. destruct (v1 =? v2).
    - destruct ppi. unfold add_vert_to_partpartintersect. cbn.
      intros [= H]. now apply app_one_neq in H.
    - destruct (if imesh_find_edge (im bs) v1 v2 =? -1
                then meshadd_add_edge ma2 v1 v2 (-1) true
                else (ma2, imesh_find_edge (im bs) v1 v2)) as [ma3 e'].
      destruct ppi. unfold add_edge_to_partpartintersect. cbn.
      intros [= H]. now apply app_one_neq in H. }
  split; [discriminate|].
  intros _ _ r1 r2 -> Hr2. cbn [fst snd] in Hr2. rewrite E2 in Hr2. subst r2. cbn [fst snd].
  split.
  - intros ->. now rewrite Z.eqb_refl.
  - intros Hne r3 ->. apply Z.eqb_neq in Hne. rewrite Hne. split.
    { destruct (if imesh_find_edge (im bs) v1 v2 =? -1
                then meshadd_add_edge ma2 v1 v2 (-1) true
                else (ma2, imesh_find_edge (im bs) v1 v2)) as [ma3 e'].
      reflexivity. }
    intros Hstart Hnew. unfold imeshplus_get_edge_verts, init_imeshplus. cbn [imp_im imp_meshadd].
    destruct (Z.eqb_spec (imesh_find_edge (im bs) v1 v2) (-1)) as [Hnone | Hfound].
    + destruct Hnew as [Hnew | Hnew]; [contradiction|].
      unfold edge_not_staged in Hnew. rewrite <- Hh1, <- Hh2 in Hnew.
      unfold meshadd_add_edge. rewrite Hnew. change (-1 =? -1) with true. cbn [negb].
      destruct (meshadd_push_edge_get ma2 v1 v2 (-1)) as [Hidx Hget].
      rewrite Hget, Hidx.
      assert (0 <= meshadd_totedge ma2) by (unfold meshadd_totedge; lia).
      destruct (Z.ltb_spec (eindex_start ma2 + meshadd_totedge ma2) (imesh_totedge (im bs)));
        [lia|].
      now left.
    + cbn [fst snd]. destruct (imesh_find_edge_found (im bs) v1 v2 Hfound) as [Hr Hj].
      destruct (Z.ltb_spec (imesh_find_edge (im bs) v1 v2) (imesh_totedge (im bs))); [|lia].
      exact Hj.
Qed.

Lemma intersect_single_intervals_witness :
  intersect_single_intervals seg_state (x_interval d0 d1) (x_interval d2 d4)
    (init_partpartintersect, init_meshchange seg_mesh)
  = (init_partpartintersect, init_meshchange seg_mesh) /\
  fst (intersect_single_intervals seg_state (x_interval dhalf dhalf) (x_interval (SFopp d1) d2)
         (init_partpartintersect, init_meshchange seg_mesh)) <> init_partpartintersect /\
  ppi_verts (fst (intersect_single_intervals seg_state (x_interval dhalf dhalf)
                    (x_interval (SFopp d1) d2)
                    (init_partpartintersect, init_meshchange seg_mesh))) = [2] /\
  ppi_verts (fst (intersect_single_intervals seg_state (x_interval (SFopp d3_4096) d3_4096)
                    (x_interval (SFopp d1) d1)
                    (init_partpartintersect, init_meshchange seg_mesh))) = [0] /\
  ppi_edges (fst (intersect_single_intervals seg_state (x_interval d0 d1)
                    (x_interval (SFopp d1) d2)
                    (init_partpartintersect, init_meshchange seg_mesh))) = [0] /\
  edge_joins (imeshplus_get_edge_verts (init_imeshplus seg_mesh (fst half_edge_r3))
                                       (snd half_edge_r3))
             (snd half_edge_r1) (snd half_edge_r2).
Proof.
  split; [|split; [|split; [|split; [|split]]]].
  - apply (proj1 (intersect_single_intervals_spec seg_state (x_interval d0 d1) (x_interval d2 d4)
                    init_partpartintersect (init_meshchange seg_mesh))).
    vm_compute. reflexivity.
  - apply (proj1 (proj2 (intersect_single_intervals_spec seg_state (x_interval dhalf dhalf)
                           (x_interval (SFopp d1) d2)
                           init_partpartintersect (init_meshchange seg_mesh)))).
    vm_compute. reflexivity.
  - rewrite (proj1 (proj2 (proj2 (intersect_single_intervals_spec seg_state
                                    (x_interval dhalf dhalf) (x_interval (SFopp d1) d2)
                                    init_partpartintersect (init_meshchange seg_mesh)))));
      vm_compute; reflexivity.
  - assert (He : isect_is_empty seg_state (x_interval (SFopp d3_4096) d3_4096)
                                (x_interval (SFopp d1) d1) = false) by (vm_compute; reflexivity).
    assert (Hc : compare_v3v3_db
                   (isect_co (x_interval (SFopp d3_4096) d3_4096) (x_interval (SFopp d1) d1))
                   (isect_co2 (x_interval (SFopp d3_4096) d3_4096) (x_interval (SFopp d1) d1))
                   (eps seg_state) = false) by (vm_compute; reflexivity).
    destruct (proj2 (proj2 (proj2 (intersect_single_intervals_spec seg_state
                (x_interval (SFopp d3_4096) d3_4096) (x_interval (SFopp d1) d1)
                init_partpartintersect (init_meshchange seg_mesh)))) He Hc _ _ eq_refl eq_refl)
      as [Hsame _].
    rewrite Hsame; vm_compute; reflexivity.
  - assert (He : isect_is_empty seg_state (x_interval d0 d1) (x_interval (SFopp d1) d2) = false)
      by (vm_compute; reflexivity).
    assert (Hc : compare_v3v3_db
                   (isect_co (x_interval d0 d1) (x_interval (SFopp d1) d2))
                   (isect_co2 (x_interval d0 d1) (x_interval (SFopp d1) d2))
                   (eps seg_state) = false) by (vm_compute; reflexivity).
    destruct (proj2 (proj2 (proj2 (intersect_single_intervals_spec seg_state
                (x_interval d0 d1) (x_interval (SFopp d1) d2)
                init_partpartintersect (init_meshchange seg_mesh)))) He Hc _ _ eq_refl eq_refl)
      as [_ Hedge].
    rewrite (proj1 (Hedge ltac:(vm_compute; discriminate) _ eq_refl)). vm_compute. reflexivity.
  - assert (He : isect_is_empty seg_state (x_interval dhalf d1) (x_interval (SFopp d1) d2)
                 = false) by (vm_compute; reflexivity).
    assert (Hc : compare_v3v3_db
                   (isect_co (x_interval dhalf d1) (x_interval (SFopp d1) d2))
                   (isect_co2 (x_interval dhalf d1) (x_interval (SFopp d1) d2))
                   (eps seg_state) = false) by (vm_compute; reflexivity).
    destruct (proj2 (proj2 (proj2 (intersect_single_intervals_spec seg_state
                (x_interval dhalf d1) (x_interval (SFopp d1) d2)
                init_partpartintersect (init_meshchange seg_mesh)))) He Hc
                half_edge_r1 half_edge_r2 eq_refl eq_refl)
      as [_ Hedge].
    apply (proj2 (Hedge ltac:(vm_compute; discriminate) half_edge_r3 eq_refl)).
    + reflexivity.
    + right. vm_compute. reflexivity.
Defined.

(** C6 as stated fails when the two ends are further apart than [eps] but
    snap to the same mesh vertex: the ends [(-3/4096, 0, 0)] and
    [(3/4096, 0, 0)] differ by more than [eps = 1/1024], both are within
    [eps] of vertex 0, and the record gets that vertex and no edge; the
    intersection-edge set stays empty. *)
Lemma far_ends_same_vertex_no_edge :
  isect_is_empty seg_state (x_interval (SFopp d3_4096) d3_4096) (x_interval (SFopp d1) d1)
  = false /\
  compare_v3v3_db (isect_co (x_interval (SFopp d3_4096) d3_4096) (x_interval (SFopp d1) d1))
                  (isect_co2 (x_interval (SFopp d3_4096) d3_4096) (x_interval (SFopp d1) d1))
                  (eps seg_state) = false /\
  intersect_face_pair seg_state [x_interval (SFopp d3_4096) d3_4096] [x_interval (SFopp d1) d1]
                      (init_partpartintersect, init_meshchange seg_mesh)
  = (mkPPI [0] [] [] 0 0, init_meshchange seg_mesh) /\
  intersection_edges (init_meshchange seg_mesh) = [].
Proof. repeat split; vm_compute; reflexivity. Qed.

(** ** Loose edges *)

(** In the branch where neither end of a loose edge is on the line, the
    closest points coincide, the point is within the segment and no mesh
    vertex is near it, the vertex handed to [meshadd_add_vert_db] is the
    local [co], not the closest point [co_close1]. *)
Lemma loose_edge_step_stages_co (X : Extern) (bs : BoolState) (line_co1 line_co2 co : v3)
    (ppi : PartPartIntersect) (meshadd : MeshAdd) (e : Z)
    (co1 co2 co_close1 co_close2 : v3) (isv : Z) :
  imesh_get_edge_cos_db (im bs) e = (co1, co2) ->
  compare_v3v3_db co1 (closest_to_line_v3_db X co1 line_co1 line_co2) (eps bs) = false ->
  compare_v3v3_db co2 (closest_to_line_v3_db X co2 line_co1 line_co2) (eps bs) = false ->
  isect_line_line_epsilon_v3_db X line_co1 line_co2 co1 co2 (eps bs)
  = (isv, co_close1, co_close2) ->
  0 < isv ->
  (isv =? 1) || compare_v3v3_db co_close1 co_close2 (eps bs) = true ->
  SFleb (len_squared_v3v3_db co_close1 co1)
        (dadd (len_squared_v3v3_db co1 co2) (dmul (eps bs) (eps bs))) = true ->
  SFleb (len_squared_v3v3_db co_close1 co2)
        (dadd (len_squared_v3v3_db co1 co2) (dmul (eps bs) (eps bs))) = true ->
  imesh_find_co_db (im bs) co_close1 (eps bs) = -1 ->
  loose_edge_step X bs line_co1 line_co2 co (ppi, meshadd) e
  = (add_vert_to_partpartintersect ppi (snd (meshadd_add_vert_db (eps bs) meshadd co (-1) true)),
     fst (meshadd_add_vert_db (eps bs) meshadd co (-1) true)).
Proof.
  intros Hcos Hon1 Hon2 Hll Hpos Hclose Hin1 Hin2 Hfind.
  unfold loose_edge_step. rewrite Hcos, Hon1, Hon2. cbn [orb]. rewrite Hll.
  apply Z.ltb_lt in Hpos. rewrite Hpos, Hclose, Hin1, Hin2. cbn [andb].
  rewrite Hfind. cbn [Z.eqb].
  destruct (meshadd_add_vert_db (eps bs) meshadd co (-1) true). reflexivity.
Qed.

(** The loose-edge branch on a part that holds a loose edge.  The wire edge
    crosses the line of intersection at (1, 0, 0): that is the closest point
    computed, and no mesh vertex is within [eps] of it.  The vertex staged
    for it has the coordinates of the loose vertex read just before,
    (3, 3, 0); without a loose vertex in the parts it has whatever the
    local [co] held on entry, here (7, 7, 7).  No caller hands such a part
    to the intersector: the parts of [find_coplanar_parts] hold faces
    only. *)
Lemma loose_edge_vertex_not_at_closest_point :
  isect_line_line_epsilon_v3_db (tri_extern no_atan2) zero_v3_db (on_x (SFopp d1))
    (imesh_get_vert_co_db wire_mesh 0) (imesh_get_vert_co_db wire_mesh 1) (eps wire_state)
  = (2, on_x d1, on_x d1) /\
  imesh_find_co_db wire_mesh (on_x d1) (eps wire_state) = -1 /\
  non_coplanar_part_part_intersect (tri_extern no_atan2) wire_state zero_v3_db
    wire_part_a 0 wire_part_b 0 (init_meshchange wire_mesh)
  = (Some (mkPPI [3] [] [] 0 0),
     set_add (init_meshchange wire_mesh)
             (fst (meshadd_add_vert (eps wire_state) (init_meshadd wire_mesh)
                                    (V3 f3 f3 f0) (-1) true))) /\
  non_coplanar_part_part_intersect (tri_extern no_atan2) wire_state
    (V3 (db_of_fl f7) (db_of_fl f7) (db_of_fl f7))
    wire_part_a_no_vert 0 wire_part_b 0 (init_meshchange wire_mesh)
  = (Some (mkPPI [3] [] [] 0 0),
     set_add (init_meshchange wire_mesh)
             (fst (meshadd_add_vert (eps wire_state) (init_meshadd wire_mesh)
                                    (V3 f7 f7 f7) (-1) true))).
Proof. repeat split; vm_compute; reflexivity. Qed.

(** ** The index containers *)

Lemma find_in_intset_In (set : IntSet) (value : Z) :
  find_in_intset set value = true <-> In value set.
Proof.
  induction set as [|link next IH]; simpl.
  - split; [discriminate | intros []].
  - destruct (link =? value) eqn:E.
    + split; [intros _; left; lia | reflexivity].
    + rewrite IH. split; [now right | intros [H | H]; [lia | exact H]].
Qed.

(** Membership after [add_to_intset]: the set holds the added value and
    exactly the values it held before. *)
Lemma add_to_intset_find (set : IntSet) (value w : Z) :
  find_in_intset (add_to_intset set value) w = (value =? w) || find_in_intset set w.
Proof.
  unfold add_to_intset. destruct (find_in_intset set value) eqn:E.
  - destruct (value =? w) eqn:Ew; [|reflexivity].
    apply Z.eqb_eq in Ew. subst w. exact E.
  - reflexivity.
Qed.

Lemma add_to_intset_NoDup (set : IntSet) (value : Z) :
  List.NoDup set -> List.NoDup (add_to_intset set value).
Proof.
  intros H. unfold add_to_intset. destruct (find_in_intset set value) eqn:E; [exact H|].
  constructor; [|exact H]. rewrite <- find_in_intset_In, E. discriminate.
Qed.

(** X1.  A set built from the empty one by [add_to_intset] holds no value
    twice, whatever values are added and however often, and it holds
    exactly the values that were added. *)
Theorem intset_never_repeats (values : list Z) :
  let set := fold_left add_to_intset values init_intset in
  List.NoDup set /\ forall w, find_in_intset set w = true <-> In w values.
Proof.
  cbv zeta.
  assert (H : forall set0, List.NoDup set0 ->
            List.NoDup (fold_left add_to_intset values set0) /\
            forall w, find_in_intset (fold_left add_to_intset values set0) w = true <->
                      In w values \/ find_in_intset set0 w = true).
  { induction values as [|v values IH]; intros set0 Hnd; simpl.
    - split; [exact Hnd | intros w; tauto].
    - destruct (IH (add_to_intset set0 v) (add_to_intset_NoDup set0 v Hnd)) as [H1 H2].
      split; [exact H1|]. intros w. rewrite H2, add_to_intset_find, orb_true_iff, Z.eqb_eq.
      tauto. }
  destruct (H init_intset (List.NoDup_nil Z)) as [H1 H2]. split; [exact H1|].
  intros w. rewrite H2. simpl. split; [intros [?|?]; [assumption | discriminate] | now left].
Qed.

Lemma find_in_intintmap_snoc (map : IntIntMap) (keyval : IntPair) (k : Z) :
  find_in_intintmap (map ++ [keyval]) k =
  match find_in_intintmap map k with
  | Some old => Some old
  | None => if first keyval =? k then Some (second keyval) else None
  end.
Proof.
  induction map as [|kv next IH]; simpl; [reflexivity|].
  destruct (first kv =? k); [reflexivity | exact IH].
Qed.

(** X2.  [add_to_intintmap] appends and [find_in_intintmap] stops at the
    first pair with the key: an entry added for a key that already has one
    is never found, the older entry stays in force. *)
Theorem add_to_intintmap_first_wins (map : IntIntMap) (key val k : Z) :
  find_in_intintmap (add_to_intintmap map key val) k =
  match find_in_intintmap map k with
  | Some old => Some old
  | None => if key =? k then Some val else None
  end.
Proof.
  unfold add_to_intintmap. induction map as [|keyval next IH]; simpl; [reflexivity|].
  destruct (first keyval =? k); [reflexivity | exact IH].
Qed.

Lemma set_first_entry_None (map : IntIntMap) (key value : Z) :
  set_first_entry map key value = None <-> find_in_intintmap map key = None.
Proof.
  induction map as [|keyval next IH]; simpl; [tauto|].
  destruct (first keyval =? key); [split; discriminate|].
  destruct (set_first_entry next key value); [|tauto].
  rewrite <- IH. split; discriminate.
Qed.

Lemma set_first_entry_find (map map' : IntIntMap) (key value k : Z) :
  set_first_entry map key value = Some map' ->
  find_in_intintmap map' k = (if key =? k then Some value else find_in_intintmap map k) /\
  List.map first map' = List.map first map.
Proof.
  revert map'. induction map as [|keyval next IH]; intros map'; simpl; [discriminate|].
  destruct (first keyval =? key) eqn:E.
  - intros [= <-]. simpl. apply Z.eqb_eq in E. rewrite E. split; [|reflexivity].
    destruct (key =? k); reflexivity.
  - destruct (set_first_entry next key value) as [next'|]; [|discriminate].
    intros [= <-]. destruct (IH next' eq_refl) as [H1 H2]. simpl. rewrite H1, H2.
    split; [|reflexivity].
    destruct (first keyval =? k) eqn:Ek; [|reflexivity].
    destruct (key =? k) eqn:Ekk; [lia | reflexivity].
Qed.

(** X3.  [set_intintmap_entry] is an update: afterwards the key is found
    with the new value and every other key as before; the list of keys is
    unchanged when the key had an entry, and gets the key at its end when it
    had none. *)
Theorem set_intintmap_entry_find (map : IntIntMap) (key value k : Z) :
  find_in_intintmap (set_intintmap_entry map key value) k
  = (if key =? k then Some value else find_in_intintmap map k) /\
  List.map first (set_intintmap_entry map key value)
  = match find_in_intintmap map key with
    | Some _ => List.map first map
    | None => List.map first map ++ [key]
    end.
Proof.
  unfold set_intintmap_entry.
  destruct (set_first_entry map key value) as [map'|] eqn:E.
  - destruct (set_first_entry_find map map' key value k E) as [H1 H2].
    split; [exact H1|]. rewrite H2.
    destruct (find_in_intintmap map key) eqn:F; [reflexivity|].
    apply (proj2 (set_first_entry_None map key value)) in F. congruence.
  - apply (proj1 (set_first_entry_None map key value)) in E. split.
    + unfold add_to_intintmap. rewrite find_in_intintmap_snoc. cbn [first second].
      destruct (key =? k) eqn:Ek.
      * apply Z.eqb_eq in Ek. subst k. now rewrite E.
      * now destruct (find_in_intintmap map k).
    + rewrite E. unfold add_to_intintmap. now rewrite map_app.
Qed.

Lemma BLI_linklist_index_from_spec (ln : list Z) (i ptr : Z) :
  (BLI_linklist_index_from ln i ptr = -1 /\ (0 <= i -> ~ In ptr ln)) \/
  (exists n : nat, BLI_linklist_index_from ln i ptr = i + Z.of_nat n /\
                   ln !! n = Some ptr /\ forall k, (k < n)%nat -> ln !! k <> Some ptr).
Proof.
  revert i. induction ln as [|link next IH]; intros i; simpl.
  - left. split; [reflexivity | intros _ []].
  - destruct (link =? ptr) eqn:E.
    + right. exists 0%nat. apply Z.eqb_eq in E. subst link.
      split; [lia|]. split; [reflexivity | intros k Hk; lia].
    + destruct (IH (i + 1)) as [[H1 H2] | (n & H1 & H2 & H3)].
      * left. split; [exact H1|]. intros Hi [Hl | Hin]; [lia|]. apply H2; [lia | exact Hin].
      * right. exists (S n). split; [lia|]. split; [exact H2|].
        intros [|k] Hk; simpl; [intros [= ->]; lia | apply H3; lia].
Qed.

Lemma BLI_linklist_index_app (ln : list Z) (i ptr v : Z) :
  0 <= i ->
  BLI_linklist_index_from (ln ++ [v]) i ptr =
  if BLI_linklist_index_from ln i ptr =? -1
  then (if v =? ptr then i + Z.of_nat (length ln) else -1)
  else BLI_linklist_index_from ln i ptr.
Proof.
  revert i. induction ln as [|link next IH]; intros i Hi; simpl.
  - destruct (v =? ptr); [f_equal; lia | reflexivity].
  - destruct (link =? ptr) eqn:E.
    + destruct (i =? -1) eqn:E1; [lia | reflexivity].
    + rewrite IH by lia. destruct (BLI_linklist_index_from next (i + 1) ptr =? -1); [|reflexivity].
      destruct (v =? ptr); [lia | reflexivity].
Qed.

Lemma add_int_to_indexedintset_ok (intset : IndexedIntSet) (value : Z) :
  indexedintset_ok intset ->
  indexedintset_ok (fst (add_int_to_indexedintset intset value)) /\
  0 <= snd (add_int_to_indexedintset intset value)
    < iis_size (fst (add_int_to_indexedintset intset value)).
Proof.
  unfold indexedintset_ok, add_int_to_indexedintset, BLI_linklist_index. intros Hok.
  destruct (BLI_linklist_index_from_spec (iis_list intset) 0 value)
    as [[H1 _] | (n & H1 & H2 & _)]; rewrite H1.
  - simpl. rewrite length_app. simpl. lia.
  - pose proof (lookup_lt_Some _ _ _ H2).
    destruct (0 + Z.of_nat n =? -1) eqn:E; [lia|]. simpl. lia.
Qed.

(** X4.  Round trip through an indexed set: the index returned by
    [add_int_to_indexedintset] is in range, reading the value at that index
    gives the value back, asking for the index of the value gives the index
    back, and the size field keeps counting the list. *)
Theorem add_int_to_indexedintset_round_trip (intset : IndexedIntSet) (value : Z) :
  indexedintset_ok intset ->
  let intset' := fst (add_int_to_indexedintset intset value) in
  let index := snd (add_int_to_indexedintset intset value) in
  indexedintset_ok intset' /\
  0 <= index < iis_size intset' /\
  indexedintset_get_value_by_index intset' index = value /\
  indexedintset_get_index_for_value intset' value = index /\
  find_in_indexedintset intset' value = true.
Proof.
  unfold indexedintset_ok. intros Hok. cbv zeta.
  unfold add_int_to_indexedintset, indexedintset_get_value_by_index,
    indexedintset_get_index_for_value, find_in_indexedintset, BLI_linklist_index.
  destruct (BLI_linklist_index_from_spec (iis_list intset) 0 value)
    as [[H1 H2] | (n & H1 & H2 & H3)].
  - rewrite H1. simpl. rewrite length_app. simpl.
    split; [lia|]. split; [lia|]. split.
    + destruct (iis_size intset <? 0) eqn:E1; [lia|].
      destruct (iis_size intset + 1 <=? iis_size intset) eqn:E2; [lia|]. simpl.
      rewrite Hok, Nat2Z.id, lookup_app_r by lia. now rewrite Nat.sub_diag.
    + split.
      * rewrite BLI_linklist_index_app, H1 by lia. simpl. rewrite Z.eqb_refl. lia.
      * apply find_in_intset_In, in_or_app. right. now left.
  - rewrite H1. assert (Hn : (n < length (iis_list intset))%nat)
      by (apply lookup_lt_is_Some; eauto).
    destruct (0 + Z.of_nat n =? -1) eqn:E; [lia|]. simpl.
    split; [exact Hok|]. split; [lia|]. split.
    + destruct (0 + Z.of_nat n <? 0) eqn:E1; [lia|].
      destruct (iis_size intset <=? 0 + Z.of_nat n) eqn:E2; [lia|]. simpl.
      replace (Z.to_nat (0 + Z.of_nat n)) with n by lia. now rewrite H2.
    + split; [exact H1|]. apply find_in_intset_In. apply list_elem_of_In.
      eapply list_elem_of_lookup_2. exact H2.
Qed.

Lemma add_int_to_indexedintset_round_trip_witness :
  indexedintset_ok (fst (add_int_to_indexedintset needed_set 9)) /\
  0 <= snd (add_int_to_indexedintset needed_set 9)
    < iis_size (fst (add_int_to_indexedintset needed_set 9)) /\
  indexedintset_get_value_by_index (fst (add_int_to_indexedintset needed_set 9))
                                   (snd (add_int_to_indexedintset needed_set 9)) = 9 /\
  indexedintset_get_index_for_value (fst (add_int_to_indexedintset needed_set 9)) 9
  = snd (add_int_to_indexedintset needed_set 9) /\
  find_in_indexedintset (fst (add_int_to_indexedintset needed_set 9)) 9 = true.
Proof.
  apply (add_int_to_indexedintset_round_trip needed_set 9). reflexivity.
Defined.

(** X5.  Indices are stable: adding a value to an indexed set changes
    neither the value read at an index already in range nor the index of a
    value already in the set. *)
Theorem add_int_to_indexedintset_stable (intset : IndexedIntSet) (value : Z) :
  indexedintset_ok intset ->
  let intset' := fst (add_int_to_indexedintset intset value) in
  (forall i, 0 <= i < iis_size intset ->
     indexedintset_get_value_by_index intset' i = indexedintset_get_value_by_index intset i) /\
  (forall w, find_in_indexedintset intset w = true ->
     indexedintset_get_index_for_value intset' w = indexedintset_get_index_for_value intset w).
Proof.
  unfold indexedintset_ok. intros Hok. cbv zeta.
  unfold add_int_to_indexedintset, indexedintset_get_value_by_index,
    indexedintset_get_index_for_value, find_in_indexedintset, BLI_linklist_index.
  destruct (BLI_linklist_index_from (iis_list intset) 0 value =? -1) eqn:E; simpl;
    [|split; reflexivity].
  split.
  - intros i Hi.
    destruct (i <? 0) eqn:E1; [lia|].
    destruct (iis_size intset + 1 <=? i) eqn:E2; [lia|].
    destruct (iis_size intset <=? i) eqn:E3; [lia|]. simpl.
    rewrite lookup_app_l by lia. reflexivity.
  - intros w Hw. rewrite BLI_linklist_index_app by lia.
    destruct (BLI_linklist_index_from_spec (iis_list intset) 0 w) as [[H1 H2] | (n & H1 & _)].
    + apply find_in_intset_In in Hw. exfalso. apply H2; [lia | exact Hw].
    + rewrite H1. destruct (0 + Z.of_nat n =? -1) eqn:E1; [lia | reflexivity].
Qed.

Lemma add_int_to_indexedintset_stable_witness :
  (forall i, 0 <= i < iis_size needed_set ->
     indexedintset_get_value_by_index (fst (add_int_to_indexedintset needed_set 9)) i
     = indexedintset_get_value_by_index needed_set i) /\
  (forall w, find_in_indexedintset needed_set w = true ->
     indexedintset_get_index_for_value (fst (add_int_to_indexedintset needed_set 9)) w
     = indexedintset_get_index_for_value needed_set w).
Proof.
  apply (add_int_to_indexedintset_stable needed_set 9). reflexivity.
Defined.

Lemma fold_min_spec (l : list Z) (m0 : Z) :
  fold_left Z.min l m0 <= m0 /\
  (forall x, In x l -> fold_left Z.min l m0 <= x) /\
  (fold_left Z.min l m0 = m0 \/ In (fold_left Z.min l m0) l).
Proof.
  revert m0. induction l as [|a l IH]; intros m0; simpl.
  - split; [lia|]. split; [intros x [] | now left].
  - destruct (IH (Z.min m0 a)) as (H1 & H2 & H3).
    split; [lia|]. split.
    + intros x [<- | Hx]; [lia | now apply H2].
    + destruct H3 as [H3 | H3]; [|right; now right].
      destruct (Z.min_spec m0 a) as [[_ Hm] | [_ Hm]].
      * left. congruence.
      * right. left. congruence.
Qed.

(** X6.  [min_int_in_array] over the first [len] entries of an array of
    ints: the result is at most every one of them and is one of them; with
    no entry to look at ([len <= 0]) it is [INT_MAX]. *)
Theorem min_int_in_array_spec (array : list Z) (len : Z) :
  (forall x, In x array -> x <= INT_MAX) ->
  let looked_at := take (Z.to_nat len) array in
  let m := min_int_in_array array len in
  (forall x, In x looked_at -> m <= x) /\
  (looked_at <> [] -> In m looked_at) /\
  (len <= 0 -> m = INT_MAX).
Proof.
  intros Hint. cbv zeta. unfold min_int_in_array.
  destruct (fold_min_spec (take (Z.to_nat len) array) INT_MAX) as (H1 & H2 & H3).
  split; [exact H2|]. split.
  - intros Hne. destruct H3 as [H3 | H3]; [|exact H3].
    assert (Hex : exists a, In a (take (Z.to_nat len) array)).
    { revert Hne. clear. destruct (take (Z.to_nat len) array) as [|a l];
        [congruence | intros _; exists a; now left]. }
    destruct Hex as [a Ha].
    assert (Ha' : In a array).
    { apply list_elem_of_In. apply (subseteq_take (Z.to_nat len) array).
      now apply list_elem_of_In. }
    pose proof (Hint a Ha'). pose proof (H2 a Ha).
    assert (a = fold_left Z.min (take (Z.to_nat len) array) INT_MAX) by lia.
    congruence.
  - intros Hl. replace (Z.to_nat len) with 0%nat by lia. reflexivity.
Qed.

Lemma min_int_in_array_spec_witness :
  (forall x, In x (take (Z.to_nat 2) three_ints) -> min_int_in_array three_ints 2 <= x) /\
  (take (Z.to_nat 2) three_ints <> [] ->
   In (min_int_in_array three_ints 2) (take (Z.to_nat 2) three_ints)) /\
  (2 <= 0 -> min_int_in_array three_ints 2 = INT_MAX).
Proof.
  apply (min_int_in_array_spec three_ints 2).
  intros x [<- | [<- | [<- | []]]]; unfold INT_MAX; lia.
Defined.

Lemma linklist_shallow_copy_arena_id (ln : list Z) : linklist_shallow_copy_arena ln = ln.
Proof.
  unfold linklist_shallow_copy_arena.
  assert (H : forall acc, fold_left (fun listhead link => listhead ++ [link]) ln acc = acc ++ ln).
  { induction ln as [|a l IH]; intros acc; simpl; [now rewrite app_nil_r|].
    rewrite IH, <- app_assoc. reflexivity. }
  exact (H []).
Qed.

(** [copy_part] gives a part equal to the original: the same plane and
    box, and the three element lists in the same order. *)
Lemma copy_part_same (part : MeshPart) : copy_part part = part.
Proof.
  unfold copy_part. rewrite !linklist_shallow_copy_arena_id. now destruct part.
Qed.

(** ** Canonical planes *)

Lemma canonicalize_plane_unfold (plane : v4) :
  canonicalize_plane plane = if plane_do_negate plane then neg_v4 plane else plane.
Proof. reflexivity. Qed.

Lemma SFopp_involutive (x : spec_float) : SFopp (SFopp x) = x.
Proof. destruct x as [s|s| |s m e]; simpl; try rewrite negb_involutive; reflexivity. Qed.

Lemma SFeqb_opp_zero (x : spec_float) : SFeqb (SFopp x) f0 = SFeqb x f0.
Proof. destruct x as [s|s| |s m e]; try destruct s; reflexivity. Qed.

Lemma SFltb_zero_opp (x : spec_float) : SFltb f0 x = true -> SFltb f0 (SFopp x) = false.
Proof. destruct x as [s|s| |s m e]; try destruct s; simpl; try reflexivity; discriminate. Qed.

Lemma SFltb_zero_opp_neg (x : spec_float) :
  is_nan x = false -> SFeqb x f0 = false -> SFltb f0 (SFopp x) = negb (SFltb f0 x).
Proof. destruct x as [s|s| |s m e]; try destruct s; simpl; try reflexivity; discriminate. Qed.

Lemma neg_v4_involutive (p : v4) : neg_v4 (neg_v4 p) = p.
Proof. destruct p. unfold neg_v4. simpl. now rewrite !SFopp_involutive. Qed.

Lemma plane_do_negate_neg (plane : v4) :
  plane_do_negate plane = true -> plane_do_negate (neg_v4 plane) = false.
Proof.
  unfold plane_do_negate, neg_v4. simpl. rewrite !SFeqb_opp_zero.
  destruct (SFeqb (w4 plane) f0); simpl; [|apply SFltb_zero_opp].
  destruct (SFeqb (z4 plane) f0); simpl; [|apply SFltb_zero_opp].
  destruct (SFeqb (y4 plane) f0); simpl; apply SFltb_zero_opp.
Qed.

(** X7.  [canonicalize_plane] is idempotent: a canonical plane is left as
    it is. *)
Theorem canonicalize_plane_idempotent (plane : v4) :
  canonicalize_plane (canonicalize_plane plane) = canonicalize_plane plane.
Proof.
  rewrite !canonicalize_plane_unfold.
  destruct (plane_do_negate plane) eqn:E.
  - now rewrite (plane_do_negate_neg plane E).
  - now rewrite E.
Qed.

(** X8.  The two representations of a plane have the same canonical
    form: for a plane without NaN components that is not all zero,
    negating all four components does not change the result of
    [canonicalize_plane]. *)
Theorem canonicalize_plane_neg (plane : v4) :
  proper_plane plane ->
  canonicalize_plane (neg_v4 plane) = canonicalize_plane plane.
Proof.
  intros (Hx & Hy & Hz & Hw & Hnz).
  rewrite !canonicalize_plane_unfold, neg_v4_involutive.
  assert (Hn : plane_do_negate (neg_v4 plane) = negb (plane_do_negate plane)).
  { unfold plane_do_negate, neg_v4. simpl. rewrite !SFeqb_opp_zero.
    destruct (SFeqb (w4 plane) f0) eqn:Ew; simpl; [|now apply SFltb_zero_opp_neg].
    destruct (SFeqb (z4 plane) f0) eqn:Ez; simpl; [|now apply SFltb_zero_opp_neg].
    destruct (SFeqb (y4 plane) f0) eqn:Ey; simpl; [|now apply SFltb_zero_opp_neg].
    apply SFltb_zero_opp_neg; [exact Hx|].
    destruct (SFeqb (x4 plane) f0); [discriminate Hnz | reflexivity]. }
  rewrite Hn. now destruct (plane_do_negate plane).
Qed.

Lemma canonicalize_plane_neg_witness :
  canonicalize_plane (neg_v4 (V4 f0 f0 f1 (SFopp f_eighth)))
  = canonicalize_plane (V4 f0 f0 f1 (SFopp f_eighth)).
Proof.
  apply (canonicalize_plane_neg (V4 f0 f0 f1 (SFopp f_eighth))).
  repeat split; reflexivity.
Defined.

(** ** The interpolation factor *)

Lemma dsub_diag (x : double) : is_finite x = true -> dsub x x = d0.
Proof.
  destruct x as [s|s| |s m e]; try discriminate; intros _.
  - now destruct s.
  - unfold dsub, SFsub. rewrite Z.sub_diag. reflexivity.
Qed.

(** On a line given by twice the same finite point,
    [line_interp_factor_v3_db] returns 0 for every [point]: the zero length
    is caught before the division. *)
Lemma line_interp_factor_degenerate (point line_co : v3) :
  finite_v3 line_co -> line_interp_factor_v3_db point line_co line_co = d0.
Proof.
  intros (Hx & Hy & Hz). unfold line_interp_factor_v3_db.
  assert (H : len_squared_v3v3_db line_co line_co = d0).
  { unfold len_squared_v3v3_db, sub_v3_v3v3_db. cbv zeta.
    rewrite (dsub_diag _ Hx), (dsub_diag _ Hy), (dsub_diag _ Hz). reflexivity. }
  rewrite H. reflexivity.
Qed.

(** ** Symmetry and order of the float tests *)

Lemma SFmul_comm (prec emax : Z) (x y : spec_float) : SFmul prec emax x y = SFmul prec emax y x.
Proof.
  destruct x as [sx|sx| |sx mx ex], y as [sy|sy| |sy my ey]; simpl;
    try rewrite (xorb_comm sx sy); try reflexivity.
  now rewrite Pos.mul_comm, Z.add_comm.
Qed.

Lemma SFadd_comm (prec emax : Z) (x y : spec_float) : SFadd prec emax x y = SFadd prec emax y x.
Proof.
  destruct x as [sx|sx| |sx mx ex], y as [sy|sy| |sy my ey]; simpl;
    try (destruct sx, sy; reflexivity); try reflexivity.
  now rewrite Z.add_comm, Z.min_comm.
Qed.

Lemma SFabs_binary_round_aux (prec emax : Z) (s : bool) (m e : Z) (l : location) :
  SFabs (binary_round_aux prec emax s m e l) = SFabs (binary_round_aux prec emax false m e l).
Proof.
  unfold binary_round_aux.
  destruct (shr_fexp prec emax m e l) as [mrs' e'].
  destruct (shr_fexp prec emax _ e' loc_Exact) as [mrs'' e''].
  destruct (shr_m mrs''); try reflexivity.
  destruct (e'' <=? emax - prec); reflexivity.
Qed.

Lemma SFabs_binary_round (prec emax : Z) (s : bool) (m : positive) (e : Z) :
  SFabs (binary_round prec emax s m e) = SFabs (binary_round prec emax false m e).
Proof.
  unfold binary_round. destruct (shl_align m e _) as [mz ez]. apply SFabs_binary_round_aux.
Qed.

Lemma SFabs_binary_normalize_opp (prec emax : Z) (a b e : Z) :
  SFabs (binary_normalize prec emax (a - b) e false)
  = SFabs (binary_normalize prec emax (b - a) e false).
Proof.
  replace (a - b) with (- (b - a)) by lia.
  destruct (b - a) as [|p|p]; simpl; [reflexivity| |];
    [apply SFabs_binary_round | symmetry; apply SFabs_binary_round].
Qed.

Lemma SFabs_SFsub_comm (prec emax : Z) (x y : spec_float) :
  SFabs (SFsub prec emax x y) = SFabs (SFsub prec emax y x).
Proof.
  destruct x as [sx|sx| |sx mx ex], y as [sy|sy| |sy my ey]; simpl;
    try (destruct sx, sy; reflexivity); try reflexivity.
  rewrite (Z.min_comm ey ex). apply SFabs_binary_normalize_opp.
Qed.

Lemma dot_v3v3_db_comm (a b : v3) : dot_v3v3_db a b = dot_v3v3_db b a.
Proof.
  unfold dot_v3v3_db, dmul.
  now rewrite (SFmul_comm _ _ (x3 a)), (SFmul_comm _ _ (y3 a)), (SFmul_comm _ _ (z3 a)).
Qed.

(** X9.  [planes_are_coplanar] is symmetric: the answer does not depend on
    which of the two planes is passed first. *)
Theorem planes_are_coplanar_sym (a_plane b_plane : v4) (eps : double) :
  planes_are_coplanar a_plane b_plane eps = planes_are_coplanar b_plane a_plane eps.
Proof.
  unfold planes_are_coplanar. cbv zeta.
  rewrite (dot_v3v3_db_comm (plane_no b_plane) (plane_no a_plane)).
  unfold dsub, dadd.
  rewrite (SFabs_SFsub_comm _ _ (w4 b_plane) (w4 a_plane)).
  rewrite (SFadd_comm _ _ (w4 b_plane) (w4 a_plane)).
  reflexivity.
Qed.

(** The closeness test of the duplicate check is symmetric. *)
Lemma compare_v3v3_sym (a b : v3) (limit : float) : compare_v3v3 a b limit = compare_v3v3 b a limit.
Proof.
  unfold compare_v3v3, fsub.
  now rewrite (SFabs_SFsub_comm _ _ (x3 a)), (SFabs_SFsub_comm _ _ (y3 a)),
    (SFabs_SFsub_comm _ _ (z3 a)).
Qed.

Lemma SFleb_refl (x : spec_float) : is_nan x = false -> SFleb x x = true.
Proof.
  destruct x as [s|s| |s m e]; try discriminate; intros _; unfold SFleb; simpl.
  - reflexivity.
  - now destruct s.
  - rewrite Z.compare_refl, Pos.compare_cont_refl. now destruct s.
Qed.

Lemma SFleb_total (x y : spec_float) :
  is_nan x = false -> is_nan y = false -> SFleb x y = false -> SFleb y x = true.
Proof.
  destruct x as [sx|sx| |sx mx ex], y as [sy|sy| |sy my ey]; try discriminate;
    intros _ _; unfold SFleb; simpl;
    try (destruct sx; try destruct sy; simpl; congruence);
    try (destruct sy; simpl; congruence).
  assert (Hm : Pos.compare_cont Eq my mx = CompOpp (Pos.compare_cont Eq mx my))
    by (symmetry; apply (Pos.compare_cont_antisym mx my Eq)).
  rewrite (Z.compare_antisym ex ey), Hm.
  destruct sx, sy; simpl; try congruence;
    destruct (ex ?= ey); simpl; try congruence;
    destruct (Pos.compare_cont Eq mx my); simpl; congruence.
Qed.

(** ** Lookups in the mesh *)

Lemma find_co_cb_lowest (v index : Z) : find_co_cb v index = lowest v index.
Proof.
  unfold find_co_cb, lowest. destruct (v =? -1); simpl; [reflexivity|].
  destruct (index <? v) eqn:E; lia.
Qed.

Lemma fold_find_co_cb (nodes : list (Z * v3)) (v0 : Z) :
  fold_left (fun v node => find_co_cb v (fst node)) nodes v0
  = fold_left lowest (map fst nodes) v0.
Proof.
  revert v0. induction nodes as [|n nodes IH]; intros v0; simpl; [reflexivity|].
  now rewrite IH, find_co_cb_lowest.
Qed.

Lemma range_search_indices (im : IMesh) (co : v3) (eps : double) (i : Z) :
  In i (map fst (BLI_kdtree_3d_range_search (make_im_co_tree im) (copy_v3fl_v3db co)
                   (fl_of_db eps)))
  <-> 0 <= i /\ vert_in_range im co eps i = true.
Proof.
  unfold BLI_kdtree_3d_range_search, make_im_co_tree, vert_in_range, at_index.
  rewrite <- list_elem_of_In, list_elem_of_fmap. split.
  - intros ([j c] & -> & Hin). apply list_elem_of_filter in Hin. destruct Hin as [Hok Hin].
    apply elem_of_lookup_imap in Hin. destruct Hin as (k & c' & [= -> ->] & Hk).
    simpl in *. split; [lia|].
    destruct (Z.ltb_spec (Z.of_nat k) 0) as [E | E]; [lia|]. now rewrite Nat2Z.id, Hk.
  - intros [Hi Hr]. destruct (i <? 0) eqn:E; [lia|].
    destruct (im_verts im !! Z.to_nat i) as [c|] eqn:Hc; [|discriminate].
    exists (i, c). split; [reflexivity|].
    apply list_elem_of_filter. split; [exact Hr|].
    apply elem_of_lookup_imap. exists (Z.to_nat i), c. split; [|exact Hc].
    f_equal. lia.
Qed.

(** X10.  [imesh_find_co_db] returns -1 exactly when no vertex of the mesh
    passes the range test around [co]; otherwise it returns the index of a
    vertex that passes, and no vertex of lower index does. *)
Theorem imesh_find_co_db_lowest (im : IMesh) (co : v3) (eps : double) :
  let v := imesh_find_co_db im co eps in
  (v = -1 /\ forall u, vert_in_range im co eps u = false) \/
  (0 <= v < imesh_totvert im /\ vert_in_range im co eps v = true /\
   forall u, u < v -> vert_in_range im co eps u = false).
Proof.
  cbv zeta. unfold imesh_find_co_db. rewrite fold_find_co_cb.
  set (l := map fst (BLI_kdtree_3d_range_search (make_im_co_tree im) (copy_v3fl_v3db co)
                       (fl_of_db eps))).
  assert (Hl : forall i, In i l <-> 0 <= i /\ vert_in_range im co eps i = true)
    by (intros i; apply range_search_indices).
  assert (Hneg : forall u, u < 0 -> vert_in_range im co eps u = false).
  { intros u Hu. unfold vert_in_range, at_index. destruct (u <? 0) eqn:E; [reflexivity | lia]. }
  destruct (lowest_fold l (-1)) as (H1 & _ & H3 & H4);
    [intros i Hi; now apply Hl | now left |].
  destruct l as [|a l'] eqn:El.
  - left. split; [reflexivity|]. intros u.
    destruct (vert_in_range im co eps u) eqn:Eu; [|reflexivity].
    destruct (Z_lt_le_dec u 0) as [Hu | Hu]; [now rewrite Hneg in Eu|].
    exfalso. apply (proj2 (Hl u)). now split.
  - right. rewrite <- El in *. 
    assert (Hne : l <> []) by (rewrite El; discriminate).
    specialize (H4 Hne).
    destruct H1 as [H1 | H1]; [lia|].
    apply Hl in H1. destruct H1 as [Hv Hr]. split; [|split; [exact Hr|]].
    + split; [exact Hv|]. unfold vert_in_range, at_index in Hr.
      destruct (fold_left lowest l (-1) <? 0); [discriminate|].
      destruct (im_verts im !! Z.to_nat (fold_left lowest l (-1))) eqn:Hc; [|discriminate].
      apply lookup_lt_Some in Hc. unfold imesh_totvert. lia.
    + intros u Hu. destruct (vert_in_range im co eps u) eqn:Eu; [|reflexivity].
      destruct (Z_lt_le_dec u 0) as [Hu0 | Hu0]; [now rewrite Hneg in Eu|].
      assert (In u l) by (apply Hl; now split).
      pose proof (H3 u H). lia.
Qed.

(** X11.  [imesh_find_edge] returns -1 or the index of an edge of the mesh
    that joins the two vertices, in either order; when it returns -1 for
    two vertex indices below the vertex count, the mesh has no edge between
    them. *)
Theorem imesh_find_edge_spec (im : IMesh) (v1 v2 : Z) :
  let e := imesh_find_edge im v1 v2 in
  (e = -1 /\
   (v1 < imesh_totvert im -> v2 < imesh_totvert im ->
    forall ed, In ed (im_edges im) -> ~ edge_joins ed v1 v2)) \/
  (0 <= e < imesh_totedge im /\ edge_joins (imesh_get_edge_verts im e) v1 v2).
Proof.
  cbv zeta. unfold imesh_find_edge.
  destruct ((imesh_totvert im <=? v1) || (imesh_totvert im <=? v2)) eqn:E.
  - left. split; [reflexivity|]. intros H1 H2.
    apply orb_true_iff in E. destruct E as [E | E]; lia.
  - destruct (find_edge_from_spec (im_edges im) 0 v1 v2) as [[H1 H2] | (n & ed & H1 & H2 & H3)].
    + left. split; [exact H1|]. intros _ _. apply H2. lia.
    + right. rewrite H1. pose proof (lookup_lt_Some _ _ _ H2) as Hn.
      unfold imesh_totedge. split; [lia|].
      unfold imesh_get_edge_verts, at_index.
      destruct (0 + Z.of_nat n <? 0) eqn:E0; [lia|].
      replace (Z.to_nat (0 + Z.of_nat n)) with n by lia. rewrite H2.
      now destruct ed.
Qed.

(** ** The add buffer *)

Lemma find_dup_vert_spec (vs : list NewVert) (i : Z) (co : v3) (feps : float) :
  match find_dup_vert vs i co feps with
  | Some r =>
      exists (n : nat) (nv : NewVert),
        r = i + Z.of_nat n /\ vs !! n = Some nv /\ compare_v3v3 (nv_co nv) co feps = true /\
        forall k nv', (k < n)%nat -> vs !! k = Some nv' ->
                      compare_v3v3 (nv_co nv') co feps = false
  | None => forall nv, In nv vs -> compare_v3v3 (nv_co nv) co feps = false
  end.
Proof.
  revert i. induction vs as [|newv vs IH]; intros i; simpl; [intros nv []|].
  destruct (compare_v3v3 (nv_co newv) co feps) eqn:E.
  - exists 0%nat, newv. split; [lia|]. split; [reflexivity|]. split; [exact E|].
    intros k nv' Hk. lia.
  - specialize (IH (i + 1)). destruct (find_dup_vert vs (i + 1) co feps) as [r|].
    + destruct IH as (n & nv & -> & H1 & H2 & H3).
      exists (S n), nv. split; [lia|]. split; [exact H1|]. split; [exact H2|].
      intros [|k] nv' Hk; simpl; [intros [= <-]; exact E | apply H3; lia].
    + intros nv [<- | Hin]; [exact E | now apply IH].
Qed.

Lemma meshadd_get_newvert_at (meshadd : MeshAdd) (n : nat) (nv : NewVert) :
  ma_verts meshadd !! n = Some nv ->
  meshadd_get_newvert meshadd (vindex_start meshadd + Z.of_nat n) = Some nv.
Proof.
  intros H. pose proof (lookup_lt_Some _ _ _ H) as Hn.
  unfold meshadd_get_newvert, meshadd_totvert.
  replace (vindex_start meshadd + Z.of_nat n - vindex_start meshadd) with (Z.of_nat n) by lia.
  destruct (Z.leb_spec 0 (Z.of_nat n)); [|lia].
  destruct (Z.ltb_spec (Z.of_nat n) (Z.of_nat (length (ma_verts meshadd)))); [|lia].
  simpl. now rewrite Nat2Z.id.
Qed.

(** X12.  [meshadd_add_vert] with the duplicate check: the index returned
    names a staged vertex; either that vertex was staged before, is the
    first one within [eps] of [co] in every coordinate, and the buffer is
    unchanged, or no staged vertex is within [eps] of [co] and the vertex is
    a new last one holding [co] and the example. *)
Theorem meshadd_add_vert_dedup (eps : double) (meshadd : MeshAdd) (co : v3) (example : Z) :
  let meshadd' := fst (meshadd_add_vert eps meshadd co example true) in
  let v := snd (meshadd_add_vert eps meshadd co example true) in
  exists nv, meshadd_get_newvert meshadd' v = Some nv /\
    ((meshadd' = meshadd /\ compare_v3v3 (nv_co nv) co (fl_of_db eps) = true /\
      forall u nv', vindex_start meshadd <= u < v -> meshadd_get_newvert meshadd u = Some nv' ->
                    compare_v3v3 (nv_co nv') co (fl_of_db eps) = false) \/
     (nv = mkNewVert co example /\
      ma_verts meshadd' = ma_verts meshadd ++ [nv] /\
      v = vindex_start meshadd + meshadd_totvert meshadd /\
      forall old, In old (ma_verts meshadd) ->
                  compare_v3v3 (nv_co old) co (fl_of_db eps) = false)).
Proof.
  cbv zeta. unfold meshadd_add_vert.
  pose proof (find_dup_vert_spec (ma_verts meshadd) 0 co (fl_of_db eps)) as H.
  destruct (find_dup_vert (ma_verts meshadd) 0 co (fl_of_db eps)) as [r|].
  - destruct H as (n & nv & -> & H1 & H2 & H3). simpl.
    exists nv. replace (0 + Z.of_nat n) with (Z.of_nat n) by lia.
    split; [now apply meshadd_get_newvert_at|].
    left. split; [reflexivity|]. split; [exact H2|].
    intros u nv' Hu Hget. unfold meshadd_get_newvert in Hget.
    destruct ((0 <=? u - vindex_start meshadd) &&
              (u - vindex_start meshadd <? meshadd_totvert meshadd)); [|discriminate].
    apply (H3 (Z.to_nat (u - vindex_start meshadd)) nv'); [lia | exact Hget].
  - unfold meshadd_push_vert. simpl. exists (mkNewVert co example). split.
    + unfold meshadd_get_newvert, meshadd_totvert. simpl. rewrite length_app. simpl.
      set (n := length (ma_verts meshadd)).
      replace (vindex_start meshadd + (Z.of_nat n + 1) - 1 - vindex_start meshadd)
        with (Z.of_nat n) by lia.
      destruct (Z.leb_spec 0 (Z.of_nat n)); [|lia].
      destruct (Z.ltb_spec (Z.of_nat n) (Z.of_nat (n + 1))); [|lia].
      simpl. rewrite Nat2Z.id, lookup_app_r by (unfold n; lia).
      unfold n. now rewrite Nat.sub_diag.
    + right. split; [reflexivity|]. split; [reflexivity|]. split; [lia | exact H].
Qed.

Lemma meshadd_add_vert_cases (eps : double) (meshadd : MeshAdd) (co : v3) (example : Z) :
  fst (meshadd_add_vert eps meshadd co example true) = meshadd \/
  (ma_verts (fst (meshadd_add_vert eps meshadd co example true))
   = ma_verts meshadd ++ [mkNewVert co example] /\
   forall old, In old (ma_verts meshadd) ->
               compare_v3v3 (nv_co old) co (fl_of_db eps) = false).
Proof.
  unfold meshadd_add_vert.
  pose proof (find_dup_vert_spec (ma_verts meshadd) 0 co (fl_of_db eps)) as H.
  destruct (find_dup_vert (ma_verts meshadd) 0 co (fl_of_db eps)); [now left|].
  right. split; [reflexivity | exact H].
Qed.

Lemma meshadd_add_verts_app (eps : double) (meshadd : MeshAdd) (cos : list (v3 * Z))
    (co_ex : v3 * Z) :
  meshadd_add_verts eps meshadd (cos ++ [co_ex])
  = fst (meshadd_add_vert eps (meshadd_add_verts eps meshadd cos) (fst co_ex) (snd co_ex) true).
Proof. unfold meshadd_add_verts. now rewrite fold_left_app. Qed.

Lemma meshadd_verts_apart_lt (im : IMesh) (eps : double) (cos : list (v3 * Z)) :
  forall (i j : nat) (a b : NewVert),
    (i < j)%nat ->
    ma_verts (meshadd_add_verts eps (init_meshadd im) cos) !! i = Some a ->
    ma_verts (meshadd_add_verts eps (init_meshadd im) cos) !! j = Some b ->
    compare_v3v3 (nv_co a) (nv_co b) (fl_of_db eps) = false.
Proof.
  induction cos as [|co_ex cos IH] using rev_ind.
  - intros i j a b _ H. discriminate H.
  - rewrite meshadd_add_verts_app.
    set (ma := meshadd_add_verts eps (init_meshadd im) cos) in *.
    destruct (meshadd_add_vert_cases eps ma (fst co_ex) (snd co_ex)) as [-> | [Hv Hfar]];
      [exact IH|].
    + rewrite Hv.
      intros i j a b Hij Ha Hb.
      destruct (Nat.lt_ge_cases j (length (ma_verts ma))) as [Hj | Hj].
      * rewrite lookup_app_l in Ha, Hb by lia. exact (IH i j a b Hij Ha Hb).
      * rewrite lookup_app_r in Hb by lia.
        destruct (j - length (ma_verts ma))%nat as [|k] eqn:Ek; [|destruct k; discriminate Hb].
        injection Hb as <-. simpl.
        rewrite lookup_app_l in Ha by lia.
        apply Hfar. apply list_elem_of_In. eapply list_elem_of_lookup_2. exact Ha.
Qed.

(** X13.  Staged vertices stay apart: in a buffer filled from the empty
    one by [meshadd_add_vert] with the duplicate check on, no two staged
    vertices are within [eps] of each other (in every coordinate, by the
    test of the check). *)
Theorem meshadd_verts_apart (im : IMesh) (eps : double) (cos : list (v3 * Z)) :
  let meshadd := meshadd_add_verts eps (init_meshadd im) cos in
  forall (i j : nat) (a b : NewVert),
    i <> j -> ma_verts meshadd !! i = Some a -> ma_verts meshadd !! j = Some b ->
    compare_v3v3 (nv_co a) (nv_co b) (fl_of_db eps) = false.
Proof.
  cbv zeta. intros i j a b Hij Ha Hb.
  destruct (Nat.lt_gt_cases i j) as [H _]. destruct (H Hij) as [Hlt | Hgt].
  - exact (meshadd_verts_apart_lt im eps cos i j a b Hlt Ha Hb).
  - rewrite compare_v3v3_sym. exact (meshadd_verts_apart_lt im eps cos j i b a Hgt Hb Ha).
Qed.

Lemma meshadd_verts_apart_witness :
  compare_v3v3 (nv_co (mkNewVert (V3 f1 f0 f0) (-1))) (nv_co (mkNewVert (V3 f0 f0 f0) (-1)))
               (fl_of_db eps_2_10) = false.
Proof.
  apply (meshadd_verts_apart tri_mesh eps_2_10
           [(V3 f0 f0 f0, -1); (V3 f0 f0 f0, 7); (V3 f1 f0 f0, -1)] 1%nat 0%nat).
  - lia.
  - vm_compute. reflexivity.
  - vm_compute. reflexivity.
Defined.

(** X14.  Round trip of a new edge: when the edge hash has no entry for
    the pair, [meshadd_add_edge] appends the edge and returns its extended
    index, [find_edge_by_verts_in_meshadd] finds that index from the two
    vertices in either order, and [meshadd_get_edge_verts] at that index
    gives the two vertices back in the order they were given. *)
Theorem meshadd_add_edge_round_trip (meshadd : MeshAdd) (v1 v2 example : Z)
    (checkdup : bool) :
  BLI_edgehash_lookup_default (edge_hash meshadd) (to_uint v1) (to_uint v2) (-1) = -1 ->
  let meshadd' := fst (meshadd_add_edge meshadd v1 v2 example checkdup) in
  let e := snd (meshadd_add_edge meshadd v1 v2 example checkdup) in
  e = eindex_start meshadd + meshadd_totedge meshadd /\
  ma_edges meshadd' = ma_edges meshadd ++ [mkNewEdge v1 v2 example] /\
  find_edge_by_verts_in_meshadd meshadd' v1 v2 = e /\
  find_edge_by_verts_in_meshadd meshadd' v2 v1 = e /\
  meshadd_get_edge_verts meshadd' e = (v1, v2).
Proof.
  intros Hi. cbv zeta.
  assert (Hadd : meshadd_add_edge meshadd v1 v2 example checkdup
                 = meshadd_push_edge meshadd v1 v2 example).
  { unfold meshadd_add_edge. rewrite Hi. now destruct checkdup. }
  rewrite Hadd. unfold meshadd_push_edge. simpl.
  assert (Hfind : forall a b, edge_key a b = edge_key (to_uint v1) (to_uint v2) ->
            BLI_edgehash_lookup_default
              (BLI_edgehash_insert (edge_hash meshadd) (to_uint v1) (to_uint v2)
                                   (meshadd_totedge meshadd)) a b (-1)
            = meshadd_totedge meshadd).
  { intros a b Hab. unfold BLI_edgehash_lookup_default, BLI_edgehash_insert.
    now rewrite Hab, lookup_insert_eq. }
  assert (Htot : 0 <= meshadd_totedge meshadd) by (unfold meshadd_totedge; lia).
  split; [lia|]. split; [reflexivity|].
  unfold find_edge_by_verts_in_meshadd. simpl.
  rewrite (Hfind _ _ eq_refl), (Hfind _ _ (edge_key_comm _ _)).
  destruct (meshadd_totedge meshadd =? -1) eqn:E; [lia|]. simpl.
  split; [lia|]. split; [lia|].
  unfold meshadd_get_edge_verts, meshadd_get_newedge, meshadd_totedge in *. simpl.
  rewrite length_app. simpl.
  set (n := length (ma_edges meshadd)) in *.
  replace (eindex_start meshadd + (Z.of_nat n + 1) - 1 - eindex_start meshadd)
    with (Z.of_nat n) by lia.
  destruct (Z.leb_spec 0 (Z.of_nat n)); [|lia].
  destruct (Z.ltb_spec (Z.of_nat n) (Z.of_nat (n + 1))); [|lia].
  simpl. rewrite Nat2Z.id, lookup_app_r by (unfold n; lia).
  unfold n. now rewrite Nat.sub_diag.
Qed.

Lemma meshadd_add_edge_round_trip_witness :
  snd (meshadd_add_edge cube_meshadd 8 9 (-1) true) = 12 + 0 /\
  ma_edges (fst (meshadd_add_edge cube_meshadd 8 9 (-1) true)) = [] ++ [mkNewEdge 8 9 (-1)] /\
  find_edge_by_verts_in_meshadd (fst (meshadd_add_edge cube_meshadd 8 9 (-1) true)) 8 9
  = snd (meshadd_add_edge cube_meshadd 8 9 (-1) true) /\
  find_edge_by_verts_in_meshadd (fst (meshadd_add_edge cube_meshadd 8 9 (-1) true)) 9 8
  = snd (meshadd_add_edge cube_meshadd 8 9 (-1) true) /\
  meshadd_get_edge_verts (fst (meshadd_add_edge cube_meshadd 8 9 (-1) true))
                         (snd (meshadd_add_edge cube_meshadd 8 9 (-1) true)) = (8, 9).
Proof.
  apply (meshadd_add_edge_round_trip cube_meshadd 8 9 (-1) true). reflexivity.
Defined.

Lemma edge_hash_ok_init (im : IMesh) : edge_hash_ok (init_meshadd im).
Proof.
  unfold edge_hash_ok, init_meshadd, imesh_totedge. simpl. split; [lia|]. split.
  - intros key i H. rewrite lookup_empty in H. discriminate.
  - intros ne [].
Qed.

Lemma edge_hash_ok_push_edge (meshadd : MeshAdd) (v1 v2 example : Z) :
  edge_hash_ok meshadd -> edge_hash_ok (fst (meshadd_push_edge meshadd v1 v2 example)).
Proof.
  intros (H0 & H1 & H2). unfold edge_hash_ok, meshadd_push_edge, BLI_edgehash_insert. simpl.
  split; [exact H0|]. split.
  - intros key i. 
    destruct (decide (edge_key (to_uint v1) (to_uint v2) = key)) as [<- | Hne].
    + rewrite lookup_insert_eq. intros [= <-]. unfold meshadd_totedge.
      split; [lia|]. exists (mkNewEdge v1 v2 example). split; [|reflexivity].
      rewrite Nat2Z.id, lookup_app_r by lia. now rewrite Nat.sub_diag.
    + rewrite lookup_insert_ne by exact Hne. intros H.
      destruct (H1 key i H) as (Hi & ne & Hne1 & Hne2). split; [exact Hi|].
      exists ne. split; [|exact Hne2]. apply lookup_app_l_Some. exact Hne1.
  - intros ne Hin. apply in_app_or in Hin.
    destruct (decide (edge_key (to_uint v1) (to_uint v2) = newedge_key ne)) as [<- | Hne].
    + rewrite lookup_insert_eq. eauto.
    + rewrite lookup_insert_ne by exact Hne.
      destruct Hin as [Hin | [<- | []]]; [now apply H2|]. now contradiction Hne.
Qed.

Lemma edge_hash_ok_do (eps : double) (meshadd : MeshAdd) (op : MeshAddOp) :
  edge_hash_ok meshadd -> edge_hash_ok (meshadd_do eps meshadd op).
Proof.
  intros Hok. destruct op as [co example checkdup | v1 v2 example checkdup | ve len example other];
    simpl.
  - unfold meshadd_add_vert.
    destruct checkdup; [destruct (find_dup_vert _ _ _ _)|]; exact Hok.
  - unfold meshadd_add_edge. destruct checkdup; [|now apply edge_hash_ok_push_edge].
    destruct (negb _); [exact Hok | now apply edge_hash_ok_push_edge].
  - exact Hok.
Qed.

Lemma edge_hash_ok_after (im : IMesh) (eps : double) (ops : list MeshAddOp) :
  edge_hash_ok (meshadd_after im eps ops).
Proof.
  unfold meshadd_after. induction ops as [|op ops IH] using rev_ind.
  - apply edge_hash_ok_init.
  - rewrite fold_left_app. simpl. now apply edge_hash_ok_do.
Qed.

(** X15.  In any buffer built from the empty one by the add functions,
    [find_edge_by_verts_in_meshadd] returns -1 exactly when no staged edge
    joins the two vertices; otherwise it returns the extended index of a
    staged edge that joins them (as unsigned numbers, in either order). *)
Theorem find_edge_by_verts_in_meshadd_spec (im : IMesh) (eps : double)
    (ops : list MeshAddOp) (v1 v2 : Z) :
  let meshadd := meshadd_after im eps ops in
  let e := find_edge_by_verts_in_meshadd meshadd v1 v2 in
  (e = -1 /\
   forall ne, In ne (ma_edges meshadd) ->
              newedge_key ne <> edge_key (to_uint v1) (to_uint v2)) \/
  (eindex_start meshadd <= e < eindex_start meshadd + meshadd_totedge meshadd /\
   exists ne, meshadd_get_newedge meshadd e = Some ne /\
              newedge_key ne = edge_key (to_uint v1) (to_uint v2)).
Proof.
  cbv zeta. destruct (edge_hash_ok_after im eps ops) as (H0 & H1 & H2).
  set (meshadd := meshadd_after im eps ops) in *.
  unfold find_edge_by_verts_in_meshadd, BLI_edgehash_lookup_default.
  destruct (edge_hash meshadd !! edge_key (to_uint v1) (to_uint v2)) as [i|] eqn:F.
  - destruct (H1 _ _ F) as (Hi & ne & Hne1 & Hne2).
    pose proof (lookup_lt_Some _ _ _ Hne1) as Hlt.
    destruct (i =? -1) eqn:E; [lia|]. simpl. right.
    unfold meshadd_totedge. split; [lia|]. exists ne. split; [|exact Hne2].
    unfold meshadd_get_newedge, meshadd_totedge.
    replace (eindex_start meshadd + i - eindex_start meshadd) with i by lia.
    destruct (Z.leb_spec 0 i); [|lia].
    destruct (Z.ltb_spec i (Z.of_nat (length (ma_edges meshadd)))); [|lia].
    exact Hne1.
  - simpl. left. split; [reflexivity|]. intros ne Hin Hkey.
    destruct (H2 ne Hin) as [i Hi]. rewrite Hkey in Hi. congruence.
Qed.

(** ** Staged faces *)

Lemma meshadd_get_newface_last (meshadd : MeshAdd) (nf : NewFace) (vs : list NewVert)
    (es : list NewEdge) (eh : gmap (Z * Z) Z) (g : Z) :
  meshadd_get_newface
    (mkMeshAdd vs es (ma_faces meshadd ++ [nf]) eh (vindex_start meshadd)
               (eindex_start meshadd) (findex_start meshadd)) g
  = if g =? findex_start meshadd + meshadd_totface meshadd then Some nf
    else meshadd_get_newface meshadd g.
Proof.
  unfold meshadd_get_newface, meshadd_totface. simpl. rewrite length_app. simpl.
  set (n := length (ma_faces meshadd)).
  destruct (Z.eqb_spec g (findex_start meshadd + Z.of_nat n)) as [-> | Hne].
  - replace (findex_start meshadd + Z.of_nat n - findex_start meshadd) with (Z.of_nat n) by lia.
    destruct (Z.leb_spec 0 (Z.of_nat n)); [|lia].
    destruct (Z.ltb_spec (Z.of_nat n) (Z.of_nat (n + 1))); [|lia].
    simpl. rewrite Nat2Z.id, lookup_app_r by (unfold n; lia).
    unfold n. now rewrite Nat.sub_diag.
  - destruct (Z.leb_spec 0 (g - findex_start meshadd)); simpl; [|reflexivity].
    destruct (Z.ltb_spec (g - findex_start meshadd) (Z.of_nat (n + 1)));
      destruct (Z.ltb_spec (g - findex_start meshadd) (Z.of_nat n)); try lia; try reflexivity.
    apply lookup_app_l. unfold n in *. lia.
Qed.

(** X16.  Round trip of a staged face: [meshadd_add_face] returns the
    next free extended index; at that index [meshadd_facelen] gives the
    length that was passed and [meshadd_face_vert] the vertex of each pair
    within that length; every other face index reads as before. *)
Theorem meshadd_add_face_round_trip (meshadd : MeshAdd) (vert_edge : list IntPair)
    (len example : Z) (other : option IntSet) :
  let meshadd' := fst (meshadd_add_face meshadd vert_edge len example other) in
  let f := snd (meshadd_add_face meshadd vert_edge len example other) in
  f = findex_start meshadd + meshadd_totface meshadd /\
  meshadd_facelen meshadd' f = len /\
  (forall index keyval,
     0 <= index < len -> vert_edge !! Z.to_nat index = Some keyval ->
     meshadd_face_vert meshadd' f index = first keyval) /\
  (forall g index, g <> f ->
     meshadd_facelen meshadd' g = meshadd_facelen meshadd g /\
     meshadd_face_vert meshadd' g index = meshadd_face_vert meshadd g index).
Proof.
  cbv zeta. unfold meshadd_add_face. simpl.
  replace (findex_start meshadd + (meshadd_totface meshadd + 1) - 1)
    with (findex_start meshadd + meshadd_totface meshadd) by lia.
  split; [reflexivity|].
  unfold meshadd_facelen, meshadd_face_vert. rewrite !meshadd_get_newface_last.
  rewrite Z.eqb_refl. simpl. split; [reflexivity|]. split.
  - intros index keyval Hi Hk.
    destruct (Z.leb_spec 0 index); [|lia]. destruct (Z.ltb_spec index len); [|lia].
    simpl. now rewrite Hk.
  - intros g index Hg. rewrite !meshadd_get_newface_last.
    destruct (Z.eqb_spec g (findex_start meshadd + meshadd_totface meshadd)); [contradiction|].
    split; reflexivity.
Qed.

(** X17.  The normal of a staged face whose example is a face of the
    mesh: [meshadd_get_face_no] writes the normal of the example face when
    the example index is not 0; for a face staged with host face 0 as its
    example the test [if (nf->example)] fails and the caller's vector is
    left as it was. *)
Theorem meshadd_get_face_no_example (im : IMesh) (meshadd : MeshAdd)
    (vert_edge : list IntPair) (len example : Z) (other : option IntSet) (r_no : v3)
    (bmf : BMFace) :
  0 <= example < imesh_totface im ->
  im_faces im !! Z.to_nat example = Some bmf ->
  let meshadd' := fst (meshadd_add_face meshadd vert_edge len example other) in
  let f := snd (meshadd_add_face meshadd vert_edge len example other) in
  meshadd_get_face_no im meshadd' f r_no
  = Some (if example =? 0 then r_no else copy_v3db_v3fl (f_no bmf)).
Proof.
  intros Hex Hbmf. cbv zeta. unfold meshadd_add_face, meshadd_get_face_no. simpl.
  replace (findex_start meshadd + (meshadd_totface meshadd + 1) - 1)
    with (findex_start meshadd + meshadd_totface meshadd) by lia.
  rewrite meshadd_get_newface_last, Z.eqb_refl. simpl. unfold c_bool.
  destruct (example =? 0); [reflexivity|]. cbn [negb].
  unfold imesh_get_face_no, at_index.
  destruct (Z.ltb_spec example 0); [lia|]. now rewrite Hbmf.
Qed.

Lemma meshadd_get_face_no_example_witness :
  meshadd_get_face_no planes_mesh
    (fst (meshadd_add_face (init_meshadd planes_mesh) [] 0 0 None))
    (snd (meshadd_add_face (init_meshadd planes_mesh) [] 0 0 None)) (V3 d1 d2 d4)
  = Some (V3 d1 d2 d4) /\
  meshadd_get_face_no planes_mesh
    (fst (meshadd_add_face (init_meshadd planes_mesh) [] 0 1 None))
    (snd (meshadd_add_face (init_meshadd planes_mesh) [] 0 1 None)) (V3 d1 d2 d4)
  = imesh_get_face_no planes_mesh 1.
Proof.
  split.
  - destruct (im_faces planes_mesh !! Z.to_nat 0) as [bmf|] eqn:E; [|discriminate E].
    apply (meshadd_get_face_no_example planes_mesh (init_meshadd planes_mesh) [] 0 0 None
             (V3 d1 d2 d4) bmf); [vm_compute; split; congruence | exact E].
  - destruct (im_faces planes_mesh !! Z.to_nat 1) as [bmf|] eqn:E; [|discriminate E].
    rewrite (meshadd_get_face_no_example planes_mesh (init_meshadd planes_mesh) [] 0 1 None
               (V3 d1 d2 d4) bmf); [| vm_compute; split; congruence | exact E].
    unfold imesh_get_face_no, at_index. cbn [Z.ltb Z.compare]. now rewrite E.
Defined.

(** ** The mesh with its additions *)

Lemma meshadd_do_vindex_start (eps : double) (meshadd : MeshAdd) (op : MeshAddOp) :
  vindex_start (meshadd_do eps meshadd op) = vindex_start meshadd.
Proof.
  destruct op as [co example checkdup | v1 v2 example checkdup | ve len example other]; simpl.
  - unfold meshadd_add_vert. destruct checkdup; [destruct (find_dup_vert _ _ _ _)|]; reflexivity.
  - unfold meshadd_add_edge. destruct checkdup; [destruct (negb _)|]; reflexivity.
  - reflexivity.
Qed.

Lemma meshadd_after_vindex_start (im : IMesh) (eps : double) (ops : list MeshAddOp) :
  vindex_start (meshadd_after im eps ops) = imesh_totvert im.
Proof.
  unfold meshadd_after. induction ops as [|op ops IH] using rev_ind; [reflexivity|].
  rewrite fold_left_app. simpl. now rewrite meshadd_do_vindex_start.
Qed.

Lemma meshadd_get_newvert_app (meshadd : MeshAdd) (nv : NewVert) (es : list NewEdge)
    (fs : list NewFace) (eh : gmap (Z * Z) Z) (u : Z) :
  meshadd_get_newvert
    (mkMeshAdd (ma_verts meshadd ++ [nv]) es fs eh (vindex_start meshadd)
               (eindex_start meshadd) (findex_start meshadd)) u
  = if u =? vindex_start meshadd + meshadd_totvert meshadd then Some nv
    else meshadd_get_newvert meshadd u.
Proof.
  unfold meshadd_get_newvert, meshadd_totvert. simpl. rewrite length_app. simpl.
  set (n := length (ma_verts meshadd)).
  destruct (Z.eqb_spec u (vindex_start meshadd + Z.of_nat n)) as [-> | Hne].
  - replace (vindex_start meshadd + Z.of_nat n - vindex_start meshadd) with (Z.of_nat n) by lia.
    destruct (Z.leb_spec 0 (Z.of_nat n)); [|lia].
    destruct (Z.ltb_spec (Z.of_nat n) (Z.of_nat (n + 1))); [|lia].
    simpl. rewrite Nat2Z.id, lookup_app_r by (unfold n; lia).
    unfold n. now rewrite Nat.sub_diag.
  - destruct (Z.leb_spec 0 (u - vindex_start meshadd)); simpl; [|reflexivity].
    destruct (Z.ltb_spec (u - vindex_start meshadd) (Z.of_nat (n + 1)));
      destruct (Z.ltb_spec (u - vindex_start meshadd) (Z.of_nat n)); try lia; try reflexivity.
    apply lookup_app_l. unfold n in *. lia.
Qed.

(** X18.  Staging a vertex and reading it back through [IMeshPlus]: in a
    buffer built from the empty one over the mesh, the index returned by
    [meshadd_add_vert_db] is not below the vertex count of the mesh, the
    coordinate read at it is [co] rounded to [float] or a staged vertex
    within [eps] of that, and every index other than the next free one
    reads as before. *)
Theorem imeshplus_add_vert (im : IMesh) (eps : double) (ops : list MeshAddOp) (co : v3)
    (example : Z) :
  let meshadd := meshadd_after im eps ops in
  let meshadd' := fst (meshadd_add_vert_db eps meshadd co example true) in
  let v := snd (meshadd_add_vert_db eps meshadd co example true) in
  imesh_totvert im <= v /\
  (imeshplus_get_vert_co (init_imeshplus im meshadd') v = copy_v3fl_v3db co \/
   compare_v3v3 (imeshplus_get_vert_co (init_imeshplus im meshadd') v) (copy_v3fl_v3db co)
                (fl_of_db eps) = true) /\
  (forall u, u <> imesh_totvert im + meshadd_totvert meshadd ->
     imeshplus_get_vert_co (init_imeshplus im meshadd') u
     = imeshplus_get_vert_co (init_imeshplus im meshadd) u).
Proof.
  cbv zeta. pose proof (meshadd_after_vindex_start im eps ops) as Hstart.
  set (meshadd := meshadd_after im eps ops) in *.
  unfold meshadd_add_vert_db, meshadd_add_vert, imeshplus_get_vert_co, init_imeshplus,
    meshadd_get_vert_co. simpl.
  pose proof (find_dup_vert_spec (ma_verts meshadd) 0 (copy_v3fl_v3db co) (fl_of_db eps)) as H.
  destruct (find_dup_vert (ma_verts meshadd) 0 (copy_v3fl_v3db co) (fl_of_db eps)) as [r|].
  - destruct H as (n & nv & -> & H1 & H2 & _). simpl.
    split; [lia|]. split; [|reflexivity].
    destruct (Z.ltb_spec (vindex_start meshadd + (0 + Z.of_nat n)) (imesh_totvert im)); [lia|].
    right. replace (0 + Z.of_nat n) with (Z.of_nat n) by lia.
    now rewrite (meshadd_get_newvert_at meshadd n nv H1).
  - unfold meshadd_push_vert. simpl.
    assert (Htot : 0 <= meshadd_totvert meshadd) by (unfold meshadd_totvert; lia).
    split; [lia|]. split.
    + destruct (Z.ltb_spec (vindex_start meshadd + (meshadd_totvert meshadd + 1) - 1)
                           (imesh_totvert im)); [lia|].
      left. rewrite meshadd_get_newvert_app.
      replace (vindex_start meshadd + (meshadd_totvert meshadd + 1) - 1)
        with (vindex_start meshadd + meshadd_totvert meshadd) by lia.
      now rewrite Z.eqb_refl.
    + intros u Hu. destruct (u <? imesh_totvert im); [reflexivity|].
      rewrite meshadd_get_newvert_app.
      destruct (Z.eqb_spec u (vindex_start meshadd + meshadd_totvert meshadd)); [lia|].
      reflexivity.
Qed.

(** ** The delete bitmaps *)

Lemma test_set_bit (bmap : list bool) (i j : Z) (b : bool) :
  0 <= i < Z.of_nat (length bmap) ->
  test_bit (set_bit bmap i b) j = if j =? i then b else test_bit bmap j.
Proof.
  intros Hi. unfold test_bit, set_bit, at_index.
  destruct (Z.ltb_spec i 0); [lia|].
  destruct (Z.eqb_spec j i) as [-> | Hne].
  - destruct (Z.ltb_spec i 0); [lia|]. rewrite list_lookup_insert_eq by lia. reflexivity.
  - destruct (Z.ltb_spec j 0); [reflexivity|].
    rewrite list_lookup_insert_ne by lia. reflexivity.
Qed.

(** Marking and unmarking an edge for deletion: for an edge index
    within the bitmap, after [meshdelete_add_edge] the edge is found, after
    [meshdelete_remove_edge] it is not, every other edge is found as
    before, and the face and vertex marks are not touched. *)
Lemma meshdelete_edge_round_trip (meshdelete : MeshDelete) (e e' : Z) :
  0 <= e < Z.of_nat (length (edge_bmap meshdelete)) ->
  meshdelete_find_edge (meshdelete_add_edge meshdelete e) e'
  = (if e' =? e then true else meshdelete_find_edge meshdelete e') /\
  meshdelete_find_edge (meshdelete_remove_edge meshdelete e) e'
  = (if e' =? e then false else meshdelete_find_edge meshdelete e') /\
  meshdelete_find_edge (meshdelete_remove_edge (meshdelete_add_edge meshdelete e) e) e' 
  = (if e' =? e then false else meshdelete_find_edge meshdelete e') /\
  face_bmap (meshdelete_add_edge meshdelete e) = face_bmap meshdelete /\
  face_bmap (meshdelete_remove_edge meshdelete e) = face_bmap meshdelete /\
  vert_bmap (meshdelete_add_edge meshdelete e) = vert_bmap meshdelete /\
  vert_bmap (meshdelete_remove_edge meshdelete e) = vert_bmap meshdelete.
Proof.
  intros He. unfold meshdelete_find_edge, meshdelete_add_edge, meshdelete_remove_edge. simpl.
  rewrite !test_set_bit; try exact He.
  - repeat split; try reflexivity. now destruct (e' =? e).
  - unfold set_bit. destruct (e <? 0); [exact He|]. now rewrite length_insert.
Qed.

(** ** Part sets *)

(** The two ways a face on the wanted sides is handled. *)
Lemma find_coplanar_step_cases (bs : BoolState) (sides : Z) (partset : MeshPartSet)
    (face_part : list (option nat)) (f : Z) :
  on_sides bs sides f = true ->
  find_coplanar_step bs sides (partset, face_part) f
  = (add_part_to_partset partset (new_part_for bs f),
     <[Z.to_nat f := Some (length (meshparts partset))]> face_part) \/
  exists (near_f : Z) (p : nat),
    0 <= near_f /\ face_part !! Z.to_nat near_f = Some (Some p) /\
    find_coplanar_step bs sides (partset, face_part) f
    = (mkMeshPartSet (ps_bbmin partset) (ps_bbmax partset)
                     (alter (fun part => add_face_to_part part f) p (meshparts partset)),
       <[Z.to_nat f := Some p]> face_part).
Proof.
  intros Hside. unfold find_coplanar_step. rewrite Hside. cbn [negb].
  destruct (find_near_f bs sides face_part f =? -1) eqn:E; [now left|]. right.
  assert (Hpos : forall i, In i (coplanar_candidates bs sides face_part f) -> 0 <= i).
  { intros i Hi. apply coplanar_candidates_has_part, has_part_inv in Hi. tauto. }
  destruct (lowest_fold _ (-1) Hpos (or_introl eq_refl)) as (Hin & _ & _ & _).
  rewrite <- find_near_f_lowest in Hin.
  destruct Hin as [Heq | Hin]; [lia|].
  destruct (has_part_inv _ _ (coplanar_candidates_has_part _ _ _ _ _ Hin)) as (Hn & p & Hp).
  exists (find_near_f bs sides face_part f), p. split; [exact Hn|].
  rewrite Hp. split; [|reflexivity].
  unfold at_index in Hp. destruct (find_near_f bs sides face_part f <? 0); [discriminate|].
  exact Hp.
Qed.

Lemma parts_inv_start (bs : BoolState) (sides : Z) :
  parts_inv bs sides 0 [] (replicate (length (im_faces (im bs))) None).
Proof.
  unfold parts_inv. split; [apply length_replicate|]. split.
  - intros f p H. apply lookup_replicate in H. destruct H as [H _]. discriminate.
  - split; [intros p part g H; discriminate H|]. split; [intros f Hf; lia|].
    intros p part H. discriminate H.
Qed.

Lemma parts_inv_step (bs : BoolState) (sides : Z) (n : nat) (partset : MeshPartSet)
    (face_part : list (option nat)) :
  (n < length (im_faces (im bs)))%nat ->
  parts_inv bs sides n (meshparts partset) face_part ->
  parts_inv bs sides (S n)
    (meshparts (fst (find_coplanar_step bs sides (partset, face_part) (Z.of_nat n))))
    (snd (find_coplanar_step bs sides (partset, face_part) (Z.of_nat n))).
Proof.
  intros Hn (I1 & I2 & I3 & I4 & I5).
  assert (Hfree : forall p, face_part !! n <> Some (Some p)).
  { intros p Hp. destruct (I2 n p Hp) as [Hlt _]. lia. }
  assert (Hnot_in : forall p part, meshparts partset !! p = Some part ->
                                   ~ In (Z.of_nat n) (mp_faces part)).
  { intros p part Hp Hin. destruct (I3 p part _ Hp Hin) as [_ H].
    rewrite Nat2Z.id in H. exact (Hfree p H). }
  destruct (on_sides bs sides (Z.of_nat n)) eqn:Hside.
  - destruct (find_coplanar_step_cases bs sides partset face_part (Z.of_nat n) Hside)
      as [-> | (near_f & p & Hnear & Hp & ->)]; simpl; rewrite Nat2Z.id.
    + (* a new part *)
      unfold parts_inv. split; [now rewrite length_insert|]. split.
      { intros f p. destruct (decide (f = n)) as [-> | Hne].
        - rewrite list_lookup_insert_eq by lia. intros [= <-].
          split; [lia|]. split; [exact Hside|].
          exists (new_part_for bs (Z.of_nat n)). split; [|now left].
          rewrite lookup_app_r by lia. now rewrite Nat.sub_diag.
        - rewrite list_lookup_insert_ne by congruence. intros H.
          destruct (I2 f p H) as (Hlt & Hs & part & Hpart & Hin).
          split; [lia|]. split; [exact Hs|]. exists part. split; [|exact Hin].
          now apply lookup_app_l_Some. }
      split.
      { intros p part g Hp Hin.
        destruct (Nat.lt_ge_cases p (length (meshparts partset))) as [Hlt | Hge].
        - rewrite lookup_app_l in Hp by lia.
          destruct (I3 p part g Hp Hin) as [Hg Hfp]. split; [exact Hg|].
          rewrite list_lookup_insert_ne; [exact Hfp|].
          intros ->. exact (Hfree p Hfp).
        - rewrite lookup_app_r in Hp by lia.
          destruct (p - length (meshparts partset))%nat as [|k] eqn:Ek;
            [|destruct k; discriminate Hp].
          injection Hp as <-. simpl in Hin. destruct Hin as [<- | []].
          split; [lia|]. rewrite Nat2Z.id, list_lookup_insert_eq by lia.
          f_equal. f_equal. lia. }
      split.
      { intros f Hf Hlen Hs. destruct (decide (f = n)) as [-> | Hne].
        - rewrite list_lookup_insert_eq by lia. eauto.
        - rewrite list_lookup_insert_ne by congruence. apply I4; [lia | exact Hlen | exact Hs]. }
      { intros p part Hp.
        destruct (Nat.lt_ge_cases p (length (meshparts partset))) as [Hlt | Hge].
        - rewrite lookup_app_l in Hp by lia. now apply (I5 p).
        - rewrite lookup_app_r in Hp by lia.
          destruct (p - length (meshparts partset))%nat as [|k] eqn:Ek;
            [|destruct k; discriminate Hp].
          injection Hp as <-. simpl.
          split; [constructor; [intros [] | constructor]|].
          split; [discriminate|]. split; reflexivity. }
    + (* joining the part of [near_f] *)
      destruct (I2 _ _ Hp) as (_ & _ & part0 & Hpart0 & _).
      unfold parts_inv. split; [now rewrite length_insert|]. split.
      { intros f q. destruct (decide (f = n)) as [-> | Hne].
        - rewrite list_lookup_insert_eq by lia. intros [= <-].
          split; [lia|]. split; [exact Hside|].
          exists (add_face_to_part part0 (Z.of_nat n)). split; [|now left].
          rewrite list_lookup_alter_eq, Hpart0. reflexivity.
        - rewrite list_lookup_insert_ne by congruence. intros H.
          destruct (I2 f q H) as (Hlt & Hs & part & Hpart & Hin).
          split; [lia|]. split; [exact Hs|].
          destruct (decide (q = p)) as [-> | Hqp].
          + exists (add_face_to_part part (Z.of_nat n)). split; [|now right].
            rewrite list_lookup_alter_eq, Hpart. reflexivity.
          + exists part. split; [|exact Hin]. now rewrite list_lookup_alter_ne by congruence. }
      split.
      { intros q part g Hq Hin.
        destruct (decide (q = p)) as [-> | Hqp].
        - rewrite list_lookup_alter_eq, Hpart0 in Hq. injection Hq as <-.
          simpl in Hin. destruct Hin as [<- | Hin].
          + split; [lia|]. now rewrite Nat2Z.id, list_lookup_insert_eq by lia.
          + destruct (I3 p part0 g Hpart0 Hin) as [Hg Hfp]. split; [exact Hg|].
            rewrite list_lookup_insert_ne; [exact Hfp|].
            intros ->. exact (Hfree p Hfp).
        - rewrite list_lookup_alter_ne in Hq by congruence.
          destruct (I3 q part g Hq Hin) as [Hg Hfp]. split; [exact Hg|].
          rewrite list_lookup_insert_ne; [exact Hfp|].
          intros ->. exact (Hfree q Hfp). }
      split.
      { intros f Hf Hlen Hs. destruct (decide (f = n)) as [-> | Hne].
        - rewrite list_lookup_insert_eq by lia. eauto.
        - rewrite list_lookup_insert_ne by congruence. apply I4; [lia | exact Hlen | exact Hs]. }
      { intros q part Hq.
        destruct (decide (q = p)) as [-> | Hqp].
        - rewrite list_lookup_alter_eq, Hpart0 in Hq. injection Hq as <-.
          destruct (I5 p part0 Hpart0) as (Hnd & _ & Hv & He). simpl.
          split; [constructor; [exact (Hnot_in p part0 Hpart0) | exact Hnd]|].
          split; [discriminate|]. split; assumption.
        - rewrite list_lookup_alter_ne in Hq by congruence. now apply (I5 q). }
  - (* not on the wanted sides: nothing changes *)
    unfold find_coplanar_step. rewrite Hside. simpl.
    unfold parts_inv. split; [exact I1|]. split.
    + intros f p H. destruct (I2 f p H) as (Hlt & Hrest). split; [lia | exact Hrest].
    + split; [exact I3|]. split; [|exact I5].
      intros f Hf Hlen Hs. apply I4; [|exact Hlen | exact Hs].
      destruct (decide (f = n)) as [-> | Hne]; [congruence | lia].
Qed.

Lemma parts_inv_prefix (bs : BoolState) (sides : Z) (n : nat) :
  (n <= length (im_faces (im bs)))%nat ->
  parts_inv bs sides n (meshparts (fst (find_coplanar_prefix bs sides n)))
            (snd (find_coplanar_prefix bs sides n)).
Proof.
  induction n as [|n IH]; intros Hn.
  - unfold find_coplanar_prefix. rewrite take_0. apply parts_inv_start.
  - unfold find_coplanar_prefix in *.
    assert (Hl : face_indices (im bs) !! n = Some (Z.of_nat n)).
    { unfold face_indices. rewrite list_lookup_fmap, lookup_seq_lt by lia. reflexivity. }
    rewrite (take_S_r _ _ _ Hl), fold_left_app. simpl.
    specialize (IH ltac:(lia)).
    destruct (fold_left (find_coplanar_step bs sides) (take n (face_indices (im bs)))
                (init_meshpartset, replicate (length (im_faces (im bs))) None))
      as [partset face_part].
    apply parts_inv_step; [lia | exact IH].
Qed.

Lemma calc_part_bb_eps_lists (bs : BoolState) (part : MeshPart) (eps : double) :
  mp_faces (calc_part_bb_eps bs part eps) = mp_faces part /\
  mp_verts (calc_part_bb_eps bs part eps) = mp_verts part /\
  mp_edges (calc_part_bb_eps bs part eps) = mp_edges part /\
  mp_plane (calc_part_bb_eps bs part eps) = mp_plane part.
Proof.
  unfold calc_part_bb_eps.
  destruct (fold_left _ (mp_faces part) _) as [bbmin bbmax].
  destruct (SFeqb (x3 bbmin) DBL_MAX); repeat split; reflexivity.
Qed.

(** The parts of [find_coplanar_parts] are those of the second loop with
    their boxes filled in. *)
Lemma find_coplanar_parts_inv (bs : BoolState) (sides : Z) :
  exists (parts0 : list MeshPart) (face_part : list (option nat)),
    parts_inv bs sides (length (im_faces (im bs))) parts0 face_part /\
    forall (p : nat) (part : MeshPart),
      meshparts (find_coplanar_parts bs sides) !! p = Some part <->
      exists part0, parts0 !! p = Some part0 /\ part = calc_part_bb_eps bs part0 (eps bs).
Proof.
  unfold find_coplanar_parts, calc_partset_bb_eps. cbn [meshparts].
  pose proof (parts_inv_prefix bs sides (length (im_faces (im bs))) (Nat.le_refl _)) as Hinv.
  unfold find_coplanar_prefix in Hinv.
  rewrite take_ge in Hinv by (unfold face_indices; rewrite length_map, length_seq; lia).
  destruct (fold_left (find_coplanar_step bs sides) (face_indices (im bs))
              (init_meshpartset, replicate (length (im_faces (im bs))) None))
    as [partset face_part].
  cbn [fst snd] in *. exists (meshparts partset), face_part. split; [exact Hinv|].
  intros p part. change (map ?f ?l) with (f <$> l). rewrite list_lookup_fmap.
  destruct (meshparts partset !! p) as [part0|]; simpl.
  - split; [intros [= <-]; eauto | intros (part1 & [= <-] & ->); reflexivity].
  - split; [discriminate | intros (part1 & H & _); discriminate].
Qed.

(** X19.  [find_coplanar_parts] partitions the faces on the wanted sides:
    every such face of the mesh is in the face list of a part; the face
    lists hold only such faces, none of them twice and none in two parts;
    no part is empty, and no part has loose vertices or loose edges. *)
Theorem find_coplanar_parts_partition (bs : BoolState) (sides : Z) :
  let parts := meshparts (find_coplanar_parts bs sides) in
  (forall f, 0 <= f < imesh_totface (im bs) -> on_sides bs sides f = true ->
     exists p part, parts !! p = Some part /\ In f (mp_faces part)) /\
  (forall (p : nat) part f, parts !! p = Some part -> In f (mp_faces part) ->
     0 <= f < imesh_totface (im bs) /\ on_sides bs sides f = true) /\
  (forall (p q : nat) part_p part_q f,
     parts !! p = Some part_p -> parts !! q = Some part_q ->
     In f (mp_faces part_p) -> In f (mp_faces part_q) -> p = q) /\
  (forall (p : nat) part, parts !! p = Some part ->
     List.NoDup (mp_faces part) /\ mp_faces part <> [] /\
     mp_verts part = [] /\ mp_edges part = []).
Proof.
  cbv zeta. destruct (find_coplanar_parts_inv bs sides) as (parts0 & face_part & Hinv & Hparts).
  destruct Hinv as (I1 & I2 & I3 & I4 & I5).
  assert (Hlook : forall p part,
            meshparts (find_coplanar_parts bs sides) !! p = Some part ->
            exists part0, parts0 !! p = Some part0 /\
                          mp_faces part = mp_faces part0 /\ mp_verts part = mp_verts part0 /\
                          mp_edges part = mp_edges part0).
  { intros p part H. apply Hparts in H. destruct H as (part0 & Hp0 & ->).
    exists part0. split; [exact Hp0|].
    destruct (calc_part_bb_eps_lists bs part0 (eps bs)) as (H1 & H2 & H3 & _). auto. }
  split; [|split; [|split]].
  - intros f Hf Hs. unfold imesh_totface in Hf.
    destruct (I4 (Z.to_nat f)) as [p Hp]; [lia | lia | now rewrite Z2Nat.id by lia|].
    destruct (I2 _ _ Hp) as (_ & _ & part0 & Hpart0 & Hin).
    rewrite Z2Nat.id in Hin by lia.
    exists p, (calc_part_bb_eps bs part0 (eps bs)). split.
    + apply Hparts. eauto.
    + now rewrite (proj1 (calc_part_bb_eps_lists bs part0 (eps bs))).
  - intros p part f Hp Hin. destruct (Hlook p part Hp) as (part0 & Hp0 & Hf & _).
    rewrite Hf in Hin. destruct (I3 p part0 f Hp0 Hin) as [Hf0 Hfp].
    destruct (I2 _ _ Hfp) as (_ & Hs & _).
    pose proof (lookup_lt_Some _ _ _ Hfp) as Hlt.
    rewrite Z2Nat.id in Hs by lia. unfold imesh_totface. split; [lia | exact Hs].
  - intros p q part_p part_q f Hp Hq Hinp Hinq.
    destruct (Hlook p part_p Hp) as (p0 & Hp0 & Hfp & _).
    destruct (Hlook q part_q Hq) as (q0 & Hq0 & Hfq & _).
    rewrite Hfp in Hinp. rewrite Hfq in Hinq.
    destruct (I3 p p0 f Hp0 Hinp) as [_ H1]. destruct (I3 q q0 f Hq0 Hinq) as [_ H2].
    congruence.
  - intros p part Hp. destruct (Hlook p part Hp) as (part0 & Hp0 & Hf & Hv & He).
    rewrite Hf, Hv, He. now apply (I5 p).
Qed.

(** ** The part-pair intersector *)

Lemma fold_add_vert_to_partpartintersect (l : list Z) (ppi : PartPartIntersect) :
  fold_left add_vert_to_partpartintersect l ppi
  = mkPPI (ppi_verts ppi ++ l) (ppi_edges ppi) (ppi_faces ppi) (a_index ppi) (b_index ppi).
Proof.
  revert ppi. induction l as [|v l IH]; intros ppi; simpl.
  - rewrite app_nil_r. now destruct ppi.
  - rewrite IH. simpl. now rewrite <- app_assoc.
Qed.

Lemma fold_add_edge_to_partpartintersect (l : list Z) (ppi : PartPartIntersect) :
  fold_left add_edge_to_partpartintersect l ppi
  = mkPPI (ppi_verts ppi) (ppi_edges ppi ++ l) (ppi_faces ppi) (a_index ppi) (b_index ppi).
Proof.
  revert ppi. induction l as [|v l IH]; intros ppi; simpl.
  - rewrite app_nil_r. now destruct ppi.
  - rewrite IH. simpl. now rewrite <- app_assoc.
Qed.

Lemma fold_add_face_to_partpartintersect (l : list Z) (ppi : PartPartIntersect) :
  fold_left add_face_to_partpartintersect l ppi
  = mkPPI (ppi_verts ppi) (ppi_edges ppi) (ppi_faces ppi ++ l) (a_index ppi) (b_index ppi).
Proof.
  revert ppi. induction l as [|v l IH]; intros ppi; simpl.
  - rewrite app_nil_r. now destruct ppi.
  - rewrite IH. simpl. now rewrite <- app_assoc.
Qed.

(** X20.  For two coplanar parts the intersection record lists every
    vertex, edge and face of part A followed by those of part B; the part
    indices stored in it are cleared together with the lists, so they are 0
    whatever indices were passed. *)
Theorem coplanar_part_part_intersect_lists (part_a : MeshPart) (a_idx : Z) (part_b : MeshPart)
    (b_idx : Z) :
  coplanar_part_part_intersect part_a a_idx part_b b_idx
  = mkPPI (mp_verts part_a ++ mp_verts part_b) (mp_edges part_a ++ mp_edges part_b)
          (mp_faces part_a ++ mp_faces part_b) 0 0.
Proof.
  unfold coplanar_part_part_intersect.
  rewrite fold_add_face_to_partpartintersect, fold_add_edge_to_partpartintersect,
    fold_add_vert_to_partpartintersect.
  reflexivity.
Qed.

(** At most one interval comes back for a face; when one does, it is a
    single point or longer than [eps], and its ends are in order. *)
Lemma interval_of_hits (bs : BoolState) (lo hi : FaceEdgeInfo) :
  (is_nan (fi_factor lo) = false -> is_nan (fi_factor hi) = false ->
   SFleb (fi_factor lo) (fi_factor hi) = true) ->
  let l := if SFleb (dsub (fi_factor hi) (fi_factor lo)) (eps bs)
           then [mkInterval (fi_factor lo) (fi_factor lo) (fi_isect lo) (fi_isect lo)]
           else [mkInterval (fi_factor lo) (fi_factor hi) (fi_isect lo) (fi_isect hi)] in
  exists i, l = [i] /\
    ((fac1 i = fac0 i /\ ico1 i = ico0 i) \/ SFleb (dsub (fac1 i) (fac0 i)) (eps bs) = false) /\
    (is_nan (fac0 i) = false -> is_nan (fac1 i) = false -> SFleb (fac0 i) (fac1 i) = true).
Proof.
  intros Hord. cbv zeta.
  destruct (SFleb (dsub (fi_factor hi) (fi_factor lo)) (eps bs)) eqn:E.
  - eexists. split; [reflexivity|]. split; [left; split; reflexivity|].
    cbn [fac0 fac1]. intros Hn _. now apply SFleb_refl.
  - eexists. split; [reflexivity|]. split; [right; exact E | exact Hord].
Qed.

(** X21.  [find_face_line_intersects] returns no interval or exactly one;
    the one interval is a single point (both ends the same factor and the
    same coordinates) or its ends are more than [eps] apart in the factor,
    and, unless a factor is a NaN, the first end is not after the second.
    A face without vertices gives no interval. *)
Theorem find_face_line_intersects_interval (X : Extern) (bs : BoolState) (f : Z)
    (other_plane : v4) (line_co1 line_co2 : v3) :
  (find_face_line_intersects X bs f other_plane line_co1 line_co2 = [] \/
   exists i, find_face_line_intersects X bs f other_plane line_co1 line_co2 = [i] /\
     ((fac1 i = fac0 i /\ ico1 i = ico0 i) \/
      SFleb (dsub (fac1 i) (fac0 i)) (eps bs) = false) /\
     (is_nan (fac0 i) = false -> is_nan (fac1 i) = false ->
      SFleb (fac0 i) (fac1 i) = true)) /\
  (imesh_facelen (im bs) f <= 0 ->
   find_face_line_intersects X bs f other_plane line_co1 line_co2 = []).
Proof.
  split.
  - unfold find_face_line_intersects. cbv zeta.
    match goal with |- context [filter ?P ?l] => destruct (filter P l) as [|s hits] end;
      [now left|].
    right.
    destruct (SFleb (fi_factor s) (fi_factor (List.last (s :: hits) s))) eqn:E;
      apply interval_of_hits.
    + intros _ _. exact E.
    + intros H1 H2. now apply SFleb_total.
  - intros Hlen. unfold find_face_line_intersects. cbv zeta.
    replace (Z.to_nat (imesh_facelen (im bs) f)) with 0%nat by lia. reflexivity.
Qed.

(** ** What the intersector changes *)

Lemma meshadd_grows_refl (meshadd : MeshAdd) : meshadd_grows meshadd meshadd.
Proof.
  unfold meshadd_grows. split; [exists []; now rewrite app_nil_r|].
  split; [exists []; now rewrite app_nil_r|]. repeat split; reflexivity.
Qed.

Lemma meshadd_grows_trans (m1 m2 m3 : MeshAdd) :
  meshadd_grows m1 m2 -> meshadd_grows m2 m3 -> meshadd_grows m1 m3.
Proof.
  intros ([vs1 Hv1] & [es1 He1] & Hf1 & Ha1 & Hb1 & Hc1)
         ([vs2 Hv2] & [es2 He2] & Hf2 & Ha2 & Hb2 & Hc2).
  unfold meshadd_grows. split; [exists (vs1 ++ vs2); now rewrite Hv2, Hv1, app_assoc|].
  split; [exists (es1 ++ es2); now rewrite He2, He1, app_assoc|].
  repeat split; congruence.
Qed.

Lemma meshadd_add_vert_grows (eps : double) (meshadd : MeshAdd) (co : v3) (example : Z)
    (checkdup : bool) :
  meshadd_grows meshadd (fst (meshadd_add_vert eps meshadd co example checkdup)).
Proof.
  assert (Hpush : meshadd_grows meshadd (fst (meshadd_push_vert meshadd co example))).
  { unfold meshadd_grows, meshadd_push_vert. simpl. split; [eauto|].
    split; [exists []; now rewrite app_nil_r|]. repeat split; reflexivity. }
  unfold meshadd_add_vert. destruct checkdup; [|exact Hpush].
  destruct (find_dup_vert _ _ _ _); [apply meshadd_grows_refl | exact Hpush].
Qed.

Lemma meshadd_add_edge_grows (meshadd : MeshAdd) (v1 v2 example : Z) (checkdup : bool) :
  meshadd_grows meshadd (fst (meshadd_add_edge meshadd v1 v2 example checkdup)).
Proof.
  assert (Hpush : meshadd_grows meshadd (fst (meshadd_push_edge meshadd v1 v2 example))).
  { unfold meshadd_grows, meshadd_push_edge. simpl.
    split; [exists []; now rewrite app_nil_r|]. split; [eauto|]. repeat split; reflexivity. }
  unfold meshadd_add_edge. destruct checkdup; [|exact Hpush].
  destruct (negb _); [apply meshadd_grows_refl | exact Hpush].
Qed.

Lemma find_or_add_vert_grows (bs : BoolState) (meshadd : MeshAdd) (co : v3) :
  meshadd_grows meshadd (fst (find_or_add_vert bs meshadd co)).
Proof.
  unfold find_or_add_vert. destruct (imesh_find_co_db (im bs) co (eps bs) =? -1).
  - apply meshadd_add_vert_grows.
  - apply meshadd_grows_refl.
Qed.

Lemma change_grows_refl (change : MeshChange) : change_grows change change.
Proof. unfold change_grows. split; [apply meshadd_grows_refl|]. repeat split; auto. Qed.

Lemma change_grows_trans (c1 c2 c3 : MeshChange) :
  change_grows c1 c2 -> change_grows c2 c3 -> change_grows c1 c3.
Proof.
  intros (Ha1 & Hd1 & Hm1 & Hf1 & Hk1 & Hi1) (Ha2 & Hd2 & Hm2 & Hf2 & Hk2 & Hi2).
  unfold change_grows. split; [exact (meshadd_grows_trans _ _ _ Ha1 Ha2)|].
  repeat split; try congruence. intros e He. apply Hi2, Hi1, He.
Qed.

Lemma change_grows_set_add (change : MeshChange) (meshadd : MeshAdd) :
  meshadd_grows (add change) meshadd -> change_grows change (set_add change meshadd).
Proof. intros H. unfold change_grows. split; [exact H|]. repeat split; auto. Qed.

Lemma intersect_single_intervals_grows (bs : BoolState) (iinfoa iinfob : IntervalInfo)
    (ppi : PartPartIntersect) (change : MeshChange) :
  change_grows change (snd (intersect_single_intervals bs iinfoa iinfob (ppi, change))).
Proof.
  unfold intersect_single_intervals. cbv zeta.
  destruct (SFltb _ _); [apply change_grows_refl|].
  set (co := if SFeqb _ (fac0 iinfoa) then _ else _).
  set (co2 := if SFeqb _ (fac1 iinfoa) then _ else _).
  destruct (compare_v3v3_db co co2 (eps bs)).
  - pose proof (find_or_add_vert_grows bs (add change) co) as H.
    destruct (find_or_add_vert bs (add change) co) as [meshadd1 v]. simpl in *.
    now apply change_grows_set_add.
  - pose proof (find_or_add_vert_grows bs (add change) co) as H1.
    destruct (find_or_add_vert bs (add change) co) as [meshadd1 v1]. simpl in H1.
    pose proof (find_or_add_vert_grows bs meshadd1 co2) as H2.
    destruct (find_or_add_vert bs meshadd1 co2) as [meshadd2 v2]. simpl in H2.
    pose proof (meshadd_grows_trans _ _ _ H1 H2) as H12.
    destruct (v1 =? v2); [cbn [snd]; now apply change_grows_set_add|].
    assert (H3 : meshadd_grows meshadd2
                   (fst (if imesh_find_edge (im bs) v1 v2 =? -1
                         then meshadd_add_edge meshadd2 v1 v2 (-1) true
                         else (meshadd2, imesh_find_edge (im bs) v1 v2)))).
    { destruct (imesh_find_edge (im bs) v1 v2 =? -1);
        [apply meshadd_add_edge_grows | apply meshadd_grows_refl]. }
    destruct (if imesh_find_edge (im bs) v1 v2 =? -1
              then meshadd_add_edge meshadd2 v1 v2 (-1) true
              else (meshadd2, imesh_find_edge (im bs) v1 v2)) as [meshadd3 e'].
    cbn [fst snd] in *. unfold change_grows, set_intersection_edges, set_add.
    cbn [add delete vert_merge_map face_flip use_face_kill_loose intersection_edges].
    split; [exact (meshadd_grows_trans _ _ _ H12 H3)|].
    repeat split; auto. intros e He. rewrite add_to_intset_find, He. apply orb_true_r.
Qed.

Lemma intersect_face_pair_grows (bs : BoolState) (lna lnb : list IntervalInfo)
    (ppi : PartPartIntersect) (change : MeshChange) :
  change_grows change (snd (intersect_face_pair bs lna lnb (ppi, change))).
Proof.
  unfold intersect_face_pair.
  destruct lna as [|a [|a' lna]]; [apply change_grows_refl | |
    destruct lnb; apply change_grows_refl].
  destruct lnb as [|b [|b' lnb]]; [apply change_grows_refl | | apply change_grows_refl].
  apply intersect_single_intervals_grows.
Qed.

Lemma fold_grows {A : Type} (step : PartPartIntersect * MeshChange -> A ->
                                    PartPartIntersect * MeshChange) (l : list A) :
  (forall ppi change a, change_grows change (snd (step (ppi, change) a))) ->
  forall ppi change, change_grows change (snd (fold_left step l (ppi, change))).
Proof.
  intros Hstep. induction l as [|a l IH]; intros ppi change; simpl;
    [apply change_grows_refl|].
  pose proof (Hstep ppi change a) as H. destruct (step (ppi, change) a) as [ppi' change'].
  simpl in H. exact (change_grows_trans _ _ _ H (IH ppi' change')).
Qed.

Lemma loose_edge_step_grows (X : Extern) (bs : BoolState) (line_co1 line_co2 co : v3)
    (ppi : PartPartIntersect) (meshadd : MeshAdd) (e : Z) :
  meshadd_grows meshadd (snd (loose_edge_step X bs line_co1 line_co2 co (ppi, meshadd) e)).
Proof.
  unfold loose_edge_step.
  destruct (imesh_get_edge_cos_db (im bs) e) as [co1 co2]. cbv zeta.
  destruct (_ || _).
  - destruct (_ && _); [apply meshadd_grows_refl|].
    destruct (imesh_get_edge_verts (im bs) e). apply meshadd_grows_refl.
  - destruct (isect_line_line_epsilon_v3_db X line_co1 line_co2 co1 co2 (eps bs))
      as [[isv c1] c2].
    destruct (0 <? isv); [|apply meshadd_grows_refl].
    destruct (_ || _); [|apply meshadd_grows_refl].
    destruct (_ && _); [|apply meshadd_grows_refl].
    destruct (imesh_find_co_db (im bs) c1 (eps bs) =? -1); [|apply meshadd_grows_refl].
    pose proof (meshadd_add_vert_grows (eps bs) meshadd (copy_v3fl_v3db co) (-1) true) as H.
    unfold meshadd_add_vert_db.
    destruct (meshadd_add_vert (eps bs) meshadd (copy_v3fl_v3db co) (-1) true). exact H.
Qed.

Lemma fold_loose_edge_grows (X : Extern) (bs : BoolState) (line_co1 line_co2 co : v3)
    (es : list Z) (ppi : PartPartIntersect) (meshadd : MeshAdd) :
  meshadd_grows meshadd
    (snd (fold_left (loose_edge_step X bs line_co1 line_co2 co) es (ppi, meshadd))).
Proof.
  revert ppi meshadd. induction es as [|e es IH]; intros ppi meshadd; cbn [fold_left];
    [apply meshadd_grows_refl|].
  pose proof (loose_edge_step_grows X bs line_co1 line_co2 co ppi meshadd e) as H.
  destruct (loose_edge_step X bs line_co1 line_co2 co (ppi, meshadd) e) as [ppi' meshadd'].
  cbn [snd] in H. exact (meshadd_grows_trans _ _ _ H (IH ppi' meshadd')).
Qed.

(** X22.  The part-pair intersector only stages: whatever the parts, the
    change after [part_part_intersect] has the same delete marks, merge
    map, flip set and kill flag; its add buffer has the old vertices and
    edges at their old indices, possibly followed by new ones, and no new
    face; and every intersection edge recorded before is still recorded. *)
Theorem part_part_intersect_only_stages (X : Extern) (bs : BoolState) (co_init : v3)
    (part_a : MeshPart) (a_idx : Z) (part_b : MeshPart) (b_idx : Z) (change : MeshChange) :
  change_grows change
    (snd (part_part_intersect X bs co_init part_a a_idx part_b b_idx change)).
Proof.
  unfold part_part_intersect.
  destruct (negb _); [apply change_grows_refl|].
  destruct (planes_are_coplanar _ _ _); [apply change_grows_refl|].
  unfold non_coplanar_part_part_intersect.
  destruct (isect_plane_plane_v3_db X (mp_plane part_a) (mp_plane part_b))
    as [[line_co1 line_dir]|]; [|apply change_grows_refl].
  cbv zeta.
  destruct (fold_left (loose_vert_step X bs line_co1 (add_v3_v3v3_db line_co1 line_dir))
              (mp_verts part_a ++ mp_verts part_b) (mkPPI [] [] [] a_idx b_idx, co_init))
    as [ppi1 co].
  pose proof (fold_loose_edge_grows X bs line_co1 (add_v3_v3v3_db line_co1 line_dir) co
                (mp_edges part_a ++ mp_edges part_b) ppi1 (add change)) as H1.
  destruct (fold_left (loose_edge_step X bs line_co1 (add_v3_v3v3_db line_co1 line_dir) co)
              (mp_edges part_a ++ mp_edges part_b) (ppi1, add change)) as [ppi2 meshadd].
  simpl in H1.
  match goal with
  | |- context [fold_left ?step ?l (ppi2, set_add change meshadd)] =>
      pose proof (fold_grows step l) as H2
  end.
  match type of H2 with ?P -> _ => assert (Hstep : P) end.
  { intros ppi c lna. destruct c as [ma d vm ie ff kl].
    match goal with
    | |- context [fold_left ?step ?l _] => pose proof (fold_grows step l) as H3
    end.
    apply H3. intros ppi' c' lnb. destruct c'. apply intersect_face_pair_grows. }
  specialize (H2 Hstep ppi2 (set_add change meshadd)).
  destruct (fold_left _ _ (ppi2, set_add change meshadd)) as [ppi3 change'].
  simpl in *. exact (change_grows_trans _ _ _ (change_grows_set_add _ _ H1) H2).
Qed.

(** ** The overlap array *)

(** X23.  [bool_overlap_sort_fn] is a comparison [qsort] can rely on: its
    value is -1, 0 or 1; swapping the arguments negates it; it is 0 only
    for equal overlaps; and "not greater" is transitive. *)
Theorem bool_overlap_sort_fn_consistent (o1 o2 o3 : BVHTreeOverlap) :
  (bool_overlap_sort_fn o1 o2 = -1 \/ bool_overlap_sort_fn o1 o2 = 0 \/
   bool_overlap_sort_fn o1 o2 = 1) /\
  bool_overlap_sort_fn o2 o1 = - bool_overlap_sort_fn o1 o2 /\
  (bool_overlap_sort_fn o1 o2 = 0 <-> o1 = o2) /\
  (bool_overlap_sort_fn o1 o2 <= 0 -> bool_overlap_sort_fn o2 o3 <= 0 ->
   bool_overlap_sort_fn o1 o3 <= 0).
Proof.
  destruct o1 as [a1 b1], o2 as [a2 b2], o3 as [a3 b3].
  unfold bool_overlap_sort_fn. cbn [indexA indexB].
  assert (Heq : mkOverlap a1 b1 = mkOverlap a2 b2 <-> a1 = a2 /\ b1 = b2).
  { split; [intros [= -> ->]; auto | intros [-> ->]; reflexivity]. }
  rewrite Heq.
  repeat match goal with |- context [?x <? ?y] => destruct (Z.ltb_spec x y) end; lia.
Qed.

Lemma overlap_step_skip (X : Extern) (co_init : Z -> Z -> v3) (bs : BoolState)
    (a_partset b_partset : MeshPartSet) (st : PairState) (o : BVHTreeOverlap) :
  ~ indexA o < indexB o ->
  overlap_step X co_init bs a_partset b_partset true st o = st.
Proof.
  intros H. unfold overlap_step.
  destruct (at_index (meshparts a_partset) (indexA o)); [|reflexivity].
  destruct (at_index (meshparts b_partset) (indexB o)); [|reflexivity].
  destruct (Z.leb_spec (indexB o) (indexA o)); [reflexivity | lia].
Qed.

Lemma fold_overlap_step_upper (X : Extern) (co_init : Z -> Z -> v3) (bs : BoolState)
    (a_partset b_partset : MeshPartSet) (l : list BVHTreeOverlap) (st : PairState) :
  fold_left (overlap_step X co_init bs a_partset b_partset true) l st
  = fold_left (overlap_step X co_init bs a_partset b_partset true) (upper_overlaps l) st.
Proof.
  unfold upper_overlaps. revert st. induction l as [|o l IH]; intros st; [reflexivity|].
  rewrite filter_cons. simpl. destruct (decide (indexA o < indexB o)) as [Ho | Ho].
  - simpl. apply IH.
  - rewrite overlap_step_skip by exact Ho. apply IH.
Qed.

Lemma StronglySorted_filter {A : Type} (R : A -> A -> Prop) (P : A -> Prop)
    `{forall x, Decision (P x)} (l : list A) :
  StronglySorted R l -> StronglySorted R (filter P l).
Proof.
  induction 1 as [|a l Hs IH Hall]; [constructor|].
  rewrite filter_cons. destruct (decide (P a)); [|exact IH].
  constructor; [exact IH|]. 
  apply List.Forall_forall. intros x Hx.
  apply list_elem_of_In, list_elem_of_filter in Hx. destruct Hx as [_ Hx].
  rewrite List.Forall_forall in Hall. apply Hall. now apply list_elem_of_In.
Qed.

(** The array the loop of [intersect_partset_pair] runs over. *)
Lemma upper_of_sorted
    (qsort : (BVHTreeOverlap -> BVHTreeOverlap -> Z) -> list BVHTreeOverlap -> list BVHTreeOverlap)
    (overlap : list BVHTreeOverlap) :
  qsort_contract qsort ->
  upper_overlaps (match overlap with [] => [] | _ => qsort bool_overlap_sort_fn overlap end)
  = match upper_overlaps overlap with
    | [] => []
    | _ => qsort bool_overlap_sort_fn (upper_overlaps overlap)
    end.
Proof.
  intros Hq.
  assert (Hs : forall l, (match l with [] => [] | _ => qsort bool_overlap_sort_fn l end) ≡ₚ l /\
                         Sorted overlap_le
                           (match l with [] => [] | _ => qsort bool_overlap_sort_fn l end)).
  { intros [|o l]; [split; [reflexivity | constructor]|]. apply Hq. }
  destruct (Hs overlap) as [Hp1 Hs1]. destruct (Hs (upper_overlaps overlap)) as [Hp2 Hs2].
  apply sorted_overlaps_unique.
  - apply StronglySorted_Sorted, StronglySorted_filter.
    exact (@sorting.Sorted_StronglySorted _ overlap_le overlap_le_trans _ Hs1).
  - exact Hs2.
  - rewrite Hp2. unfold upper_overlaps. now rewrite Hp1.
Qed.

(** X24.  When a part set is intersected with itself, only the overlaps
    that pair a part with one of higher index count: the change is the same
    as for the overlap array with all other pairs (a part with itself, or
    with a part of lower index) left out. *)
Theorem intersect_partset_pair_self_upper (X : Extern)
    (qsort : (BVHTreeOverlap -> BVHTreeOverlap -> Z) -> list BVHTreeOverlap -> list BVHTreeOverlap)
    (self_isect : BoolState -> MeshPart -> list PartPartIntersect -> MeshChange -> MeshChange)
    (co_init : Z -> Z -> v3) (bs : BoolState) (partset : MeshPartSet)
    (overlap : list BVHTreeOverlap) (meshchange : MeshChange) :
  qsort_contract qsort ->
  intersect_partset_pair X qsort self_isect co_init bs partset partset true overlap meshchange
  = intersect_partset_pair X qsort self_isect co_init bs partset partset true
                           (upper_overlaps overlap) meshchange.
Proof.
  intros Hq. unfold intersect_partset_pair. cbv zeta.
  rewrite (fold_overlap_step_upper X co_init bs partset partset
             (match overlap with [] => [] | _ => qsort bool_overlap_sort_fn overlap end)).
  rewrite (upper_of_sorted qsort overlap Hq).
  reflexivity.
Qed.

Lemma intersect_partset_pair_self_upper_witness :
  intersect_partset_pair (tri_extern no_atan2) example_qsort (fun _ _ _ c => c)
    (fun _ _ => zero_v3_db) planes_state (find_coplanar_parts planes_state SIDE_A)
    (find_coplanar_parts planes_state SIDE_A) true
    [mkOverlap 1 0; mkOverlap 0 1; mkOverlap 1 1; mkOverlap 0 0]
    (init_meshchange planes_mesh)
  = intersect_partset_pair (tri_extern no_atan2) example_qsort (fun _ _ _ c => c)
      (fun _ _ => zero_v3_db) planes_state (find_coplanar_parts planes_state SIDE_A)
      (find_coplanar_parts planes_state SIDE_A) true
      (upper_overlaps [mkOverlap 1 0; mkOverlap 0 1; mkOverlap 1 1; mkOverlap 0 0])
      (init_meshchange planes_mesh).
Proof.
  apply (intersect_partset_pair_self_upper (tri_extern no_atan2) example_qsort
           (fun _ _ _ c => c) (fun _ _ => zero_v3_db) planes_state
           (find_coplanar_parts planes_state SIDE_A)
           [mkOverlap 1 0; mkOverlap 0 1; mkOverlap 1 1; mkOverlap 0 0]
           (init_meshchange planes_mesh)).
  exact example_qsort_contract.
Defined.

(** ** The index map of the needed elements *)

Lemma add_needed_inv (s : IndexedIntSet) (m : IntIntMap) (v : Z) :
  indexedintset_ok s ->
  (forall i, find_in_intintmap m i
             = if (0 <=? i) && (i <? iis_size s) then iis_list s !! Z.to_nat i else None) ->
  indexedintset_ok (fst (add_needed (s, m) v)) /\
  (forall i, find_in_intintmap (snd (add_needed (s, m) v)) i
             = if (0 <=? i) && (i <? iis_size (fst (add_needed (s, m) v)))
               then iis_list (fst (add_needed (s, m) v)) !! Z.to_nat i else None).
Proof.
  intros Hok Hm. unfold add_needed. cbn [fst snd].
  destruct (add_int_to_indexedintset_ok s v Hok) as (Hok' & Hrange).
  split; [exact Hok'|]. intros i. unfold add_to_intintmap.
  rewrite find_in_intintmap_snoc, Hm. cbn [first second].
  revert Hok' Hrange. unfold add_int_to_indexedintset, indexedintset_ok in *.
  destruct (BLI_linklist_index (iis_list s) v =? -1) eqn:E; cbn [fst snd iis_size iis_list].
  - intros Hok' Hrange. rewrite length_app in Hok'. simpl in Hok'.
    destruct (Z.leb_spec 0 i); cbn [andb].
    + destruct (Z.ltb_spec i (iis_size s)).
      * destruct (Z.ltb_spec i (iis_size s + 1)); [|lia].
        destruct (iis_list s !! Z.to_nat i) eqn:El.
        -- symmetry. now apply lookup_app_l_Some.
        -- apply lookup_ge_None in El. lia.
      * destruct (Z.eqb_spec (iis_size s) i) as [<- | Hne].
        -- destruct (Z.ltb_spec (iis_size s) (iis_size s + 1)); [|lia].
           rewrite lookup_app_r by lia.
           replace (Z.to_nat (iis_size s) - length (iis_list s))%nat with 0%nat by lia.
           reflexivity.
        -- destruct (Z.ltb_spec i (iis_size s + 1)); [lia | reflexivity].
    + destruct (Z.eqb_spec (iis_size s) i); [lia | reflexivity].
  - intros Hok' Hrange.
    destruct (Z.leb_spec 0 i); cbn [andb].
    + destruct (Z.ltb_spec i (iis_size s)).
      * destruct (iis_list s !! Z.to_nat i) eqn:El; [reflexivity|].
        apply lookup_ge_None in El. lia.
      * destruct (Z.eqb_spec (BLI_linklist_index (iis_list s) v) i); [lia | reflexivity].
    + destruct (Z.eqb_spec (BLI_linklist_index (iis_list s) v) i); [lia | reflexivity].
Qed.

(** X25.  The index map kept beside an indexed set inverts it: after any
    run of "give the element an index, add the pair (index, element) to the
    map", the map finds for every index in range the element at that index
    of the set, and nothing for any other index; elements needed more than
    once add pairs that are never found and change nothing. *)
Theorem needed_map_inverts_index (values : list Z) (i : Z) :
  let st := fold_left add_needed values (init_indexedintset, init_intintmap) in
  find_in_intintmap (snd st) i
  = if (0 <=? i) && (i <? iis_size (fst st))
    then Some (indexedintset_get_value_by_index (fst st) i) else None.
Proof.
  cbv zeta.
  assert (H : indexedintset_ok (fst (fold_left add_needed values
                                       (init_indexedintset, init_intintmap))) /\
              forall i, find_in_intintmap
                          (snd (fold_left add_needed values
                                  (init_indexedintset, init_intintmap))) i
                        = if (0 <=? i) &&
                             (i <? iis_size (fst (fold_left add_needed values
                                                    (init_indexedintset, init_intintmap))))
                          then iis_list (fst (fold_left add_needed values
                                                (init_indexedintset, init_intintmap)))
                               !! Z.to_nat i
                          else None).
  { induction values as [|v values IH] using rev_ind.
    - split; [reflexivity|]. intros j. simpl. now destruct (0 <=? j), (j <? 0).
    - rewrite fold_left_app. cbn [fold_left].
      destruct (fold_left add_needed values (init_indexedintset, init_intintmap)) as [s m].
      destruct IH as [Hok Hm]. exact (add_needed_inv s m v Hok Hm). }
  destruct H as [Hok Hm]. rewrite Hm.
  unfold indexedintset_get_value_by_index, indexedintset_ok in *.
  destruct (Z.leb_spec 0 i); cbn [andb]; [|reflexivity].
  destruct (Z.ltb_spec i (iis_size (fst (fold_left add_needed values
                                           (init_indexedintset, init_intintmap)))));
    [|reflexivity].
  destruct (Z.ltb_spec i 0); [lia|].
  destruct (Z.leb_spec (iis_size (fst (fold_left add_needed values
                                         (init_indexedintset, init_intintmap)))) i); [lia|].
  cbn [orb].
  destruct (iis_list _ !! Z.to_nat i) eqn:El; [reflexivity|].
  apply lookup_ge_None in El. lia.
Qed.

(** ** Merged vertices *)

(** X26.  The vertex [resolve_merge] returns is not merged away: it has no
    entry in the map, resolving it again gives itself, and a vertex without
    an entry resolves to itself. *)
Theorem resolve_merge_result_unmapped (fuel : nat) (v w : Z) (vert_merge_map : IntIntMap) :
  resolve_merge fuel v vert_merge_map = Some w ->
  find_in_intintmap vert_merge_map w = None /\
  (forall fuel', (0 < fuel')%nat -> resolve_merge fuel' w vert_merge_map = Some w) /\
  (find_in_intintmap vert_merge_map v = None -> w = v).
Proof.
  revert v. induction fuel as [|fuel IH]; intros v; simpl; [discriminate|].
  destruct (find_in_intintmap vert_merge_map v) as [target|] eqn:E.
  - intros H. destruct (IH target H) as (H1 & H2 & _).
    split; [exact H1|]. split; [exact H2 | discriminate].
  - intros [= <-]. split; [exact E|]. split; [|reflexivity].
    intros [|fuel'] Hf; [lia|]. simpl. now rewrite E.
Qed.

Lemma resolve_merge_result_unmapped_witness :
  find_in_intintmap chain_map 1 = None /\
  (forall fuel', (0 < fuel')%nat -> resolve_merge fuel' 1 chain_map = Some 1) /\
  (find_in_intintmap chain_map 5 = None -> 1 = 5).
Proof.
  apply (resolve_merge_result_unmapped 3 5 1 chain_map). reflexivity.
Defined.

(** ** The winding classifier and the operator *)

Lemma gwn_face_skip (X : Extern) (bs : BoolState) (side : Z) (co : v3) (gwn : double) (f : Z) :
  Z.land (face_side_at bs f) side = 0 -> gwn_face X bs side co gwn f = gwn.
Proof. intros H. unfold gwn_face. rewrite H. reflexivity. Qed.

(** X27.  Against a side without faces nothing is inside: when no face of
    the mesh has a flag in common with [side], the generalized winding
    number of every point is 0 and [point_is_inside_side] is false. *)
Theorem point_outside_empty_side (X : Extern) (bs : BoolState) (side : Z) (co : v3) :
  side_is_empty bs side ->
  generalized_winding_number X bs side co = d0 /\
  point_is_inside_side X bs side co = false.
Proof.
  intros Hempty.
  assert (Hfold : forall l gwn, (forall f, In f l -> 0 <= f < imesh_totface (im bs)) ->
                    fold_left (gwn_face X bs side co) l gwn = gwn).
  { induction l as [|f l IH]; intros gwn Hl; [reflexivity|]. simpl.
    rewrite gwn_face_skip by (apply Hempty, Hl; now left).
    apply IH. intros g Hg. apply Hl. now right. }
  assert (Hgwn : generalized_winding_number X bs side co = d0).
  { unfold generalized_winding_number. rewrite Hfold; [vm_compute; reflexivity|].
    intros f Hf. unfold face_indices in Hf. apply in_map_iff in Hf.
    destruct Hf as (k & <- & Hk). apply in_seq in Hk. unfold imesh_totface. lia. }
  split; [exact Hgwn|]. unfold point_is_inside_side. rewrite Hgwn. reflexivity.
Qed.

Lemma point_outside_empty_side_witness :
  generalized_winding_number (tri_extern no_atan2) (tri_state SIDE_A) SIDE_B zero_v3_db = d0 /\
  point_is_inside_side (tri_extern no_atan2) (tri_state SIDE_A) SIDE_B zero_v3_db = false.
Proof.
  apply (point_outside_empty_side (tri_extern no_atan2) (tri_state SIDE_A) SIDE_B zero_v3_db).
  intros f Hf. assert (f = 0) by (unfold imesh_totface in Hf; simpl in Hf; lia).
  subst f. reflexivity.
Defined.

Lemma do_boolean_group_frame (X : Extern) (bs : BoolState) (boolean_mode : boolean_op)
    (groups_array : list Z) (change : MeshChange) (grp : Z * Z) :
  let change' := do_boolean_group X bs boolean_mode groups_array change grp in
  add change' = add change /\ vert_merge_map change' = vert_merge_map change /\
  intersection_edges change' = intersection_edges change /\
  use_face_kill_loose change' = use_face_kill_loose change /\
  vert_bmap (delete change') = vert_bmap (delete change) /\
  edge_bmap (delete change') = edge_bmap (delete change) /\
  length (face_bmap (delete change')) = length (face_bmap (delete change)) /\
  (boolean_mode <> BMESH_BOOLEAN_DIFFERENCE -> face_flip change' = face_flip change).
Proof.
  cbv zeta. unfold do_boolean_group.
  destruct (at_index groups_array (fst grp)) as [f|]; [|tauto].
  assert (Hflip : boolean_mode <> BMESH_BOOLEAN_DIFFERENCE ->
                  forall r fl, group_remove_flip X bs boolean_mode f = Some (r, fl) -> fl = false).
  { intros Hmode r fl. unfold group_remove_flip.
    destruct (face_side_at bs f =? 0); [discriminate|].
    destruct (c_bool (Z.land (face_side_at bs f) (Z.land SIDE_A SIDE_B)));
      destruct boolean_mode; try congruence; intros [= _ <-]; reflexivity. }
  destruct (group_remove_flip X bs boolean_mode f) as [[do_remove do_flip]|]; [|tauto].
  destruct (do_remove || do_flip); [|tauto].
  generalize (group_faces groups_array grp). intros fs. revert change.
  induction fs as [|g fs IH]; intros change; cbn [fold_left]; [tauto|].
  match goal with |- context [fold_left ?step fs ?c] =>
    destruct (IH c) as (H1 & H2 & H3 & H4 & H5 & H6 & H7 & H8) end.
  rewrite H1, H2, H3, H4, H5, H6, H7.
  destruct do_remove.
  - cbn. repeat split; try reflexivity.
    + destruct (g <? 0); [reflexivity | apply length_insert].
    + intros Hm. now rewrite (H8 Hm).
  - destruct do_flip.
    + cbn. repeat split; try reflexivity. intros Hm.
      discriminate (Hflip Hm false true eq_refl).
    + repeat split; try reflexivity. intros Hm. now rewrite (H8 Hm).
Qed.

(** X28.  [do_boolean_op] only deletes and flips faces: the change it
    stages has an empty add buffer, no vertex merge and no intersection
    edge, marks no vertex and no edge for deletion, and asks for loose
    elements of killed faces to be removed; for intersection and union it
    flips no face. *)
Theorem do_boolean_op_only_deletes_and_flips (X : Extern) (bs : BoolState)
    (boolean_mode : boolean_op) :
  let change := do_boolean_op_change X bs boolean_mode in
  add change = init_meshadd (im bs) /\
  vert_merge_map change = [] /\
  intersection_edges change = [] /\
  use_face_kill_loose change = true /\
  vert_bmap (delete change) = replicate (length (im_verts (im bs))) false /\
  edge_bmap (delete change) = replicate (length (im_edges (im bs))) false /\
  length (face_bmap (delete change)) = length (im_faces (im bs)) /\
  (boolean_mode <> BMESH_BOOLEAN_DIFFERENCE -> face_flip change = []).
Proof.
  cbv zeta. unfold do_boolean_op_change.
  destruct (BM_mesh_calc_face_groups X (im bs) (face_side bs)) as [groups_array group_index].
  assert (H : forall change,
            let change' := fold_left (do_boolean_group X bs boolean_mode groups_array)
                                     group_index change in
            add change' = add change /\ vert_merge_map change' = vert_merge_map change /\
            intersection_edges change' = intersection_edges change /\
            use_face_kill_loose change' = use_face_kill_loose change /\
            vert_bmap (delete change') = vert_bmap (delete change) /\
            edge_bmap (delete change') = edge_bmap (delete change) /\
            length (face_bmap (delete change')) = length (face_bmap (delete change)) /\
            (boolean_mode <> BMESH_BOOLEAN_DIFFERENCE -> face_flip change' = face_flip change)).
  { induction group_index as [|grp group_index IH]; intros change; cbn [fold_left]; [tauto|].
    cbv zeta.
    destruct (IH (do_boolean_group X bs boolean_mode groups_array change grp))
      as (H1 & H2 & H3 & H4 & H5 & H6 & H7 & H8).
    destruct (do_boolean_group_frame X bs boolean_mode groups_array change grp)
      as (G1 & G2 & G3 & G4 & G5 & G6 & G7 & G8).
    rewrite H1, H2, H3, H4, H5, H6, H7.
    repeat split; try assumption. intros Hm. now rewrite (H8 Hm), (G8 Hm). }
  destruct (H (set_use_face_kill_loose (init_meshchange (im bs)) true))
    as (H1 & H2 & H3 & H4 & H5 & H6 & H7 & H8).
  rewrite H1, H2, H3, H4, H5, H6, H7. cbn.
  repeat split; try reflexivity; try apply length_replicate. exact H8.
Qed.

(** ** The uninitialised local of the intersector *)

Lemma non_coplanar_no_loose (X : Extern) (bs : BoolState) (c1 c2 : v3)
    (part_a : MeshPart) (a_idx : Z) (part_b : MeshPart) (b_idx : Z) (change : MeshChange) :
  mp_verts part_a = [] -> mp_edges part_a = [] ->
  mp_verts part_b = [] -> mp_edges part_b = [] ->
  non_coplanar_part_part_intersect X bs c1 part_a a_idx part_b b_idx change
  = non_coplanar_part_part_intersect X bs c2 part_a a_idx part_b b_idx change.
Proof.
  intros Hva Hea Hvb Heb. unfold non_coplanar_part_part_intersect.
  rewrite Hva, Hea, Hvb, Heb.
  destruct (isect_plane_plane_v3_db X (mp_plane part_a) (mp_plane part_b)) as [[l1 ld]|];
    reflexivity.
Qed.

Lemma at_index_lookup {A : Type} (l : list A) (i : Z) (x : A) :
  at_index l i = Some x -> l !! Z.to_nat i = Some x.
Proof. unfold at_index. destruct (i <? 0); [discriminate | auto]. Qed.

Lemma overlap_step_no_loose (X : Extern) (c1 c2 : Z -> Z -> v3) (bs : BoolState)
    (a_partset b_partset : MeshPartSet) (same : bool) (st : PairState) (o : BVHTreeOverlap) :
  faces_only a_partset -> faces_only b_partset ->
  overlap_step X c1 bs a_partset b_partset same st o
  = overlap_step X c2 bs a_partset b_partset same st o.
Proof.
  intros Ha Hb. unfold overlap_step.
  destruct (at_index (meshparts a_partset) (indexA o)) as [part_a|] eqn:Ea; [|reflexivity].
  destruct (at_index (meshparts b_partset) (indexB o)) as [part_b|] eqn:Eb; [|reflexivity].
  destruct (Ha _ _ (at_index_lookup _ _ _ Ea)) as [Hva Hea].
  destruct (Hb _ _ (at_index_lookup _ _ _ Eb)) as [Hvb Heb].
  unfold part_part_intersect.
  rewrite (non_coplanar_no_loose X bs (c1 (indexA o) (indexB o)) (c2 (indexA o) (indexB o))
             part_a (indexA o) part_b (indexB o) (pair_change st) Hva Hea Hvb Heb).
  reflexivity.
Qed.

Lemma intersect_partset_pair_no_loose (X : Extern)
    (qsort : (BVHTreeOverlap -> BVHTreeOverlap -> Z) -> list BVHTreeOverlap -> list BVHTreeOverlap)
    (self_isect : BoolState -> MeshPart -> list PartPartIntersect -> MeshChange -> MeshChange)
    (c1 c2 : Z -> Z -> v3) (bs : BoolState) (a_partset b_partset : MeshPartSet)
    (same : bool) (overlap : list BVHTreeOverlap) (meshchange : MeshChange) :
  faces_only a_partset -> faces_only b_partset ->
  intersect_partset_pair X qsort self_isect c1 bs a_partset b_partset same overlap meshchange
  = intersect_partset_pair X qsort self_isect c2 bs a_partset b_partset same overlap meshchange.
Proof.
  intros Ha Hb. unfold intersect_partset_pair. cbv zeta.
  assert (H : forall l st,
            fold_left (overlap_step X c1 bs a_partset b_partset same) l st
            = fold_left (overlap_step X c2 bs a_partset b_partset same) l st).
  { induction l as [|o l IH]; intros st; [reflexivity|]. cbn [fold_left].
    now rewrite (overlap_step_no_loose X c1 c2 bs a_partset b_partset same st o Ha Hb), IH. }
  now rewrite H.
Qed.

Lemma find_coplanar_parts_faces_only (bs : BoolState) (sides : Z) :
  faces_only (find_coplanar_parts bs sides).
Proof.
  intros p part Hp.
  destruct (find_coplanar_parts_inv bs sides) as (parts0 & face_part & Hinv & Hparts).
  apply Hparts in Hp. destruct Hp as (part0 & Hp0 & ->).
  destruct Hinv as (_ & _ & _ & _ & I5). destruct (I5 p part0 Hp0) as (_ & _ & Hv & He).
  destruct (calc_part_bb_eps_lists bs part0 (eps bs)) as (_ & H2 & H3 & _).
  rewrite H2, H3. split; assumption.
Qed.

(** X29.  The content of the uninitialised local [co] of
    [non_coplanar_part_part_intersect] has no influence on
    [BM_mesh_boolean]: the parts it intersects come from
    [find_coplanar_parts] and have neither loose vertices nor loose edges,
    so the two loops that read [co] are never entered. *)
Theorem BM_mesh_boolean_ignores_co_init (X : Extern)
    (apply : BoolState -> MeshChange -> BoolState)
    (qsort : (BVHTreeOverlap -> BVHTreeOverlap -> Z) -> list BVHTreeOverlap -> list BVHTreeOverlap)
    (self_isect : BoolState -> MeshPart -> list PartPartIntersect -> MeshChange -> MeshChange)
    (co_init1 co_init2 : Z -> Z -> v3)
    (overlap_fn : MeshPartSet -> MeshPartSet -> list BVHTreeOverlap)
    (bm : IMesh) (test_fn : Z -> Z) (use_self : bool) (boolean_mode : option boolean_op)
    (eps : float) :
  BM_mesh_boolean X apply qsort self_isect co_init1 overlap_fn bm test_fn use_self
                  boolean_mode eps
  = BM_mesh_boolean X apply qsort self_isect co_init2 overlap_fn bm test_fn use_self
                    boolean_mode eps.
Proof.
  unfold BM_mesh_boolean. cbv zeta.
  assert (H : forall bs,
            BM_mesh_boolean_isect_change X qsort self_isect co_init1 overlap_fn bs use_self
            = BM_mesh_boolean_isect_change X qsort self_isect co_init2 overlap_fn bs use_self).
  { intros bs. unfold BM_mesh_boolean_isect_change. cbv zeta.
    destruct use_self; apply intersect_partset_pair_no_loose;
      apply find_coplanar_parts_faces_only. }
  now rewrite H.
Qed.

(** ** Parts as chains of faces *)

Lemma coplanar_tree_plane (bs : BoolState) (sides : Z) (node : Z * v4) :
  node ∈ coplanar_tree bs sides -> snd node = face_canonical_plane bs (fst node).
Proof.
  unfold coplanar_tree. intros H. apply list_elem_of_fmap in H.
  destruct H as (f & -> & _). reflexivity.
Qed.

Lemma coplanar_candidates_test (bs : BoolState) (sides : Z) (face_part : list (option nat))
    (f c : Z) :
  In c (coplanar_candidates bs sides face_part f) ->
  find_coplanar_cb_test (fl_of_db (eps bs)) (face_canonical_plane bs f)
                        (face_canonical_plane bs c) = true.
Proof.
  unfold coplanar_candidates. intros Hin.
  apply list_elem_of_In, list_elem_of_fmap in Hin. destruct Hin as (node & -> & Hnode).
  apply list_elem_of_filter in Hnode. destruct Hnode as [Hok Hnode].
  unfold BLI_kdtree_4d_range_search in Hnode. apply list_elem_of_filter in Hnode.
  destruct Hnode as [_ Hnode]. apply coplanar_tree_plane in Hnode.
  apply andb_true_iff in Hok. destruct Hok as [_ Hok]. rewrite Hnode in Hok. exact Hok.
Qed.

(** The two ways a face on the wanted sides is handled, with the test the
    chosen face passed. *)
Lemma find_coplanar_step_join (bs : BoolState) (sides : Z) (partset : MeshPartSet)
    (face_part : list (option nat)) (f : Z) :
  on_sides bs sides f = true ->
  find_coplanar_step bs sides (partset, face_part) f
  = (add_part_to_partset partset (new_part_for bs f),
     <[Z.to_nat f := Some (length (meshparts partset))]> face_part) \/
  exists (near_f : Z) (p : nat),
    0 <= near_f /\ face_part !! Z.to_nat near_f = Some (Some p) /\
    find_coplanar_cb_test (fl_of_db (eps bs)) (face_canonical_plane bs f)
                          (face_canonical_plane bs near_f) = true /\
    find_coplanar_step bs sides (partset, face_part) f
    = (mkMeshPartSet (ps_bbmin partset) (ps_bbmax partset)
                     (alter (fun part => add_face_to_part part f) p (meshparts partset)),
       <[Z.to_nat f := Some p]> face_part).
Proof.
  intros Hside. unfold find_coplanar_step. rewrite Hside. cbn [negb].
  destruct (find_near_f bs sides face_part f =? -1) eqn:E; [now left|]. right.
  assert (Hpos : forall i, In i (coplanar_candidates bs sides face_part f) -> 0 <= i).
  { intros i Hi. apply coplanar_candidates_has_part, has_part_inv in Hi. tauto. }
  destruct (lowest_fold _ (-1) Hpos (or_introl eq_refl)) as (Hin & _ & _ & _).
  rewrite <- find_near_f_lowest in Hin.
  destruct Hin as [Heq | Hin]; [lia|].
  destruct (has_part_inv _ _ (coplanar_candidates_has_part _ _ _ _ _ Hin)) as (Hn & p & Hp).
  exists (find_near_f bs sides face_part f), p. split; [exact Hn|].
  rewrite Hp. split; [|split; [exact (coplanar_candidates_test _ _ _ _ _ Hin) | reflexivity]].
  unfold at_index in Hp. destruct (find_near_f bs sides face_part f <? 0); [discriminate|].
  exact Hp.
Qed.

Lemma chain_step (bs : BoolState) (sides : Z) (n : nat) (partset : MeshPartSet)
    (face_part : list (option nat)) :
  (n < length (im_faces (im bs)))%nat ->
  parts_inv bs sides n (meshparts partset) face_part ->
  (forall (p : nat) part, meshparts partset !! p = Some part -> part_is_chain bs part) ->
  forall (p : nat) part,
    meshparts (fst (find_coplanar_step bs sides (partset, face_part) (Z.of_nat n))) !! p
    = Some part ->
    part_is_chain bs part.
Proof.
  intros Hn (I1 & I2 & I3 & I4 & I5) Hchain.
  assert (Hbelow : forall p part g, meshparts partset !! p = Some part ->
                                    In g (mp_faces part) -> g < Z.of_nat n).
  { intros p part g Hp Hin. destruct (I3 p part g Hp Hin) as [Hg Hfp].
    destruct (I2 _ _ Hfp) as [Hlt _]. lia. }
  destruct (on_sides bs sides (Z.of_nat n)) eqn:Hside.
  - destruct (find_coplanar_step_join bs sides partset face_part (Z.of_nat n) Hside)
      as [-> | (near_f & p0 & Hnear & Hp0 & Htest & ->)]; simpl.
    + intros p part Hp.
      destruct (Nat.lt_ge_cases p (length (meshparts partset))) as [Hlt | Hge].
      * rewrite lookup_app_l in Hp by lia. exact (Hchain p part Hp).
      * rewrite lookup_app_r in Hp by lia.
        destruct (p - length (meshparts partset))%nat as [|k] eqn:Ek;
          [|destruct k; discriminate Hp].
        injection Hp as <-. unfold part_is_chain, new_part_for. simpl.
        split; [repeat constructor|].
        exists (Z.of_nat n), []. split; [reflexivity|]. split; [reflexivity|]. intros f [].
    + destruct (I2 _ _ Hp0) as (Hnlt & _ & part0 & Hpart0 & Hin0).
      rewrite Z2Nat.id in Hin0 by lia.
      intros p part Hp. destruct (decide (p = p0)) as [-> | Hne].
      * rewrite list_lookup_alter_eq, Hpart0 in Hp. injection Hp as <-.
        destruct (Hchain p0 part0 Hpart0) as (Hsort & f0 & rest & Hfaces & Hplane & Hrest).
        unfold part_is_chain. simpl. split.
        -- constructor; [exact Hsort|]. apply List.Forall_forall. intros g Hg.
           exact (Hbelow p0 part0 g Hpart0 Hg).
        -- exists f0, (Z.of_nat n :: rest). rewrite Hfaces. split; [reflexivity|].
           split; [exact Hplane|]. intros f [<- | Hf].
           ++ exists near_f. split; [right; now rewrite <- Hfaces|]. split; [lia | exact Htest].
           ++ destruct (Hrest f Hf) as (g & Hg & Hlt & Ht). exists g.
              split; [right; now rewrite <- Hfaces|]. split; assumption.
      * rewrite list_lookup_alter_ne in Hp by congruence. exact (Hchain p part Hp).
  - unfold find_coplanar_step. rewrite Hside. simpl. exact Hchain.
Qed.

Lemma chain_prefix (bs : BoolState) (sides : Z) (n : nat) :
  (n <= length (im_faces (im bs)))%nat ->
  forall (p : nat) part,
    meshparts (fst (find_coplanar_prefix bs sides n)) !! p = Some part ->
    part_is_chain bs part.
Proof.
  induction n as [|n IH]; intros Hn.
  - unfold find_coplanar_prefix. rewrite take_0. intros p part H. discriminate H.
  - pose proof (parts_inv_prefix bs sides n ltac:(lia)) as Hinv.
    specialize (IH ltac:(lia)).
    unfold find_coplanar_prefix in *.
    assert (Hl : face_indices (im bs) !! n = Some (Z.of_nat n)).
    { unfold face_indices. rewrite list_lookup_fmap, lookup_seq_lt by lia. reflexivity. }
    rewrite (take_S_r _ _ _ Hl), fold_left_app. simpl.
    destruct (fold_left (find_coplanar_step bs sides) (take n (face_indices (im bs)))
                (init_meshpartset, replicate (length (im_faces (im bs))) None))
      as [partset face_part].
    apply chain_step; [lia | exact Hinv | exact IH].
Qed.

(** X30.  The parts of [find_coplanar_parts] are chains: the faces of a
    part are listed by decreasing index; the plane of the part is the
    canonical plane of its lowest face; and every other face of the part
    passed the test of [find_coplanar_cb] against some lower face of the
    same part, which need not be the lowest one. *)
Theorem find_coplanar_parts_chains (bs : BoolState) (sides : Z) :
  Forall (part_is_chain bs) (meshparts (find_coplanar_parts bs sides)).
Proof.
  apply Forall_lookup. intros p part.
  unfold find_coplanar_parts, calc_partset_bb_eps. cbn [meshparts].
  pose proof (chain_prefix bs sides (length (im_faces (im bs))) (Nat.le_refl _)) as Hchain.
  unfold find_coplanar_prefix in Hchain.
  rewrite take_ge in Hchain by (unfold face_indices; rewrite length_map, length_seq; lia).
  destruct (fold_left (find_coplanar_step bs sides) (face_indices (im bs))
              (init_meshpartset, replicate (length (im_faces (im bs))) None))
    as [partset face_part].
  cbn [fst] in *. intros Hp. change (map ?f ?l) with (f <$> l) in Hp.
  rewrite list_lookup_fmap in Hp.
  destruct (meshparts partset !! p) as [part0|] eqn:Hp0; [|discriminate].
  injection Hp as <-.
  destruct (calc_part_bb_eps_lists bs part0 (eps bs)) as (Hf & _ & _ & Hpl).
  destruct (Hchain p part0 Hp0) as (Hsort & f0 & rest & Hfaces & Hplane & Hrest).
  unfold part_is_chain. rewrite Hf, Hpl. split; [exact Hsort|].
  exists f0, rest. split; [exact Hfaces|]. split; [exact Hplane | exact Hrest].
Qed.
